(** * second-brain-web: the hybrid retrieval core

    A shallow embedding of the retrieval pipeline of the repository:
    - [Chunk]      : [chunkText], imported as [@/lib/chunk]
                     (unnamed/part_000, lines 204-255)
    - [Similarity] : [cosine] and [rankByCosine], imported as [@/lib/similarity]
                     (unnamed/part_002, lines 12-46 and 56-143)
    - [Rag]        : [buildContext] and [buildPrompt] (lib/rag.ts)
    - [Query]      : the two [POST] handlers (app/api/query/route.ts and
                     app/api/query-stream/route.ts)
    - [Storage]    : [sanitizeFilename], of [@/lib/storage]
                     (unnamed/part_000, lines 35-53)
    - [Ollama]     : the truncation of the prompt, the read loop of
                     [generateStreamWithOllama] and [embedWithOllama], of
                     [@/lib/ollama] (unnamed/part_001)
    - [Ingest]     : [embedDocument] (lib/ingest.ts)

    Conventions of the embedding.
    - A JavaScript string is a [string]: one [ascii] per UTF-16 code unit,
      restricted to code units below 256; [String.length] is [.length].
    - An integer-valued JavaScript number (an index, a length, a size, a
      database [Int]) is a [Z].
    - A JavaScript number that takes part in floating-point arithmetic (a
      vector component, a similarity) is a [float]: Rocq's primitive binary64
      floats are the IEEE 754 doubles of JavaScript.
    - A call either returns, throws, or (for the one [while] loop of the
      code) runs out of the fuel given to it: see [outcome]. *)

From Stdlib Require Import ZArith List Bool Lia Ascii String.
From Stdlib Require Import Permutation Sorted.
From Stdlib Require Import Floats.PrimFloat.
From Stdlib Require Floats.FloatAxioms.
From Stdlib Require Import Numbers.DecimalString.
From Stdlib Require Numbers.DecimalFacts Numbers.DecimalPos Numbers.DecimalZ.
Import ListNotations.

Set Implicit Arguments.

(** ** What a call can do *)

Inductive js_error : Type :=
| TypeError (message : string)
| OtherError (message : string).

Definition error_message (e : js_error) : string :=
  match e with
  | TypeError m => m
  | OtherError m => m
  end.

Inductive outcome (A : Type) : Type :=
| Returned (a : A)
| Threw (e : js_error)
| OutOfFuel.

Arguments Returned {A} a.
Arguments Threw {A} e.
Arguments OutOfFuel {A}.

Definition bind {A B : Type} (m : outcome A) (k : A -> outcome B) : outcome B :=
  match m with
  | Returned a => k a
  | Threw e => Threw e
  | OutOfFuel => OutOfFuel
  end.

Notation "x <- m ;; k" := (bind m (fun x => k))
  (at level 61, m at next level, right associativity).

(** What an awaited call to a collaborator gives. *)
Inductive promise (A : Type) : Type :=
| Resolved (a : A)
| Rejected (e : js_error).

Arguments Resolved {A} a.
Arguments Rejected {A} e.

Definition await {A : Type} (p : promise A) : outcome A :=
  match p with
  | Resolved a => Returned a
  | Rejected e => Threw e
  end.

(** ** The JavaScript built-ins the code calls *)

Module JS.

Local Open Scope string_scope.

(** [arr[arr.length - 1]]: [None] is [undefined]. *)
Definition last_opt {A : Type} (l : list A) : option A :=
  match rev l with
  | [] => None
  | x :: _ => Some x
  end.

(** [arr[arr.length - 1] = x] on a non-empty array. *)
Definition set_last {A : Type} (l : list A) (x : A) : list A :=
  removelast l ++ [x].

(** White space of [String.prototype.trim] among the code units below 256:
    TAB, LF, VT, FF, CR, SPACE and NO-BREAK SPACE. *)
Definition is_ws (c : ascii) : bool :=
  let n := nat_of_ascii c in
  ((9 <=? n)%nat && (n <=? 13)%nat) || (n =? 32)%nat || (n =? 160)%nat.

Fixpoint trimStart (s : string) : string :=
  match s with
  | EmptyString => EmptyString
  | String c s' => if is_ws c then trimStart s' else s
  end.

Fixpoint trimEnd (s : string) : string :=
  match s with
  | EmptyString => EmptyString
  | String c s' =>
      match trimEnd s' with
      | EmptyString => if is_ws c then EmptyString else String c EmptyString
      | t => String c t
      end
  end.

Definition trim (s : string) : string := trimEnd (trimStart s).

(** A string used as a condition: the empty string is falsy. *)
Definition truthy (s : string) : bool :=
  match s with
  | EmptyString => false
  | String _ _ => true
  end.

Definition len (s : string) : Z := Z.of_nat (String.length s).

(** [s.substring(a, b)]: both ends are clamped to [0, s.length] and swapped
    when [a > b]. *)
Definition clamp (n i : Z) : Z := Z.min (Z.max i 0) n.

Definition substring (s : string) (a b : Z) : string :=
  let a' := clamp (len s) a in
  let b' := clamp (len s) b in
  let from := Z.min a' b' in
  let to := Z.max a' b' in
  String.substring (Z.to_nat from) (Z.to_nat (to - from)) s.

(** [`${n}`] for an integer [n]: decimal digits, with a leading minus sign. *)
Definition string_of_Z (n : Z) : string := NilZero.string_of_int (Z.to_int n).

(** [s.includes(t)]. *)
Fixpoint includes (s t : string) : bool :=
  String.prefix t s
  || match s with
     | EmptyString => false
     | String _ s' => includes s' t
     end.

Definition nl : string := String "010"%char EmptyString.
Definition dquote : string := String "034"%char EmptyString.

Lemma last_opt_snoc {A : Type} (l : list A) (x : A) : last_opt (l ++ [x]) = Some x.
Proof. unfold last_opt. now rewrite rev_unit. Qed.

Lemma set_last_snoc {A : Type} (l : list A) (w x : A) : set_last (l ++ [w]) x = (l ++ [x])%list.
Proof. unfold set_last. now rewrite removelast_last. Qed.

Lemma substring_nonpos (s : string) (a b : Z) :
  (a <= 0)%Z -> (b <= 0)%Z -> substring s a b = "".
Proof.
  intros Ha Hb. unfold substring, clamp, len.
  replace (Z.max a 0) with 0%Z by lia.
  replace (Z.max b 0) with 0%Z by lia.
  rewrite !Z.min_l by lia.
  rewrite Z.max_id. simpl. now destruct s.
Qed.

(** The decimal rendering holds no [#] and is injective. *)
Fixpoint no_hash (s : string) : bool :=
  match s with
  | EmptyString => true
  | String c s' => negb (Ascii.eqb c "#") && no_hash s'
  end.

Lemma no_hash_uint (d : Decimal.uint) : no_hash (NilEmpty.string_of_uint d) = true.
Proof. induction d; simpl; auto. Qed.

Lemma no_hash_string_of_Z (n : Z) : no_hash (string_of_Z n) = true.
Proof.
  unfold string_of_Z, NilZero.string_of_int, NilZero.string_of_uint.
  destruct (Z.to_int n) as [d | d]; destruct d; simpl; auto using no_hash_uint.
Qed.

Lemma to_int_not_nil (n : Z) :
  Z.to_int n <> Decimal.Pos Decimal.Nil /\ Z.to_int n <> Decimal.Neg Decimal.Nil.
Proof.
  destruct n as [|p|p]; simpl; split; try discriminate;
    intros [= H]; now apply (DecimalPos.Unsigned.to_uint_nonnil p).
Qed.

Lemma string_of_Z_inj (n m : Z) : string_of_Z n = string_of_Z m -> n = m.
Proof.
  unfold string_of_Z. intros H.
  apply DecimalZ.to_int_inj.
  destruct (to_int_not_nil n) as [Hn1 Hn2], (to_int_not_nil m) as [Hm1 Hm2].
  apply (f_equal NilZero.int_of_string) in H.
  rewrite !NilZero.isi in H by assumption.
  now injection H.
Qed.

Lemma no_hash_after_hash (s t : string) : no_hash (s ++ "#" ++ t) = false.
Proof.
  induction s as [|c s IH]; simpl in *; [reflexivity | now rewrite IH, andb_false_r].
Qed.

(** A text, [#] and a text without [#]: the split is determined. *)
Lemma append_hash_inj (f1 f2 d1 d2 : string) :
  no_hash d1 = true -> no_hash d2 = true ->
  f1 ++ "#" ++ d1 = f2 ++ "#" ++ d2 -> f1 = f2 /\ d1 = d2.
Proof.
  intros H1 H2. revert f2.
  induction f1 as [|c f1 IH]; intros [|c' f2]; simpl; intros E.
  - injection E as E. now split.
  - injection E as E1 E2. subst.
    change (no_hash (f2 ++ "#" ++ d2) = true) in H1.
    rewrite no_hash_after_hash in H1. discriminate.
  - injection E as E1 E2. subst.
    change (no_hash (f1 ++ "#" ++ d1) = true) in H2.
    rewrite no_hash_after_hash in H2. discriminate.
  - injection E as E1 E2. subst. destruct (IH f2 E2) as [-> ->]. now split.
Qed.

Lemma append_empty_r (s : string) : s ++ "" = s.
Proof. induction s as [|c s IH]; simpl; [reflexivity | now rewrite IH]. Qed.

Lemma append_assoc (s t u : string) : (s ++ t) ++ u = s ++ t ++ u.
Proof. induction s as [|c s IH]; simpl; [reflexivity | now rewrite IH]. Qed.

Lemma length_append (s t : string) :
  String.length (s ++ t) = (String.length s + String.length t)%nat.
Proof. induction s as [|c s IH]; simpl; [reflexivity | now rewrite IH]. Qed.

End JS.

(** ** Facts about [trim] and [substring] *)

Module JSFacts.

Import JS.
Local Open Scope string_scope.

(** The string is empty or begins with a character that is not white space. *)
Definition head_kept (s : string) : Prop :=
  match s with
  | EmptyString => True
  | String c _ => is_ws c = false
  end.

Lemma trimStart_head (s : string) : head_kept (trimStart s).
Proof.
  induction s as [|c s IH]; simpl; [exact I|].
  destruct (is_ws c) eqn:E; [exact IH | exact E].
Qed.

Lemma trimStart_kept (s : string) : head_kept s -> trimStart s = s.
Proof. destruct s as [|c s]; simpl; [reflexivity | now intros ->]. Qed.

Lemma trimEnd_head (s : string) : head_kept s -> head_kept (trimEnd s).
Proof.
  destruct s as [|c s]; simpl; [trivial|]. intros Hc.
  destruct (trimEnd s); [now rewrite Hc | exact Hc].
Qed.

Lemma trimEnd_idempotent (s : string) : trimEnd (trimEnd s) = trimEnd s.
Proof.
  induction s as [|c s IH]; simpl; [reflexivity|].
  destruct (trimEnd s) as [|d t] eqn:E.
  - destruct (is_ws c) eqn:Ec; simpl; [reflexivity | now rewrite Ec].
  - simpl in *. now rewrite IH.
Qed.

Lemma trim_head (s : string) : head_kept (trim s).
Proof. apply trimEnd_head, trimStart_head. Qed.

Lemma trim_idempotent (s : string) : trim (trim s) = trim s.
Proof.
  unfold trim. rewrite (trimStart_kept (trimEnd (trimStart s))).
  - apply trimEnd_idempotent.
  - apply trimEnd_head, trimStart_head.
Qed.

Lemma length_trimStart (s : string) : (String.length (trimStart s) <= String.length s)%nat.
Proof.
  induction s as [|c s IH]; simpl; [lia|]. destruct (is_ws c); simpl; lia.
Qed.

Lemma length_trimEnd (s : string) : (String.length (trimEnd s) <= String.length s)%nat.
Proof.
  induction s as [|c s IH]; simpl; [lia|].
  destruct (trimEnd s); [destruct (is_ws c)|]; simpl in *; lia.
Qed.

Lemma len_trim (s : string) : (len (trim s) <= len s)%Z.
Proof.
  unfold len, trim.
  pose proof (length_trimEnd (trimStart s)). pose proof (length_trimStart s). lia.
Qed.

(** A string that begins with a kept character does not trim to nothing. *)
Lemma trim_kept_nonempty (c : ascii) (s : string) :
  is_ws c = false -> truthy (trim (String c s)) = true.
Proof.
  intros Hc. unfold trim. simpl. rewrite Hc. simpl.
  destruct (trimEnd s); [now rewrite Hc | reflexivity].
Qed.

Lemma length_String_substring (n m : nat) (s : string) :
  (String.length (String.substring n m s) <= m)%nat.
Proof.
  revert n m. induction s as [|c s IH]; intros [|n] [|m]; simpl; try lia.
  - specialize (IH 0%nat m). lia.
  - apply (IH n 0%nat).
  - apply (IH n (S m)).
Qed.

Lemma len_substring (s : string) (a b : Z) :
  (0 <= a <= b)%Z -> (len (substring s a b) <= b - a)%Z.
Proof.
  intros Hab. unfold substring, clamp.
  set (n := len s).
  assert (Hn : (0 <= n)%Z) by (unfold n, len; lia).
  pose proof (length_String_substring
                (Z.to_nat (Z.min (Z.min (Z.max a 0) n) (Z.min (Z.max b 0) n)))
                (Z.to_nat (Z.max (Z.min (Z.max a 0) n) (Z.min (Z.max b 0) n)
                           - Z.min (Z.min (Z.max a 0) n) (Z.min (Z.max b 0) n)))
                s) as H.
  unfold len at 1. lia.
Qed.

(** A window of at most [size] characters. *)
Lemma len_substring_window (s : string) (a size : Z) :
  (0 <= a)%Z -> (0 <= size)%Z ->
  (len (substring s a (Z.min (a + size) (len s))) <= size)%Z.
Proof.
  intros Ha Hsize. unfold substring, clamp.
  set (n := len s).
  assert (Hn : (0 <= n)%Z) by (unfold n, len; lia).
  pose proof (length_String_substring
                (Z.to_nat (Z.min (Z.min (Z.max a 0) n)
                                 (Z.min (Z.max (Z.min (a + size) n) 0) n)))
                (Z.to_nat (Z.max (Z.min (Z.max a 0) n)
                                 (Z.min (Z.max (Z.min (a + size) n) 0) n)
                           - Z.min (Z.min (Z.max a 0) n)
                                   (Z.min (Z.max (Z.min (a + size) n) 0) n)))
                s) as H.
  unfold len at 1. lia.
Qed.

(** An end beyond the string is the end of the string. *)
Lemma substring_min_len (s : string) (a b : Z) :
  substring s a (Z.min b (len s)) = substring s a b.
Proof.
  unfold substring, clamp.
  assert (Hn : (0 <= len s)%Z) by (unfold len; lia).
  replace (Z.min (Z.max (Z.min b (len s)) 0) (len s))
    with (Z.min (Z.max b 0) (len s)) by lia.
  reflexivity.
Qed.

Lemma substring_empty (a b : Z) : substring "" a b = "".
Proof.
  unfold substring.
  destruct (Z.to_nat _), (Z.to_nat _); reflexivity.
Qed.

(** The window that starts at 0 and has at least one character keeps the
    first character. *)
Lemma substring_head (c : ascii) (s : string) (b : Z) :
  (1 <= b)%Z ->
  exists t, substring (String c s) 0 b = String c t.
Proof.
  intros Hb. unfold substring, clamp.
  set (n := len (String c s)).
  assert (Hn : (1 <= n)%Z) by (unfold n, len; simpl; lia).
  replace (Z.min (Z.min (Z.max 0 0) n) (Z.min (Z.max b 0) n)) with 0%Z by lia.
  replace (Z.max (Z.min (Z.max 0 0) n) (Z.min (Z.max b 0) n) - 0)%Z
    with (Z.min b n) by lia.
  destruct (Z.to_nat (Z.min b n)) as [|m] eqn:E; [lia|].
  simpl. eauto.
Qed.

End JSFacts.

(** ** [@/lib/chunk]: [chunkText] *)

Module Chunk.

Import JS.
Local Open Scope string_scope.
Local Open Scope list_scope.
Local Open Scope Z_scope.

Record TextChunk : Type := mkTextChunk {
  index : Z;
  text : string;
  tokenCount : Z
}.

(** The variables of the [while] loop. *)
Record loop_state : Type := mkState {
  startIndex : Z;
  chunks : list TextChunk;
  chunkIndex : Z
}.

Inductive step : Type :=
| Break (chunks : list TextChunk)
| Continue (st : loop_state).

(** [startIndex <= chunks[chunks.length - 1]?.index]: a comparison with
    [undefined] is false. *)
Definition le_last_index (startIndex : Z) (chunks : list TextChunk) : bool :=
  match last_opt chunks with
  | Some c => startIndex <=? index c
  | None => false
  end.

(** One pass through the body of the [while] loop. *)
Definition loop_body (text : string) (chunkSize overlap : Z) (st : loop_state) : step :=
  let endIndex := Z.min (startIndex st + chunkSize) (len text) in
  let chunkText := trim (substring text (startIndex st) endIndex) in
  let pushed := truthy chunkText in
  let chunks' :=
    if pushed
    then chunks st ++ [mkTextChunk (chunkIndex st) chunkText (len chunkText)]
    else chunks st in
  let chunkIndex' := if pushed then chunkIndex st + 1 else chunkIndex st in
  if endIndex =? len text then Break chunks'
  else
    let startIndex' := endIndex - overlap in
    let startIndex'' :=
      if le_last_index startIndex' chunks' || (startIndex' <? 0)
      then endIndex
      else startIndex' in
    Continue (mkState startIndex'' chunks' chunkIndex').

Fixpoint while_loop (fuel : nat) (text : string) (chunkSize overlap : Z)
  (st : loop_state) : outcome (list TextChunk) :=
  match fuel with
  | O => OutOfFuel
  | S fuel' =>
      if startIndex st <? len text then
        match loop_body text chunkSize overlap st with
        | Break cs => Returned cs
        | Continue st' => while_loop fuel' text chunkSize overlap st'
        end
      else Returned (chunks st)
  end.

Definition chunkText (fuel : nat) (input : string) (chunkSize overlap : Z)
  : outcome (list TextChunk) :=
  let text := trim input in
  if negb (truthy text) then Returned []
  else while_loop fuel text chunkSize overlap (mkState 0 [] 0).

(** The text of the degenerate-overlap regression: one letter, ten spaces,
    one letter. *)
Definition gap_text : string := "a          b".

(** *** Lemmas *)

(** The loop never throws: there is no [throw] and no property read of
    [undefined] in it. *)
Lemma while_loop_never_throws (fuel : nat) (text : string) (chunkSize overlap : Z)
  (st : loop_state) (e : js_error) :
  while_loop fuel text chunkSize overlap st <> Threw e.
Proof.
  revert st. induction fuel as [|fuel IH]; intros st; simpl.
  - discriminate.
  - destruct (startIndex st <? len text); [|discriminate].
    destruct (loop_body text chunkSize overlap st); [discriminate | apply IH].
Qed.

(** A state the body maps to itself is never left. *)
Lemma while_loop_fixed_state (text : string) (chunkSize overlap : Z) (st : loop_state) :
  (startIndex st <? len text) = true ->
  loop_body text chunkSize overlap st = Continue st ->
  forall fuel, while_loop fuel text chunkSize overlap st = OutOfFuel.
Proof.
  intros Hlt Hfix fuel. induction fuel as [|fuel IH]; simpl.
  - reflexivity.
  - now rewrite Hlt, Hfix.
Qed.

(** With a non-positive size no window ever holds a character: the start
    stays at or below zero and nothing is pushed. *)
Lemma while_loop_nonpositive_size (text : string) (chunkSize overlap : Z) :
  chunkSize <= 0 -> 0 <= overlap -> 0 < len text ->
  forall fuel s, s <= 0 ->
    while_loop fuel text chunkSize overlap (mkState s [] 0) = OutOfFuel.
Proof.
  intros Hsize Hov Hlen fuel. induction fuel as [|fuel IH]; intros s Hs; simpl.
  - reflexivity.
  - replace (s <? len text) with true by (symmetry; apply Z.ltb_lt; lia).
    unfold loop_body; simpl.
    rewrite (Z.min_l (s + chunkSize) (len text)) by lia.
    rewrite substring_nonpos by lia. simpl.
    replace (s + chunkSize =? len text) with false by (symmetry; apply Z.eqb_neq; lia).
    unfold le_last_index; simpl.
    destruct (s + chunkSize - overlap <? 0) eqn:E; apply IH.
    + lia.
    + apply Z.ltb_ge in E. lia.
Qed.

Lemma truthy_len (s : string) : truthy s = true -> 0 < len s.
Proof. destruct s; simpl; [discriminate | unfold len; simpl; lia]. Qed.

Lemma chunkText_nonpositive_size_diverges (fuel : nat) (input : string)
  (chunkSize overlap : Z) :
  chunkSize <= 0 -> 0 <= overlap -> trim input <> "" ->
  chunkText fuel input chunkSize overlap = OutOfFuel.
Proof.
  intros Hsize Hov Hne. unfold chunkText.
  destruct (truthy (trim input)) eqn:E; simpl.
  - apply while_loop_nonpositive_size; auto using truthy_len. lia.
  - destruct (trim input); [contradiction | discriminate].
Qed.

(** *** The regular regime: [0 <= overlap < chunkSize] *)

(** What holds of the chunks at every point of the loop: the indices are
    0, 1, 2, ... and no text is empty. *)
Definition well_numbered (cs : list TextChunk) : Prop :=
  map index cs = map Z.of_nat (seq 0 (List.length cs))
  /\ Forall (fun c => truthy (text c) = true /\ tokenCount c = len (text c)) cs.

Definition coherent (st : loop_state) : Prop :=
  0 <= startIndex st
  /\ chunkIndex st = Z.of_nat (List.length (chunks st))
  /\ well_numbered (chunks st).

Lemma well_numbered_push (cs : list TextChunk) (t : string) :
  well_numbered cs -> truthy t = true ->
  well_numbered (cs ++ [mkTextChunk (Z.of_nat (List.length cs)) t (len t)]).
Proof.
  intros [Hidx Hall] Ht. split.
  - rewrite map_app, length_app, Hidx. simpl.
    rewrite Nat.add_1_r, seq_S, map_app. reflexivity.
  - apply Forall_app. split; [exact Hall|].
    constructor; [now split | constructor].
Qed.

(** With [0 <= overlap < chunkSize] one pass either leaves the loop or moves
    the start forward. *)
Lemma loop_body_advances (text : string) (chunkSize overlap : Z) (st : loop_state) :
  0 <= overlap < chunkSize -> coherent st -> startIndex st < len text ->
  match loop_body text chunkSize overlap st with
  | Break cs => well_numbered cs
  | Continue st' => coherent st' /\ startIndex st < startIndex st' <= len text
  end.
Proof.
  intros Hov (Hstart & Hidx & Hwn) Hlt. unfold loop_body.
  set (endIndex := Z.min (startIndex st + chunkSize) (len text)).
  set (t := trim (substring text (startIndex st) endIndex)).
  assert (Hchunks : well_numbered
            (if truthy t
             then chunks st ++ [mkTextChunk (chunkIndex st) t (len t)]
             else chunks st)).
  { destruct (truthy t) eqn:Et; [|exact Hwn].
    rewrite Hidx. now apply well_numbered_push. }
  assert (Hcount : (if truthy t then chunkIndex st + 1 else chunkIndex st)
                   = Z.of_nat (List.length
                       (if truthy t
                        then chunks st ++ [mkTextChunk (chunkIndex st) t (len t)]
                        else chunks st))).
  { destruct (truthy t); [|exact Hidx].
    rewrite length_app. simpl. lia. }
  destruct (endIndex =? len text) eqn:Eend; [exact Hchunks|].
  apply Z.eqb_neq in Eend.
  assert (Hend : endIndex = startIndex st + chunkSize) by (unfold endIndex in *; lia).
  split.
  - repeat split; cbn [startIndex chunks chunkIndex]; try assumption; try apply Hchunks.
    destruct (_ || _); lia.
  - cbn [startIndex]. unfold endIndex in *. destruct (_ || _); lia.
Qed.

(** In the regular regime the loop ends within [text.length] passes. *)
Lemma while_loop_terminates (text : string) (chunkSize overlap : Z) :
  0 <= overlap < chunkSize ->
  forall fuel st,
    coherent st -> startIndex st <= len text ->
    len text - startIndex st < Z.of_nat fuel ->
    exists cs, while_loop fuel text chunkSize overlap st = Returned cs
               /\ well_numbered cs.
Proof.
  intros Hov fuel. induction fuel as [|fuel IH]; intros st Hst Hle Hfuel.
  - lia.
  - cbn [while_loop]. destruct (startIndex st <? len text) eqn:Elt.
    + apply Z.ltb_lt in Elt.
      pose proof (loop_body_advances text Hov Hst Elt) as Hstep.
      destruct (loop_body text chunkSize overlap st) as [cs | st'].
      * now exists cs.
      * destruct Hstep as [Hst' Hadv]. apply IH; [exact Hst' | lia | lia].
    + exists (chunks st). split; [reflexivity | apply Hst].
Qed.

(** X1. For [0 <= overlap < chunkSize], [text.length + 1] passes are enough
    for every text: chunkText returns, its chunks are numbered 0, 1, 2, ...
    and none of them is empty. *)
Theorem chunkText_terminates (input : string) (chunkSize overlap : Z) :
  0 <= overlap < chunkSize ->
  exists cs,
    chunkText (S (String.length (trim input))) input chunkSize overlap = Returned cs
    /\ well_numbered cs.
Proof.
  intros Hov. unfold chunkText.
  destruct (negb (truthy (trim input))).
  - exists []. split; [reflexivity|]. split; [reflexivity | constructor].
  - apply while_loop_terminates; [exact Hov | | |].
    + repeat split; simpl; try lia; constructor.
    + unfold len. simpl startIndex. lia.
    + unfold len. simpl startIndex. lia.
Qed.

Lemma chunkText_terminates_witness :
  exists cs,
    chunkText (S (String.length (trim "abcdefghij"))) "abcdefghij" 4 1 = Returned cs
    /\ well_numbered cs.
Proof.
  apply (@chunkText_terminates "abcdefghij" 4 1). lia.
Defined.

(** A run at the defaults' proportions: size 4, overlap 1, on ten letters. *)
Example chunkText_small :
  chunkText 10 "abcdefghij" 4 1 =
  Returned [mkTextChunk 0 "abcd" 4; mkTextChunk 1 "defg" 4; mkTextChunk 2 "ghij" 4].
Proof. reflexivity. Qed.

(** The call of the ingestion code, [chunkText(pdfText, 1500, 200)], on a text
    of 3000 characters: three chunks, starting at 0, 1300 and 2600. *)
Example chunkText_3000 :
  match chunkText 10 (String.concat "" (repeat "abcdefghij" 300)) 1500 200 with
  | Returned cs => map (fun c => (index c, tokenCount c, substring (text c) 0 1)) cs
  | _ => []
  end
  = [(0, 1500, "a"); (1, 1500, "a"); (2, 400, "a")].
Proof. vm_compute. reflexivity. Qed.

(** With [overlap = chunkSize] and no white space the loop does end, but not
    by moving forward: the window [fghij] is emitted until the chunk index
    has caught up with the start. *)
Example chunkText_overlap_repeats_window :
  chunkText 50 "abcdefghijkl" 5 5 =
  Returned [mkTextChunk 0 "abcde" 5; mkTextChunk 1 "fghij" 5; mkTextChunk 2 "fghij" 5;
            mkTextChunk 3 "fghij" 5; mkTextChunk 4 "fghij" 5; mkTextChunk 5 "fghij" 5;
            mkTextChunk 6 "kl" 2].
Proof. reflexivity. Qed.

(** After the first window of [gap_text] the loop stands on a window of
    spaces: nothing is pushed, the last chunk's index stays 0, and the guard
    [startIndex <= chunks[chunks.length - 1]?.index] compares the start 5
    with that index, not with the previous start. *)
Definition gap_state : loop_state := mkState 5 [mkTextChunk 0 "a" 1] 1.

Lemma gap_first_step : loop_body gap_text 5 5 (mkState 0 [] 0) = Continue gap_state.
Proof. reflexivity. Qed.

Lemma gap_state_fixed : loop_body gap_text 5 5 gap_state = Continue gap_state.
Proof. reflexivity. Qed.

(** C1 (the code departs from it). The claim: for every text with a non-empty
    trimmed form, every size > 0 and every overlap >= 0, also overlap >= size,
    chunkText terminates and advances on every iteration. On the text
    [gap_text] with size 5 and overlap 5 the loop of the code never ends: no
    amount of fuel makes [chunkText] return. *)
Theorem chunkText_degenerate_overlap_never_returns :
  forall fuel : nat, chunkText fuel gap_text 5 5 = OutOfFuel.
Proof.
  intros [|fuel]; [reflexivity|].
  change (chunkText (S fuel) gap_text 5 5)
    with (while_loop (S fuel) gap_text 5 5 (mkState 0 [] 0)).
  cbn [while_loop].
  change (startIndex (mkState 0 [] 0) <? len gap_text) with true.
  cbv iota. rewrite gap_first_step.
  apply while_loop_fixed_state; reflexivity.
Qed.

(** C9, as the claim states it, fails at size 0: the call on the text "a" with
    size 0 and overlap 200 is not rejected, it spins. *)
Lemma chunkText_size_zero_not_rejected :
  (forall fuel, chunkText fuel "a" 0 200 = OutOfFuel)
  /\ ~ (exists fuel e, chunkText fuel "a" 0 200 = Threw e).
Proof.
  assert (H : forall fuel, chunkText fuel "a" 0 200 = OutOfFuel).
  { intros fuel. apply chunkText_nonpositive_size_diverges; [lia | lia | discriminate]. }
  split; [exact H|].
  intros (fuel & e & He). rewrite H in He. discriminate.
Qed.

(** C9 (amended). chunkText performs no input validation: whatever the text,
    the size and the overlap, the call never fails with an error, so a
    non-positive size is not rejected as a validation failure, and there is
    no failure by error at all. *)
Theorem chunkText_no_validation (fuel : nat) (input : string) (chunkSize overlap : Z)
  (e : js_error) :
  chunkText fuel input chunkSize overlap <> Threw e.
Proof.
  unfold chunkText.
  destruct (negb (truthy (trim input))); [discriminate|].
  apply while_loop_never_throws.
Qed.

(** *** The regular regime: which windows are cut *)

(** The [k]-th window of the regular regime, trimmed: it starts at
    [k * (chunkSize - overlap)]. *)
Definition window (txt : string) (chunkSize overlap : Z) (k : nat) : string :=
  let start := Z.of_nat k * (chunkSize - overlap) in
  trim (substring txt start (Z.min (start + chunkSize) (len txt))).

(** The trimmed windows 0 .. n-1 that are not empty. *)
Definition kept_windows (txt : string) (chunkSize overlap : Z) (n : nat) : list string :=
  filter truthy (map (window txt chunkSize overlap) (seq 0 n)).

(** The number of windows needed to reach the end of the text. *)
Definition passes (txt : string) (chunkSize overlap : Z) : nat :=
  S (Z.to_nat ((Z.max 0 (len txt - chunkSize) + (chunkSize - overlap) - 1)
               / (chunkSize - overlap))).

(** The loop stands at the start of window [k] and has pushed the kept
    windows before it. *)
Definition at_window (txt : string) (chunkSize overlap : Z) (k : nat)
  (st : loop_state) : Prop :=
  startIndex st = Z.of_nat k * (chunkSize - overlap)
  /\ chunkIndex st = Z.of_nat (List.length (chunks st))
  /\ well_numbered (chunks st)
  /\ map text (chunks st) = kept_windows txt chunkSize overlap k.

Lemma kept_windows_S (txt : string) (chunkSize overlap : Z) (k : nat) :
  kept_windows txt chunkSize overlap (S k)
  = kept_windows txt chunkSize overlap k
    ++ (if truthy (window txt chunkSize overlap k)
        then [window txt chunkSize overlap k] else []).
Proof.
  unfold kept_windows. rewrite seq_S, map_app, filter_app. reflexivity.
Qed.

Lemma kept_windows_first (txt : string) (chunkSize overlap : Z) (n : nat) :
  truthy (window txt chunkSize overlap 0) = true ->
  kept_windows txt chunkSize overlap (S n)
  = window txt chunkSize overlap 0
    :: filter truthy (map (window txt chunkSize overlap) (seq 1 n)).
Proof.
  intros H. unfold kept_windows. cbn [seq map filter]. now rewrite H.
Qed.

Lemma length_kept_windows (txt : string) (chunkSize overlap : Z) (k : nat) :
  (List.length (kept_windows txt chunkSize overlap k) <= k)%nat.
Proof.
  unfold kept_windows.
  etransitivity; [apply filter_length_le|].
  now rewrite length_map, length_seq.
Qed.

(** In a well-numbered list the last index is the length less one, so the
    guard [startIndex <= chunks[chunks.length - 1]?.index] bounds the start
    by it. *)
Lemma le_last_index_bound (s : Z) (cs : list TextChunk) :
  well_numbered cs -> le_last_index s cs = true ->
  s <= Z.of_nat (List.length cs) - 1.
Proof.
  intros [Hidx _]. unfold le_last_index.
  destruct cs as [|c0 cs0]; [discriminate|].
  destruct (@exists_last _ (c0 :: cs0)) as (cs' & c & E); [discriminate|].
  revert Hidx. rewrite E. clear E. intros Hidx.
  - rewrite last_opt_snoc. intros Hle. apply Z.leb_le in Hle.
    rewrite map_app, length_app in Hidx. simpl in Hidx.
    rewrite Nat.add_1_r, seq_S, map_app in Hidx. simpl in Hidx.
    apply app_inj_tail in Hidx. destruct Hidx as [_ Hc].
    rewrite length_app. simpl. lia.
Qed.

(** One pass from the start of window [k]: the window is pushed when it is
    not empty, and the guard for large overlaps does not fire. *)
Lemma loop_body_window (txt : string) (chunkSize overlap : Z) (k : nat)
  (st : loop_state) :
  0 <= overlap < chunkSize -> at_window txt chunkSize overlap k st ->
  match loop_body txt chunkSize overlap st with
  | Break cs =>
      len txt <= startIndex st + chunkSize
      /\ well_numbered cs
      /\ map text cs = kept_windows txt chunkSize overlap (S k)
  | Continue st' =>
      startIndex st + chunkSize < len txt
      /\ at_window txt chunkSize overlap (S k) st'
  end.
Proof.
  intros Hov (Hstart & Hidx & Hwn & Htexts). unfold loop_body.
  assert (Hw : trim (substring txt (startIndex st)
                       (Z.min (startIndex st + chunkSize) (len txt)))
               = window txt chunkSize overlap k).
  { unfold window. now rewrite Hstart. }
  rewrite Hw. set (w := window txt chunkSize overlap k).
  set (cs' := if truthy w
              then chunks st ++ [mkTextChunk (chunkIndex st) w (len w)]
              else chunks st).
  assert (Hwn' : well_numbered cs').
  { unfold cs'. destruct (truthy w) eqn:Ew; [|exact Hwn].
    rewrite Hidx. now apply well_numbered_push. }
  assert (Htexts' : map text cs' = kept_windows txt chunkSize overlap (S k)).
  { rewrite kept_windows_S. fold w. unfold cs'. destruct (truthy w).
    - rewrite map_app, Htexts. reflexivity.
    - now rewrite List.app_nil_r. }
  assert (Hcount : (if truthy w then chunkIndex st + 1 else chunkIndex st)
                   = Z.of_nat (List.length cs')).
  { unfold cs'. destruct (truthy w); [|exact Hidx].
    rewrite length_app. simpl. lia. }
  destruct (Z.min (startIndex st + chunkSize) (len txt) =? len txt) eqn:Eend.
  - apply Z.eqb_eq in Eend. repeat split; try assumption; try apply Hwn'. lia.
  - apply Z.eqb_neq in Eend.
    assert (Hend : Z.min (startIndex st + chunkSize) (len txt)
                   = startIndex st + chunkSize) by lia.
    split; [lia|].
    assert (Hguard : le_last_index (Z.min (startIndex st + chunkSize) (len txt) - overlap) cs'
                     || (Z.min (startIndex st + chunkSize) (len txt) - overlap <? 0)
                     = false).
    { apply Bool.orb_false_iff. split.
      - destruct (le_last_index _ cs') eqn:E; [|reflexivity].
        apply (@le_last_index_bound _ cs' Hwn') in E.
        pose proof (length_kept_windows txt chunkSize overlap (S k)) as Hlen.
        rewrite <- Htexts', length_map in Hlen. nia.
      - apply Z.ltb_ge. nia. }
    rewrite Hguard.
    repeat split; cbn [startIndex chunks chunkIndex]; try assumption; try apply Hwn'.
    lia.
Qed.

(** From the start of window [k] the loop runs to the first window [n] that
    reaches the end of the text. *)
Lemma while_loop_windows (txt : string) (chunkSize overlap : Z) :
  0 <= overlap < chunkSize ->
  forall fuel k st,
    at_window txt chunkSize overlap k st ->
    startIndex st < len txt ->
    len txt - startIndex st < Z.of_nat fuel ->
    exists n cs,
      (k <= n)%nat
      /\ len txt <= Z.of_nat n * (chunkSize - overlap) + chunkSize
      /\ (forall j, (k <= j < n)%nat ->
            Z.of_nat j * (chunkSize - overlap) + chunkSize < len txt)
      /\ while_loop fuel txt chunkSize overlap st = Returned cs
      /\ well_numbered cs
      /\ map text cs = kept_windows txt chunkSize overlap (S n).
Proof.
  intros Hov fuel. induction fuel as [|fuel IH]; intros k st Hst Hlt Hfuel.
  - lia.
  - cbn [while_loop].
    replace (startIndex st <? len txt) with true by (symmetry; now apply Z.ltb_lt).
    pose proof (loop_body_window Hov Hst) as Hstep.
    pose proof Hst as (Hstart & _).
    destruct (loop_body txt chunkSize overlap st) as [cs | st'].
    + destruct Hstep as (Hend & Hwn & Htexts).
      exists k, cs. repeat split; try assumption; try apply Hwn; try lia.
    + destruct Hstep as (Hend & Hst').
      pose proof Hst' as (Hstart' & _).
      destruct (IH (S k) st' Hst') as (n & cs & Hkn & Hn & Hbefore & Hrun & Hwn & Htexts).
      * lia.
      * lia.
      * exists n, cs. repeat split; try assumption; try apply Hwn; try lia.
        intros j Hj. destruct (Nat.eq_dec j k) as [-> | Hne].
        -- lia.
        -- apply Hbefore. lia.
Qed.

(** The first window that reaches the end is the one [passes] counts. *)
Lemma passes_unique (txt : string) (chunkSize overlap : Z) (n : nat) :
  0 <= overlap < chunkSize ->
  len txt <= Z.of_nat n * (chunkSize - overlap) + chunkSize ->
  (forall j, (j < n)%nat -> Z.of_nat j * (chunkSize - overlap) + chunkSize < len txt) ->
  passes txt chunkSize overlap = S n.
Proof.
  intros Hov Hn Hbefore. unfold passes. f_equal.
  assert (H : (Z.max 0 (len txt - chunkSize) + (chunkSize - overlap) - 1)
              / (chunkSize - overlap) = Z.of_nat n).
  { symmetry. destruct n as [|m].
    - apply Z.div_unique with (r := chunkSize - overlap - 1); lia.
    - specialize (Hbefore m (Nat.lt_succ_diag_r m)).
      apply Z.div_unique
        with (r := len txt - chunkSize - 1 - Z.of_nat m * (chunkSize - overlap)); nia. }
  rewrite H. apply Nat2Z.id.
Qed.

Lemma initial_at_window (txt : string) (chunkSize overlap : Z) :
  at_window txt chunkSize overlap 0 (mkState 0 [] 0).
Proof.
  repeat split; simpl; try reflexivity. constructor.
Qed.

(** The regular regime in one statement, for a text that does not trim to
    nothing. *)
Lemma chunkText_regular (input : string) (chunkSize overlap : Z) :
  0 <= overlap < chunkSize -> truthy (trim input) = true ->
  exists cs,
    chunkText (S (String.length (trim input))) input chunkSize overlap = Returned cs
    /\ well_numbered cs
    /\ map text cs
       = kept_windows (trim input) chunkSize overlap (passes (trim input) chunkSize overlap).
Proof.
  intros Hov Hne. unfold chunkText. rewrite Hne. cbn [negb].
  destruct (@while_loop_windows (trim input) chunkSize overlap Hov
              (S (String.length (trim input))) 0%nat (mkState 0 [] 0))
    as (n & cs & _ & Hn & Hbefore & Hrun & Hwn & Htexts).
  - apply initial_at_window.
  - cbn [startIndex]. now apply truthy_len.
  - cbn [startIndex]. unfold len. lia.
  - exists cs. split; [exact Hrun|]. split; [exact Hwn|].
    rewrite Htexts. f_equal. symmetry. apply passes_unique; try assumption.
    intros j Hj. apply Hbefore. lia.
Qed.

(** X6. For [0 <= overlap < chunkSize] the chunks are exactly the non-empty
    trimmed windows of [chunkSize] characters that start at the multiples of
    [chunkSize - overlap], in order and numbered 0, 1, 2, ..., each with its
    length as token count; the guard for large overlaps never moves a start. *)
Theorem chunkText_cuts_regular_windows (input : string) (chunkSize overlap : Z) :
  0 <= overlap < chunkSize ->
  exists cs,
    chunkText (S (String.length (trim input))) input chunkSize overlap = Returned cs
    /\ map text cs
       = kept_windows (trim input) chunkSize overlap (passes (trim input) chunkSize overlap)
    /\ map index cs = map Z.of_nat (seq 0 (List.length cs))
    /\ map tokenCount cs = map (fun c => len (text c)) cs.
Proof.
  intros Hov. destruct (truthy (trim input)) eqn:Hne.
  - destruct (chunkText_regular input Hov Hne) as (cs & Hrun & [Hidx Hall] & Htexts).
    exists cs. repeat split; try assumption.
    apply map_ext_in. intros c Hc.
    rewrite Forall_forall in Hall. now apply Hall.
  - exists []. unfold chunkText. rewrite Hne. cbn [negb].
    split; [reflexivity|]. split; [|split; reflexivity].
    destruct (trim input); [|discriminate].
    rewrite (@passes_unique "" chunkSize overlap 0); [| exact Hov | unfold len; simpl; lia | lia].
    unfold kept_windows, window. cbn [seq map].
    rewrite JSFacts.substring_empty. reflexivity.
Qed.

Lemma chunkText_cuts_regular_windows_witness :
  exists cs,
    chunkText (S (String.length (trim "abcdefghij"))) "abcdefghij" 4 1 = Returned cs
    /\ map text cs
       = kept_windows (trim "abcdefghij") 4 1 (passes (trim "abcdefghij") 4 1)
    /\ map index cs = map Z.of_nat (seq 0 (List.length cs))
    /\ map tokenCount cs = map (fun c => len (text c)) cs.
Proof.
  apply (@chunkText_cuts_regular_windows "abcdefghij" 4 1). lia.
Defined.

(** The first window of a trimmed, non-empty text is kept: it begins with a
    character that is not white space. *)
Lemma first_window_kept (txt : string) (chunkSize overlap : Z) :
  0 < chunkSize -> JSFacts.head_kept txt -> truthy txt = true ->
  truthy (window txt chunkSize overlap 0) = true.
Proof.
  intros Hsize Hhead Hne. unfold window.
  destruct txt as [|c r]; [discriminate|]. simpl in Hhead.
  change (Z.of_nat 0 * (chunkSize - overlap)) with 0. rewrite Z.add_0_l.
  rewrite JSFacts.substring_min_len.
  destruct (@JSFacts.substring_head c r chunkSize) as [t ->]; [lia|].
  now apply JSFacts.trim_kept_nonempty.
Qed.

Lemma chunkText_regular_first (input : string) (chunkSize overlap : Z) :
  0 <= overlap < chunkSize -> truthy (trim input) = true ->
  exists c rest,
    chunkText (S (String.length (trim input))) input chunkSize overlap
    = Returned (c :: rest)
    /\ index c = 0
    /\ text c = trim (substring (trim input) 0 chunkSize).
Proof.
  intros Hov Hne.
  destruct (chunkText_regular input Hov Hne) as (cs & Hrun & [Hidx Hall] & Htexts).
  unfold passes in Htexts. rewrite kept_windows_first in Htexts.
  - destruct cs as [|c rest]; [discriminate|].
    exists c, rest. split; [exact Hrun|]. simpl in Hidx, Htexts.
    injection Hidx as Hc _. injection Htexts as Ht _.
    split; [exact Hc|]. rewrite Ht. unfold window.
    change (Z.of_nat 0 * (chunkSize - overlap)) with 0. rewrite Z.add_0_l.
    now rewrite JSFacts.substring_min_len.
  - apply first_window_kept; [lia | apply JSFacts.trim_head | exact Hne].
Qed.

(** X7. For [0 <= overlap < chunkSize] every chunk holds between one and
    [chunkSize] characters, its token count is that number, and its text has
    no white space at either end. *)
Theorem chunkText_chunks_fit (input : string) (chunkSize overlap : Z) :
  0 <= overlap < chunkSize ->
  exists cs,
    chunkText (S (String.length (trim input))) input chunkSize overlap = Returned cs
    /\ Forall (fun c => 1 <= tokenCount c <= chunkSize
                        /\ tokenCount c = len (text c)
                        /\ trim (text c) = text c) cs.
Proof.
  intros Hov. destruct (truthy (trim input)) eqn:Hne.
  - destruct (chunkText_regular input Hov Hne) as (cs & Hrun & [Hidx Hall] & Htexts).
    exists cs. split; [exact Hrun|].
    rewrite Forall_forall in *. intros c Hc.
    destruct (Hall c Hc) as [Htruthy Hcount].
    assert (Hin : In (text c) (map text cs)) by now apply in_map.
    rewrite Htexts in Hin. unfold kept_windows in Hin.
    apply filter_In in Hin. destruct Hin as [Hin _].
    apply in_map_iff in Hin. destruct Hin as (k & Hk & _).
    rewrite Hcount, <- Hk. repeat split.
    + rewrite Hk. apply truthy_len in Htruthy. lia.
    + unfold window. etransitivity; [apply JSFacts.len_trim|].
      apply JSFacts.len_substring_window; nia.
    + apply JSFacts.trim_idempotent.
  - exists []. unfold chunkText. rewrite Hne. split; [reflexivity | constructor].
Qed.

Lemma chunkText_chunks_fit_witness :
  exists cs,
    chunkText (S (String.length (trim "  ab cd ef  "))) "  ab cd ef  " 3 1 = Returned cs
    /\ Forall (fun c => 1 <= tokenCount c <= 3
                        /\ tokenCount c = len (text c)
                        /\ trim (text c) = text c) cs.
Proof.
  apply (@chunkText_chunks_fit "  ab cd ef  " 3 1). lia.
Defined.

(** X8. For [0 <= overlap < chunkSize] a text that does not trim to nothing
    gives at least one chunk; the first has index 0 and is the trimmed
    first [chunkSize] characters of the trimmed text. *)
Theorem chunkText_first_chunk (input : string) (chunkSize overlap : Z) :
  0 <= overlap < chunkSize -> trim input <> "" ->
  exists c rest,
    chunkText (S (String.length (trim input))) input chunkSize overlap
    = Returned (c :: rest)
    /\ index c = 0
    /\ text c = trim (substring (trim input) 0 chunkSize).
Proof.
  intros Hov Hne. apply chunkText_regular_first; [exact Hov|].
  destruct (trim input); [contradiction | reflexivity].
Qed.

Lemma chunkText_first_chunk_witness :
  exists c rest,
    chunkText (S (String.length (trim "  ab cd ef  "))) "  ab cd ef  " 3 1
    = Returned (c :: rest)
    /\ index c = 0
    /\ text c = trim (substring (trim "  ab cd ef  ") 0 3).
Proof.
  apply (@chunkText_first_chunk "  ab cd ef  " 3 1); [lia | discriminate].
Defined.

End Chunk.

(** ** [@/lib/similarity]: [cosine] and [rankByCosine] *)

(** [Array.prototype.sort(comparefn)].  ECMAScript requires the sort to be
    stable and, for a consistent comparator, fixes its result: the stable
    permutation in which no element is followed by one that [comparefn]
    orders before it.  For other comparators the order is left to the
    implementation.  The model is the insertion sort: each element, taken in
    array order, moves left past the elements that [comparefn] orders after it
    ([comparefn y x > 0]) and stops at the first that it does not.  It
    computes the permutation ECMAScript fixes for a consistent comparator, and
    for every comparator it leaves alone an array in which no element is
    ordered after its successor, as an engine does that takes such an array
    for one run.  A [NaN] returned by [comparefn] counts as [+0]. *)

Module ArraySort.

Section Sort.

Variable A : Type.
Variable comparefn : A -> A -> float.

(** [y] sorts after [x]. *)
Definition after (y x : A) : bool := (0 <? comparefn y x)%float.

(** The array read from its end: [x] passes the elements that sort after it. *)
Fixpoint slide (x : A) (r : list A) : list A :=
  match r with
  | [] => [x]
  | y :: r' => if after y x then y :: slide x r' else x :: r
  end.

Definition insert (x : A) (l : list A) : list A := rev (slide x (rev l)).

Definition sort (l : list A) : list A :=
  fold_left (fun acc x => insert x acc) l [].

(** The place of [x] found from the front: before the first element that
    sorts after it.  In an ordered array it is the place [insert] finds
    ([insert_place]). *)
Fixpoint place (x : A) (l : list A) : list A :=
  match l with
  | [] => [x]
  | y :: l' => if after y x then x :: l else y :: place x l'
  end.

End Sort.

(** *** Facts that need nothing of the comparator *)

Section Facts.

Variable A : Type.
Variable comparefn : A -> A -> float.

Local Abbreviation after := (after comparefn).
Local Abbreviation slide := (slide comparefn).
Local Abbreviation insert := (insert comparefn).
Local Abbreviation sort := (sort comparefn).
Local Abbreviation place := (place comparefn).

Lemma sort_snoc (l : list A) (x : A) : sort (l ++ [x]) = insert x (sort l).
Proof. unfold ArraySort.sort. now rewrite fold_left_app. Qed.

(** One step of the move to the left. *)
Lemma insert_snoc (x y : A) (l : list A) :
  insert x (l ++ [y]) = if after y x then insert x l ++ [y] else l ++ [y; x].
Proof.
  unfold ArraySort.insert. rewrite rev_unit. cbn [ArraySort.slide].
  destruct (after y x); cbn [rev]; [reflexivity|].
  now rewrite rev_involutive, <- app_assoc.
Qed.

Lemma slide_perm (x : A) (r : list A) : Permutation (slide x r) (x :: r).
Proof.
  induction r as [|y r IH]; simpl.
  - apply Permutation_refl.
  - destruct (after y x).
    + eapply perm_trans; [apply perm_skip, IH | apply perm_swap].
    + apply Permutation_refl.
Qed.

Lemma insert_perm (x : A) (l : list A) : Permutation (insert x l) (x :: l).
Proof.
  unfold ArraySort.insert.
  eapply perm_trans; [apply Permutation_sym, Permutation_rev|].
  eapply perm_trans; [apply slide_perm|].
  apply perm_skip, Permutation_sym, Permutation_rev.
Qed.

Lemma sort_perm (l : list A) : Permutation (sort l) l.
Proof.
  induction l as [|x l IH] using rev_ind.
  - apply Permutation_refl.
  - rewrite sort_snoc.
    eapply perm_trans; [apply insert_perm|].
    eapply perm_trans; [apply perm_skip, IH|].
    apply Permutation_cons_append.
Qed.

Lemma length_insert (x : A) (l : list A) : List.length (insert x l) = S (List.length l).
Proof. exact (Permutation_length (insert_perm x l)). Qed.

Lemma length_sort (l : list A) : List.length (sort l) = List.length l.
Proof. exact (Permutation_length (sort_perm l)). Qed.

(** An element that no element of the array sorts after stays at the end. *)
Lemma insert_stays (x : A) (l : list A) :
  Forall (fun y => after y x = false) l -> insert x l = l ++ [x].
Proof.
  intros H. destruct l as [|y l] using rev_ind; [reflexivity|]. clear IHl.
  apply Forall_app in H as [_ Hy]. apply Forall_inv in Hy.
  now rewrite insert_snoc, Hy, <- app_assoc.
Qed.

(** The scan from the front stops at the latest on an element that sorts
    after [x]. *)
Lemma place_stops (x m : A) (l1 rest : list A) :
  after m x = true ->
  place x (l1 ++ m :: rest) = place x l1 ++ m :: rest.
Proof.
  intros Hm. induction l1 as [|y l1 IH]; simpl.
  - now rewrite Hm.
  - destruct (after y x); [reflexivity | now rewrite IH].
Qed.

(** The scan from the front passes every element that does not sort after
    [x]. *)
Lemma place_passes (x : A) (l1 l2 : list A) :
  Forall (fun y => after y x = false) l1 ->
  place x (l1 ++ l2) = l1 ++ place x l2.
Proof.
  induction 1 as [|y l1 Hy _ IH]; simpl.
  - reflexivity.
  - now rewrite Hy, IH.
Qed.

Lemma place_perm (x : A) (l : list A) : Permutation (place x l) (x :: l).
Proof.
  induction l as [|y l IH]; simpl.
  - apply Permutation_refl.
  - destruct (after y x).
    + apply Permutation_refl.
    + eapply perm_trans; [apply perm_skip, IH | apply perm_swap].
Qed.

Lemma length_place (x : A) (l : list A) : List.length (place x l) = S (List.length l).
Proof. exact (Permutation_length (place_perm x l)). Qed.


(** No element is followed by one it sorts after. *)
Definition ordered : list A -> Prop :=
  StronglySorted (fun y x => after y x = false).

Lemma ordered_app_inv (l1 l2 : list A) :
  ordered (l1 ++ l2) ->
  ordered l1 /\ ordered l2
  /\ Forall (fun y => Forall (fun x => after y x = false) l2) l1.
Proof.
  induction l1 as [|y l1 IH]; simpl; intros H.
  - repeat split; [constructor | exact H | constructor].
  - inversion H as [|? ? Hs Hall]; subst.
    destruct (IH Hs) as (H1 & H2 & H12).
    apply Forall_app in Hall as [Hall1 Hall2].
    repeat split; try assumption; constructor; assumption.
Qed.

Lemma ordered_snoc_inv (l : list A) (x : A) :
  ordered (l ++ [x]) -> ordered l /\ Forall (fun y => after y x = false) l.
Proof.
  intros H. apply ordered_app_inv in H as (H1 & _ & H12). split; [exact H1|].
  eapply Forall_impl; [|exact H12].
  intros y Hy. now inversion Hy.
Qed.

(** An ordered array is left as it is. *)
Lemma sort_ordered (l : list A) : ordered l -> sort l = l.
Proof.
  induction l as [|x l IH] using rev_ind; intros H.
  - reflexivity.
  - apply ordered_snoc_inv in H as [Hl Hx].
    rewrite sort_snoc, (IH Hl). now apply insert_stays.
Qed.

(** So is an array in which no element sorts after its successor, whatever
    the comparator makes of elements further apart. *)
Fixpoint one_run (l : list A) : bool :=
  match l with
  | [] => true
  | y :: l' =>
      match l' with
      | [] => true
      | x :: _ => negb (after y x) && one_run l'
      end
  end.

Lemma one_run_snoc (l : list A) (y x : A) :
  one_run ((l ++ [y]) ++ [x]) = one_run (l ++ [y]) && negb (after y x).
Proof.
  induction l as [|z l IH].
  - simpl. now rewrite !andb_true_r.
  - change (((z :: l) ++ [y]) ++ [x]) with (z :: ((l ++ [y]) ++ [x])).
    change ((z :: l) ++ [y]) with (z :: (l ++ [y])).
    cbn [one_run]. rewrite IH.
    destruct l as [|z' l']; cbn [app]; now rewrite andb_assoc.
Qed.

Lemma sort_one_run (l : list A) : one_run l = true -> sort l = l.
Proof.
  induction l as [|x l IH] using rev_ind; intros H; [reflexivity|].
  rewrite sort_snoc.
  destruct l as [|y l _] using rev_ind; [reflexivity|].
  rewrite one_run_snoc in H. apply andb_prop in H as [Hl Hyx].
  apply negb_true_iff in Hyx.
  now rewrite (IH Hl), insert_snoc, Hyx, <- app_assoc.
Qed.

(** *** Facts for a comparator that is consistent on a domain [dom]:
    [after] is asymmetric and its complement transitive there. *)

Variable dom : A -> Prop.
Hypothesis after_asym :
  forall x y, dom x -> dom y -> after x y = true -> after y x = false.
Hypothesis after_ntrans :
  forall x y z, dom x -> dom y -> dom z ->
    after x y = false -> after y z = false -> after x z = false.

Lemma dom_insert (x : A) (l : list A) :
  dom x -> Forall dom l -> Forall dom (insert x l).
Proof.
  intros Hx Hl. rewrite Forall_forall in *. intros y Hy.
  apply (Permutation_in _ (insert_perm x l)) in Hy as [<- | Hy]; auto.
Qed.

Lemma dom_sort (l : list A) : Forall dom l -> Forall dom (sort l).
Proof.
  intros Hl. rewrite Forall_forall in *. intros y Hy.
  apply Hl, (Permutation_in _ (sort_perm l)), Hy.
Qed.

(** In an ordered array the move from the end and the scan from the front
    find the same place. *)
Lemma insert_place (x : A) (l : list A) :
  dom x -> Forall dom l -> ordered l -> insert x l = place x l.
Proof.
  intros Hx. induction l as [|y l IH] using rev_ind; intros Hdom Hord.
  - reflexivity.
  - apply Forall_app in Hdom as [Hdl Hdy]. apply Forall_inv in Hdy.
    apply ordered_snoc_inv in Hord as [Hl Hly].
    rewrite insert_snoc. destruct (after y x) eqn:E.
    + rewrite (IH Hdl Hl). symmetry. now apply place_stops.
    + rewrite <- (app_nil_r (l ++ [y])).
      rewrite place_passes; [now rewrite <- app_assoc|].
      apply Forall_app. split; [|now repeat constructor].
      rewrite Forall_forall in *. intros z Hz.
      apply after_ntrans with y; auto.
Qed.

Lemma ordered_place (x : A) (l : list A) :
  dom x -> Forall dom l -> ordered l -> ordered (place x l).
Proof.
  intros Hx Hdom Hord. induction Hord as [|y l Hord IH Hy]; simpl.
  - repeat constructor.
  - apply Forall_cons_iff in Hdom as [Hdy Hdl].
    destruct (after y x) eqn:E.
    + constructor; [constructor; assumption|].
      constructor; [now apply after_asym|].
      rewrite Forall_forall in *. intros z Hz.
      apply after_ntrans with y; auto.
    + constructor; [now apply IH|].
      rewrite Forall_forall in *. intros z Hz.
      apply (Permutation_in _ (place_perm x l)) in Hz as [<- | Hz]; auto.
Qed.

Lemma ordered_insert (x : A) (l : list A) :
  dom x -> Forall dom l -> ordered l -> ordered (insert x l).
Proof.
  intros Hx Hdom Hord. rewrite insert_place by assumption.
  now apply ordered_place.
Qed.

Lemma ordered_sort (l : list A) : Forall dom l -> ordered (sort l).
Proof.
  induction l as [|x l IH] using rev_ind; intros Hdom.
  - constructor.
  - apply Forall_app in Hdom as [Hl Hx]. inversion Hx; subst.
    rewrite sort_snoc. apply ordered_insert; auto using dom_sort.
Qed.




(** *** Keeping the first [k] of a sorted array when one element arrives *)

(** The newcomer beats the [k]-th: it takes its place among the first [k]. *)
Lemma firstn_insert_beats (x w : A) (h rest : list A) :
  dom x -> Forall dom (h ++ w :: rest) -> ordered (h ++ w :: rest) ->
  after w x = true ->
  firstn (S (List.length h)) (insert x (h ++ w :: rest)) = insert x h.
Proof.
  intros Hx Hdom Hord Hw.
  rewrite insert_place by assumption.
  apply Forall_app in Hdom as [Hdh _].
  apply ordered_app_inv in Hord as (Hoh & _ & _).
  rewrite (insert_place Hx Hdh Hoh).
  rewrite place_stops by assumption.
  rewrite <- (length_place x h).
  now rewrite firstn_app, firstn_all, Nat.sub_diag, firstn_O, app_nil_r.
Qed.

(** The newcomer does not beat the [k]-th: the first [k] stay. *)
Lemma firstn_insert_kept (x w : A) (h rest : list A) :
  dom x -> Forall dom (h ++ w :: rest) -> ordered (h ++ w :: rest) ->
  after w x = false ->
  firstn (S (List.length h)) (insert x (h ++ w :: rest)) = h ++ [w].
Proof.
  intros Hx Hdom Hord Hw.
  rewrite insert_place by assumption.
  replace (h ++ w :: rest) with ((h ++ [w]) ++ rest) in *
    by (now rewrite <- app_assoc).
  apply Forall_app in Hdom as [Hdom _].
  apply ordered_app_inv in Hord as (Hord & _ & _).
  apply ordered_snoc_inv in Hord as [_ Hge].
  apply Forall_app in Hdom as [Hdh Hdw]. inversion Hdw; subst.
  rewrite place_passes.
  - replace (S (List.length h)) with (List.length (h ++ [w]))
      by (rewrite length_app; simpl; lia).
    now rewrite firstn_app, firstn_all, Nat.sub_diag, firstn_O, app_nil_r.
  - apply Forall_app. split; [|now repeat constructor].
    rewrite Forall_forall in *. intros y Hy.
    apply after_ntrans with w; auto.
Qed.

End Facts.

End ArraySort.

Module Similarity.

Import JS.
Local Open Scope string_scope.
Local Open Scope list_scope.

Record VectorItem : Type := mkItem {
  id : Z;
  vector : list float;
  docId : Z;
  chunkIndex : Z;
  filename : string;
  text : string
}.

(** [{ ...item, similarity }]: every field of the item, and its score. *)
Record Ranked : Type := mkRanked {
  item : VectorItem;
  similarity : float
}.

(** [v[j]] as an operand of arithmetic: past the end of the array the read
    gives [undefined], which arithmetic turns into NaN. *)
Definition at_ (v : list float) (j : nat) : float := nth j v nan.

Definition indices (v : list float) : list nat := seq 0 (List.length v).

(** [cosine(a, b)]. *)
Definition cosine (a b : list float) : float :=
  if negb (List.length a =? List.length b)%nat then 0%float
  else if (List.length a =? 0)%nat then 0%float
  else
    let dotProduct :=
      fold_left (fun acc i => (acc + at_ a i * at_ b i)%float) (indices a) 0%float in
    let norms :=
      fold_left (fun '(normA, normB) i =>
                   ((normA + at_ a i * at_ a i)%float,
                    (normB + at_ b i * at_ b i)%float))
                (indices a) (0%float, 0%float) in
    let normA := sqrt (fst norms) in
    let normB := sqrt (snd norms) in
    if (normA =? 0)%float || (normB =? 0)%float then 0%float
    else (dotProduct / (normA * normB))%float.

Definition BATCH_SIZE : nat := 100.

(** The norm of the query, computed once. *)
Definition queryNorm (query : list float) : float :=
  sqrt (fold_left (fun acc i => (acc + at_ query i * at_ query i)%float)
                  (indices query) 0%float).

(** The inlined similarity of [rankByCosine]: the loop runs over the indices
    of the query, whatever the List.length of the item's vector. *)
Definition similarity_of (query : list float) (qNorm : float) (it : VectorItem) : float :=
  let sums :=
    fold_left (fun '(dotProduct, itemNorm) j =>
                 ((dotProduct + at_ query j * at_ (vector it) j)%float,
                  (itemNorm + at_ (vector it) j * at_ (vector it) j)%float))
              (indices query) (0%float, 0%float) in
  let dotProduct := fst sums in
  let itemNorm := sqrt (snd sums) in
  if (0 <? itemNorm)%float && (0 <? qNorm)%float
  then (dotProduct / (qNorm * itemNorm))%float
  else 0%float.

(** [(a, b) => b.similarity - a.similarity]. *)
Definition by_similarity_desc (a b : Ranked) : float :=
  (similarity b - similarity a)%float.

Definition sort_desc : list Ranked -> list Ranked :=
  ArraySort.sort by_similarity_desc.

Definition undefined_similarity : js_error :=
  TypeError "Cannot read properties of undefined (reading 'similarity')".

(** The maintenance of [topKHeap] for one scored item. *)
Definition offer (topK : Z) (topKHeap : list Ranked) (r : Ranked)
  : outcome (list Ranked) :=
  if (Z.of_nat (List.length topKHeap) <? topK)%Z then
    let pushed := topKHeap ++ [r] in
    if (Z.of_nat (List.length pushed) =? topK)%Z
    then Returned (sort_desc pushed)
    else Returned pushed
  else
    match last_opt topKHeap with
    | None => Threw undefined_similarity
    | Some worst =>
        if (similarity worst <? similarity r)%float
        then Returned (sort_desc (set_last topKHeap r))
        else Returned topKHeap
    end.

(** [for (const item of batch)]. *)
Fixpoint for_items (query : list float) (qNorm : float) (topK : Z)
  (batch : list VectorItem) (topKHeap : list Ranked) : outcome (list Ranked) :=
  match batch with
  | [] => Returned topKHeap
  | it :: rest =>
      h <- offer topK topKHeap (mkRanked it (similarity_of query qNorm it)) ;;
      for_items query qNorm topK rest h
  end.

(** [vectors.slice(a, b)] for [0 <= a] and [b <= vectors.length]. *)
Definition slice {A : Type} (l : list A) (a b : nat) : list A :=
  firstn (b - a) (skipn a l).

(** [for (let i = 0; i < vectors.length; i += BATCH_SIZE)]: one unit of fuel
    per batch. *)
Fixpoint for_batches (fuel : nat) (query : list float) (qNorm : float) (topK : Z)
  (vectors : list VectorItem) (i : nat) (topKHeap : list Ranked)
  : outcome (list Ranked) :=
  if (i <? List.length vectors)%nat then
    match fuel with
    | O => OutOfFuel
    | S fuel' =>
        let batch := slice vectors i (Nat.min (i + BATCH_SIZE) (List.length vectors)) in
        h <- for_items query qNorm topK batch topKHeap ;;
        for_batches fuel' query qNorm topK vectors (i + BATCH_SIZE) h
    end
  else Returned topKHeap.

(** [rankByCosine(query, vectors, topK)].  The batch loop gets one unit of
    fuel per item, which it cannot use up ([for_batches_flat]). *)
Definition rankByCosine (query : list float) (vectors : list VectorItem) (topK : Z)
  : outcome (list Ranked) :=
  if (List.length vectors =? 0)%nat then Returned []
  else
    let qNorm := queryNorm query in
    h <- for_batches (List.length vectors) query qNorm topK vectors 0 [] ;;
    Returned (sort_desc h).

(** The candidates with their scores, in the order supplied. *)
Definition scored (query : list float) (vectors : list VectorItem) : list Ranked :=
  map (fun it => mkRanked it (similarity_of query (queryNorm query) it)) vectors.

(** *** The loops, flattened *)

Definition score (query : list float) (it : VectorItem) : Ranked :=
  mkRanked it (similarity_of query (queryNorm query) it).

(** [offer] over a list of scored items. *)
Fixpoint offer_all (topK : Z) (rs : list Ranked) (topKHeap : list Ranked)
  : outcome (list Ranked) :=
  match rs with
  | [] => Returned topKHeap
  | r :: rest => h <- offer topK topKHeap r ;; offer_all topK rest h
  end.

Lemma for_items_app (query : list float) (qNorm : float) (topK : Z)
  (l1 l2 : list VectorItem) (h : list Ranked) :
  for_items query qNorm topK (l1 ++ l2) h =
  (h' <- for_items query qNorm topK l1 h ;; for_items query qNorm topK l2 h').
Proof.
  revert h. induction l1 as [|it l1 IH]; intros h; simpl; [reflexivity|].
  destruct (offer topK h _); simpl; auto.
Qed.

Lemma slice_batch (A : Type) (l : list A) (i : nat) :
  (i < List.length l)%nat ->
  skipn i l = slice l i (Nat.min (i + BATCH_SIZE) (List.length l)) ++ skipn (i + BATCH_SIZE) l.
Proof.
  intros Hi. unfold slice.
  rewrite <- (firstn_skipn (Nat.min (i + BATCH_SIZE) (List.length l) - i) (skipn i l)) at 1.
  f_equal. rewrite skipn_skipn.
  destruct (Nat.le_gt_cases (i + BATCH_SIZE) (List.length l)) as [Hle | Hgt].
  - f_equal. lia.
  - rewrite !skipn_all2; [reflexivity | lia | lia].
Qed.

(** The batches are the array, cut in pieces: the fuel is never used up. *)
Lemma for_batches_flat (query : list float) (qNorm : float) (topK : Z)
  (vectors : list VectorItem) (fuel i : nat) (h : list Ranked) :
  (List.length vectors - i <= fuel)%nat ->
  for_batches fuel query qNorm topK vectors i h =
  for_items query qNorm topK (skipn i vectors) h.
Proof.
  revert i h. induction fuel as [|fuel IH]; intros i h Hfuel.
  - simpl. destruct (i <? List.length vectors)%nat eqn:E.
    + apply Nat.ltb_lt in E. lia.
    + apply Nat.ltb_ge in E. now rewrite skipn_all2.
  - cbn [for_batches]. destruct (i <? List.length vectors)%nat eqn:E.
    + apply Nat.ltb_lt in E.
      replace (skipn i vectors)
        with (slice vectors i (Nat.min (i + BATCH_SIZE) (List.length vectors))
              ++ skipn (i + BATCH_SIZE) vectors)
        by (symmetry; now apply slice_batch).
      rewrite for_items_app.
      destruct (for_items query qNorm topK _ h); simpl; try reflexivity.
      apply IH. unfold BATCH_SIZE. lia.
    + apply Nat.ltb_ge in E. now rewrite skipn_all2.
Qed.

Lemma for_items_offer_all (query : list float) (topK : Z)
  (batch : list VectorItem) (h : list Ranked) :
  for_items query (queryNorm query) topK batch h =
  offer_all topK (map (score query) batch) h.
Proof.
  revert h. induction batch as [|it batch IH]; intros h; simpl; [reflexivity|].
  fold (score query it). destruct (offer topK h (score query it)); simpl; auto.
Qed.

Lemma rankByCosine_flat (query : list float) (vectors : list VectorItem) (topK : Z) :
  rankByCosine query vectors topK =
  match vectors with
  | [] => Returned []
  | _ => h <- offer_all topK (scored query vectors) [] ;; Returned (sort_desc h)
  end.
Proof.
  unfold rankByCosine. destruct vectors as [|it vectors]; [reflexivity|].
  cbn [List.length Nat.eqb].
  rewrite for_batches_flat by (simpl; lia).
  unfold skipn. now rewrite for_items_offer_all.
Qed.

(** The call returns or throws: the fuel of the batch loop plays no part. *)
Lemma offer_all_completes (topK : Z) (rs h : list Ranked) :
  offer_all topK rs h <> OutOfFuel.
Proof.
  revert h. induction rs as [|r rs IH]; intros h; simpl; [discriminate|].
  unfold offer.
  destruct (Z.of_nat (List.length h) <? topK)%Z.
  - destruct (Z.of_nat (List.length (h ++ [r])) =? topK)%Z; simpl; apply IH.
  - destruct (last_opt h) as [w|]; [|discriminate].
    destruct (similarity w <? similarity r)%float; simpl; apply IH.
Qed.

Lemma rankByCosine_completes (query : list float) (vectors : list VectorItem) (topK : Z) :
  rankByCosine query vectors topK <> OutOfFuel.
Proof.
  rewrite rankByCosine_flat. destruct vectors as [|it vectors]; [discriminate|].
  pose proof (offer_all_completes topK (scored query (it :: vectors)) []) as H.
  destruct (offer_all topK (scored query (it :: vectors)) []); simpl;
    [discriminate | discriminate | contradiction].
Qed.

(** With [topK <= 0] the first item already reads [topKHeap[-1].similarity]. *)
Lemma rankByCosine_nonpositive_topK (query : list float) (it : VectorItem)
  (vectors : list VectorItem) (topK : Z) :
  (topK <= 0)%Z ->
  rankByCosine query (it :: vectors) topK = Threw undefined_similarity.
Proof.
  intros HK. rewrite rankByCosine_flat. simpl. unfold offer. simpl.
  replace (0 <? topK)%Z with false by (symmetry; apply Z.ltb_ge; lia).
  reflexivity.
Qed.

(** *** Scores that the comparator orders consistently

    [b.similarity - a.similarity] is a consistent comparator on a set of
    scores when its sign agrees with [<] there and [<] is a strict weak order
    there, as it is on doubles that are not NaN.  On other scores the result
    of [sort] is left to the implementation. *)

Definition consistent_scores (scores : list float) : bool :=
  forallb (fun a =>
    forallb (fun b =>
      Bool.eqb (0 <? a - b)%float (b <? a)%float
      && implb (a <? b)%float (negb (b <? a)%float)
      && forallb (fun c =>
           implb (negb (a <? b)%float && negb (b <? c)%float)
                 (negb (a <? c)%float)) scores) scores) scores.

Lemma consistent_scores_spec (scores : list float) :
  consistent_scores scores = true ->
  forall a b c, In a scores -> In b scores -> In c scores ->
    (0 <? a - b)%float = (b <? a)%float
    /\ ((a <? b)%float = true -> (b <? a)%float = false)
    /\ ((a <? b)%float = false -> (b <? c)%float = false -> (a <? c)%float = false).
Proof.
  unfold consistent_scores. intros H a b c Ha Hb Hc.
  rewrite forallb_forall in H. specialize (H a Ha).
  rewrite forallb_forall in H. specialize (H b Hb).
  apply andb_prop in H as [H H3]. apply andb_prop in H as [H1 H2].
  rewrite forallb_forall in H3. specialize (H3 c Hc).
  apply Bool.eqb_prop in H1.
  repeat split.
  - exact H1.
  - intros E. rewrite E in H2. simpl in H2. now apply negb_true_iff.
  - intros E1 E2. rewrite E1, E2 in H3. simpl in H3. now apply negb_true_iff.
Qed.

Section TopK.

Variable all : list Ranked.
Variable topK : Z.
Hypothesis scores_ok : consistent_scores (map similarity all) = true.
Hypothesis topK_pos : (0 < topK)%Z.

Local Abbreviation after := (ArraySort.after by_similarity_desc).
Local Abbreviation ordered := (ArraySort.ordered by_similarity_desc).

Definition known (r : Ranked) : Prop := In r all.

Lemma known_score (r : Ranked) : known r -> In (similarity r) (map similarity all).
Proof. apply in_map. Qed.

Lemma after_lt (y x : Ranked) :
  known y -> known x -> after y x = (similarity y <? similarity x)%float.
Proof.
  intros Hy Hx. unfold ArraySort.after, by_similarity_desc.
  apply (consistent_scores_spec _ scores_ok (similarity x) (similarity y) (similarity x));
    auto using known_score.
Qed.

Lemma after_asym (x y : Ranked) :
  known x -> known y -> after x y = true -> after y x = false.
Proof.
  intros Hx Hy. rewrite !after_lt by assumption.
  apply (consistent_scores_spec _ scores_ok (similarity x) (similarity y) (similarity x));
    auto using known_score.
Qed.

Lemma after_ntrans (x y z : Ranked) :
  known x -> known y -> known z ->
  after x y = false -> after y z = false -> after x z = false.
Proof.
  intros Hx Hy Hz. rewrite !after_lt by assumption.
  apply (consistent_scores_spec _ scores_ok (similarity x) (similarity y) (similarity z));
    auto using known_score.
Qed.

(** What [topKHeap] holds once the items [seen] have been offered: below
    capacity the items as they came, from capacity on the first [topK] of
    the sorted items. *)
Definition kept (seen topKHeap : list Ranked) : Prop :=
  if (List.length seen <? Z.to_nat topK)%nat
  then topKHeap = seen
  else topKHeap = firstn (Z.to_nat topK) (sort_desc seen).

Lemma firstn_ordered (n : nat) (l : list Ranked) : ordered l -> ordered (firstn n l).
Proof.
  intros H. rewrite <- (firstn_skipn n l) in H.
  now apply ArraySort.ordered_app_inv in H.
Qed.

Lemma firstn_S_split (A : Type) (k : nat) (l : list A) :
  (k < List.length l)%nat ->
  exists w rest, l = firstn k l ++ w :: rest /\ firstn (S k) l = firstn k l ++ [w].
Proof.
  intros Hk. destruct (skipn k l) as [|w rest] eqn:E.
  - apply (f_equal (@List.length A)) in E. rewrite length_skipn in E. simpl in E. lia.
  - exists w, rest.
    assert (Hl : l = firstn k l ++ w :: rest) by (now rewrite <- E, firstn_skipn).
    split; [exact Hl|].
    rewrite Hl at 1.
    replace (S k) with (List.length (firstn k l) + 1)%nat
      by (rewrite length_firstn; lia).
    now rewrite firstn_app_2.
Qed.

Lemma offer_kept (seen topKHeap : list Ranked) (r : Ranked) :
  Forall known (seen ++ [r]) ->
  kept seen topKHeap ->
  exists h, offer topK topKHeap r = Returned h /\ kept (seen ++ [r]) h.
Proof.
  intros Hknown Hkept.
  apply Forall_app in Hknown as [Hseen Hr]. inversion Hr as [|? ? Hr' _]; subst.
  unfold kept in *. rewrite length_app. simpl.
  destruct (List.length seen <? Z.to_nat topK)%nat eqn:E.
  - (* below capacity: push *)
    apply Nat.ltb_lt in E. subst topKHeap. unfold offer.
    replace (Z.of_nat (List.length seen) <? topK)%Z with true
      by (symmetry; apply Z.ltb_lt; lia).
    rewrite length_app. simpl.
    destruct (Z.of_nat (List.length seen + 1) =? topK)%Z eqn:E2.
    + apply Z.eqb_eq in E2. eexists. split; [reflexivity|].
      replace (List.length seen + 1 <? Z.to_nat topK)%nat with false
        by (symmetry; apply Nat.ltb_ge; lia).
      rewrite firstn_all2; [reflexivity|].
      unfold sort_desc. rewrite ArraySort.length_sort, length_app. simpl. lia.
    + apply Z.eqb_neq in E2. eexists. split; [reflexivity|].
      replace (List.length seen + 1 <? Z.to_nat topK)%nat with true
        by (symmetry; apply Nat.ltb_lt; lia).
      reflexivity.
  - (* at capacity: compare with the last *)
    apply Nat.ltb_ge in E.
    replace (List.length seen + 1 <? Z.to_nat topK)%nat with false
      by (symmetry; apply Nat.ltb_ge; lia).
    destruct (Z.to_nat topK) as [|k] eqn:EK; [lia|].
    assert (Hlen : (k < List.length (sort_desc seen))%nat)
      by (unfold sort_desc; rewrite ArraySort.length_sort; lia).
    destruct (firstn_S_split (sort_desc seen) Hlen) as (w & rest & Hsplit & Hfirst).
    set (h := firstn k (sort_desc seen)) in *.
    assert (Hhlen : List.length h = k)
      by (unfold h; rewrite length_firstn; lia).
    assert (Hdom : Forall known (sort_desc seen)) by now apply ArraySort.dom_sort.
    assert (Hord : ordered (sort_desc seen))
      by (apply (ArraySort.ordered_sort (dom := known) after_asym after_ntrans);
          assumption).
    assert (Hw : known w).
    { rewrite Forall_forall in Hdom. apply Hdom. rewrite Hsplit.
      apply in_or_app. right. now left. }
    subst topKHeap. rewrite Hfirst. unfold offer.
    replace (Z.of_nat (List.length (h ++ [w])) <? topK)%Z with false
      by (symmetry; apply Z.ltb_ge; rewrite length_app; simpl; lia).
    rewrite last_opt_snoc, set_last_snoc.
    replace (sort_desc (seen ++ [r]))
      with (ArraySort.insert by_similarity_desc r (sort_desc seen))
      by (symmetry; apply ArraySort.sort_snoc).
    rewrite Hsplit, <- Hhlen.
    destruct (similarity w <? similarity r)%float eqn:Ewr.
    + eexists. split; [reflexivity|].
      rewrite (ArraySort.firstn_insert_beats (dom := known) after_ntrans);
        [| assumption | now rewrite <- Hsplit | now rewrite <- Hsplit
         | now rewrite after_lt].
      unfold sort_desc.
      rewrite ArraySort.sort_snoc, ArraySort.sort_ordered; [reflexivity|].
      apply firstn_ordered, Hord.
    + eexists. split; [reflexivity|].
      rewrite (ArraySort.firstn_insert_kept (dom := known) after_ntrans);
        [reflexivity | assumption | now rewrite <- Hsplit | now rewrite <- Hsplit
        | now rewrite after_lt].
Qed.

Lemma offer_all_kept (rest seen topKHeap : list Ranked) :
  Forall known (seen ++ rest) ->
  kept seen topKHeap ->
  exists h, offer_all topK rest topKHeap = Returned h /\ kept (seen ++ rest) h.
Proof.
  revert seen topKHeap. induction rest as [|r rest IH]; intros seen topKHeap Hknown Hkept.
  - rewrite app_nil_r. now exists topKHeap.
  - replace (seen ++ r :: rest) with ((seen ++ [r]) ++ rest) in *
      by (now rewrite <- app_assoc).
    destruct (@offer_kept seen topKHeap r) as (h & Hh & Hk); auto.
    { now apply Forall_app in Hknown. }
    simpl. rewrite Hh. simpl. now apply IH.
Qed.

End TopK.

(** *** What [rankByCosine] returns *)

Lemma firstn_nil_any (A : Type) (n : nat) : firstn n (@nil A) = [].
Proof. now destruct n. Qed.

Lemma in_firstn (A : Type) (n : nat) (l : list A) (x : A) : In x (firstn n l) -> In x l.
Proof.
  intros H. rewrite <- (firstn_skipn n l). apply in_or_app. now left.
Qed.

(** For [topK > 0] and scores the comparator orders consistently, the result
    is the first [topK] candidates of the stably sorted list of candidates. *)
Lemma rankByCosine_topK (query : list float) (vectors : list VectorItem) (topK : Z) :
  consistent_scores (map similarity (scored query vectors)) = true ->
  (0 < topK)%Z ->
  rankByCosine query vectors topK =
  Returned (firstn (Z.to_nat topK) (sort_desc (scored query vectors))).
Proof.
  intros Hok HK. rewrite rankByCosine_flat.
  destruct vectors as [|it vectors]; [now rewrite firstn_nil_any|].
  set (all := scored query (it :: vectors)) in *.
  assert (Hknown : Forall (known all) ([] ++ all))
    by (apply Forall_forall; intros r Hr; exact Hr).
  assert (Hinit : kept topK [] []).
  { unfold kept. simpl.
    replace (0 <? Z.to_nat topK)%nat with true by (symmetry; apply Nat.ltb_lt; lia).
    reflexivity. }
  destruct (@offer_all_kept all topK Hok HK all [] [] Hknown Hinit) as (h & Hh & Hkept).
  rewrite Hh. simpl. f_equal. unfold kept in Hkept.
  change ([] ++ all) with all in Hkept.
  destruct (List.length all <? Z.to_nat topK)%nat eqn:E.
  - apply Nat.ltb_lt in E. subst h.
    rewrite firstn_all2; [reflexivity|].
    unfold sort_desc. rewrite ArraySort.length_sort. lia.
  - subst h. unfold sort_desc at 1. apply ArraySort.sort_ordered.
    apply firstn_ordered.
    apply (ArraySort.ordered_sort (dom := known all)
             (after_asym all Hok) (after_ntrans all Hok)).
    apply Forall_forall. intros r Hr. exact Hr.
Qed.

(** For [topK > 0] the call returns, whatever the scores, and a non-empty
    candidate list gives a non-empty result. *)
Lemma sort_desc_nonempty (l : list Ranked) : l <> [] -> sort_desc l <> [].
Proof.
  intros Hl Hs. apply (f_equal (@List.length Ranked)) in Hs.
  unfold sort_desc in Hs. rewrite ArraySort.length_sort in Hs.
  destruct l; [contradiction | discriminate].
Qed.

Lemma offer_returns (topK : Z) (h : list Ranked) (r : Ranked) :
  (0 < topK)%Z ->
  exists h', offer topK h r = Returned h' /\ h' <> [].
Proof.
  intros HK. unfold offer.
  destruct (Z.of_nat (List.length h) <? topK)%Z eqn:E.
  - assert (Hne : h ++ [r] <> []) by (now destruct h).
    destruct (Z.of_nat (List.length (h ++ [r])) =? topK)%Z;
      eexists; (split; [reflexivity|]); auto using sort_desc_nonempty.
  - destruct h as [|x h] using rev_ind.
    + apply Z.ltb_ge in E. simpl in E. lia.
    + rewrite last_opt_snoc, set_last_snoc.
      assert (Hne : h ++ [r] <> []) by (now destruct h).
      assert (Hne' : h ++ [x] <> []) by (now destruct h).
      destruct (similarity x <? similarity r)%float;
        eexists; (split; [reflexivity|]); auto using sort_desc_nonempty.
Qed.

Lemma offer_all_returns (topK : Z) (rs h : list Ranked) :
  (0 < topK)%Z ->
  exists h', offer_all topK rs h = Returned h' /\ (rs <> [] \/ h <> [] -> h' <> []).
Proof.
  intros HK. revert h. induction rs as [|r rs IH]; intros h; simpl.
  - exists h. split; [reflexivity|]. now intros [H | H].
  - destruct (offer_returns h r HK) as (h1 & -> & Hne1). simpl.
    destruct (IH h1) as (h' & -> & Hne'). exists h'. split; [reflexivity|].
    intros _. apply Hne'. now right.
Qed.

Lemma rankByCosine_returns (query : list float) (vectors : list VectorItem) (topK : Z) :
  (0 < topK)%Z -> vectors <> [] ->
  exists result, rankByCosine query vectors topK = Returned result /\ result <> [].
Proof.
  intros HK Hne. rewrite rankByCosine_flat.
  destruct vectors as [|it vectors]; [contradiction|].
  destruct (offer_all_returns (scored query (it :: vectors)) [] HK) as (h & -> & Hh).
  simpl. eexists. split; [reflexivity|].
  apply sort_desc_nonempty, Hh. left. discriminate.
Qed.




Definition plain (v : list float) : VectorItem := mkItem 0 v 0 0 "" "".

Example rank_scenario_2 :
  option_map (map (fun r => vector (item r)))
    (match rankByCosine [1; 0] [plain [1; 0]; plain [0; 1]; plain [0.5; 0.5]] 2 with
     | Returned l => Some l
     | _ => None
     end)%float
  = Some [[1; 0]; [0.5; 0.5]]%float.
Proof. vm_compute. reflexivity. Qed.

(** *** The claims about [rankByCosine] *)

(** C2 (the code departs from it). The claim: with [topK <= 0] the result is
    empty and no error is raised, also for a non-empty candidate list. In the
    code a non-empty list with [topK <= 0] makes the first item read
    [topKHeap[topKHeap.length - 1].similarity] on the empty array, which
    throws a TypeError. *)
Theorem rankByCosine_nonpositive_topK_throws (query : list float)
  (vectors : list VectorItem) (topK : Z) :
  (topK <= 0)%Z -> vectors <> [] ->
  rankByCosine query vectors topK = Threw undefined_similarity.
Proof.
  intros HK Hne. destruct vectors as [|it vectors]; [contradiction|].
  now apply rankByCosine_nonpositive_topK.
Qed.

Lemma rankByCosine_nonpositive_topK_throws_witness :
  rankByCosine [1%float] [plain [1%float]] 0 = Threw undefined_similarity.
Proof.
  apply (@rankByCosine_nonpositive_topK_throws [1%float] [plain [1%float]] 0).
  - vm_compute. discriminate.
  - discriminate.
Defined.

(** A candidate with one component more than the query, and one of the
    query's own length. *)
Definition long_item : VectorItem := mkItem 7 [1; 0; 5]%float 3 0 "a.pdf" "alpha".
Definition fair_item : VectorItem := mkItem 8 [0.5; 0.5]%float 3 1 "a.pdf" "beta".

(** C6 (the code departs from it). The claim: a candidate whose vector length
    differs from the query's is skipped (similarity 0, or left out). In the
    code the inlined similarity runs over the indices of the query only: the
    three-component [long_item] is scored 1 against the two-component query
    and is returned ahead of [fair_item], while [cosine], which has the length
    guard, gives 0 for the same pair. *)
Theorem rankByCosine_scores_longer_vector :
  rankByCosine [1; 0]%float [fair_item; long_item] 1
    = Returned [mkRanked long_item 1%float]
  /\ cosine [1; 0]%float (vector long_item) = 0%float.
Proof. split; vm_compute; reflexivity. Qed.

(** A shorter vector reads [undefined] past its end, its norm is NaN and
    its similarity is 0. *)
Example rankByCosine_scores_shorter_vector :
  rankByCosine [1; 0]%float [plain [1%float]] 1
    = Returned [mkRanked (plain [1%float]) 0%float].
Proof. vm_compute. reflexivity. Qed.





(** Four candidates, two of them tied at similarity 1. *)
Definition demo_vectors : list VectorItem :=
  [ mkItem 1 [0; 1]%float 1 0 "a.pdf" "zero";
    mkItem 2 [1; 0]%float 1 1 "a.pdf" "first one";
    mkItem 3 [0.5; 0.5]%float 1 2 "a.pdf" "half";
    mkItem 4 [2; 0]%float 1 3 "a.pdf" "second one" ].


(** *** Further properties of [rankByCosine] and [cosine] *)

(** The heap holds [min topK seen] of the items seen; the others were dropped. *)
Lemma offer_selects (topK : Z) (h dropped seen : list Ranked) (r : Ranked) :
  (0 < topK)%Z ->
  List.length h = Nat.min (Z.to_nat topK) (List.length seen) ->
  Permutation (h ++ dropped) seen ->
  exists h' dropped',
    offer topK h r = Returned h'
    /\ List.length h' = Nat.min (Z.to_nat topK) (S (List.length seen))
    /\ Permutation (h' ++ dropped') (seen ++ [r]).
Proof.
  intros HK Hlen Hperm. unfold offer.
  destruct (Z.of_nat (List.length h) <? topK)%Z eqn:E.
  - apply Z.ltb_lt in E.
    assert (Hpush : Permutation ((h ++ [r]) ++ dropped) (seen ++ [r])).
    { rewrite <- app_assoc. simpl.
      eapply perm_trans; [apply Permutation_sym, Permutation_middle|].
      eapply perm_trans; [apply perm_skip, Hperm|].
      apply Permutation_cons_append. }
    destruct (Z.of_nat (List.length (h ++ [r])) =? topK)%Z;
      eexists; exists dropped; (split; [reflexivity|]); split.
    + unfold sort_desc. rewrite ArraySort.length_sort, length_app. simpl. lia.
    + eapply perm_trans; [|exact Hpush].
      apply Permutation_app_tail. apply ArraySort.sort_perm.
    + rewrite length_app. simpl. lia.
    + exact Hpush.
  - apply Z.ltb_ge in E.
    destruct h as [|w h] using rev_ind; [simpl in E; lia|]. clear IHh.
    rewrite last_opt_snoc, set_last_snoc.
    rewrite length_app in Hlen, E. simpl in Hlen, E.
    destruct (similarity w <? similarity r)%float.
    + eexists. exists (w :: dropped). split; [reflexivity|]. split.
      * unfold sort_desc. rewrite ArraySort.length_sort, length_app. simpl. lia.
      * eapply perm_trans;
          [apply Permutation_app_tail, ArraySort.sort_perm|].
        rewrite <- app_assoc. simpl.
        eapply perm_trans; [apply Permutation_sym, Permutation_middle|].
        eapply perm_trans; [|apply Permutation_cons_append].
        apply perm_skip. rewrite <- app_assoc in Hperm. exact Hperm.
    + eexists. exists (r :: dropped). split; [reflexivity|]. split.
      * rewrite length_app. simpl. lia.
      * eapply perm_trans; [apply Permutation_sym, Permutation_middle|].
        eapply perm_trans; [|apply Permutation_cons_append].
        apply perm_skip. exact Hperm.
Qed.

Lemma offer_all_selects (topK : Z) (rs h dropped seen : list Ranked) :
  (0 < topK)%Z ->
  List.length h = Nat.min (Z.to_nat topK) (List.length seen) ->
  Permutation (h ++ dropped) seen ->
  exists h' dropped',
    offer_all topK rs h = Returned h'
    /\ List.length h' = Nat.min (Z.to_nat topK) (List.length (seen ++ rs))
    /\ Permutation (h' ++ dropped') (seen ++ rs).
Proof.
  intros HK. revert h dropped seen.
  induction rs as [|r rs IH]; intros h dropped seen Hlen Hperm.
  - exists h, dropped. rewrite List.app_nil_r. now repeat split.
  - destruct (@offer_selects topK h dropped seen r HK Hlen Hperm) as (h1 & d1 & Hoffer & Hlen1 & Hperm1).
    simpl. rewrite Hoffer. simpl.
    replace (seen ++ r :: rs) with ((seen ++ [r]) ++ rs) by (now rewrite <- app_assoc).
    apply IH with d1; [|exact Hperm1].
    rewrite Hlen1, length_app. simpl. f_equal. lia.
Qed.

(** X2. For [topK > 0] and whatever the scores (NaN included), rankByCosine
    returns: the result has [min(topK, n)] entries for [n] candidates, and
    they are candidates with their own scores, no candidate more often than
    it was supplied. *)
Theorem rankByCosine_selects (query : list float) (vectors : list VectorItem) (topK : Z) :
  (0 < topK)%Z ->
  exists result dropped,
    rankByCosine query vectors topK = Returned result
    /\ List.length result = Nat.min (Z.to_nat topK) (List.length vectors)
    /\ Permutation (result ++ dropped) (scored query vectors).
Proof.
  intros HK. rewrite rankByCosine_flat.
  destruct vectors as [|it vectors].
  - exists [], []. split; [reflexivity|].
    split; [simpl; now rewrite Nat.min_0_r | constructor].
  - destruct (@offer_all_selects topK (scored query (it :: vectors)) [] [] [] HK)
      as (h & dropped & Hh & Hlen & Hperm).
    + simpl. now rewrite Nat.min_0_r.
    + constructor.
    + rewrite Hh. simpl. exists (sort_desc h), dropped.
      split; [reflexivity|]. split.
      * unfold sort_desc. rewrite ArraySort.length_sort, Hlen. simpl.
        unfold scored. now rewrite length_map.
      * eapply perm_trans; [|exact Hperm].
        apply Permutation_app_tail, ArraySort.sort_perm.
Qed.

Lemma rankByCosine_selects_witness :
  exists result dropped,
    rankByCosine [1; 0]%float demo_vectors 3 = Returned result
    /\ List.length result = Nat.min (Z.to_nat 3) (List.length demo_vectors)
    /\ Permutation (result ++ dropped) (scored [1; 0]%float demo_vectors).
Proof.
  apply (@rankByCosine_selects [1; 0]%float demo_vectors 3). reflexivity.
Defined.

(** X3. On scores that the comparator orders consistently, and for [topK > 0],
    the result is a best [topK]: no candidate left out has a higher
    similarity than a candidate returned. *)
Theorem rankByCosine_keeps_the_best (query : list float) (vectors : list VectorItem)
  (topK : Z) :
  consistent_scores (map similarity (scored query vectors)) = true ->
  (0 < topK)%Z ->
  exists result dropped,
    rankByCosine query vectors topK = Returned result
    /\ Permutation (result ++ dropped) (scored query vectors)
    /\ (forall r x, In r result -> In x dropped ->
          (similarity r <? similarity x)%float = false).
Proof.
  intros Hok HK. rewrite rankByCosine_topK by assumption.
  set (all := scored query vectors) in *.
  exists (firstn (Z.to_nat topK) (sort_desc all)), (skipn (Z.to_nat topK) (sort_desc all)).
  assert (Hall : Forall (known all) all) by (apply Forall_forall; intros r Hr; exact Hr).
  assert (Hdom : Forall (known all) (sort_desc all)) by now apply ArraySort.dom_sort.
  assert (Hord : ArraySort.ordered by_similarity_desc (sort_desc all))
    by (apply (ArraySort.ordered_sort (dom := known all)
                 (after_asym all Hok) (after_ntrans all Hok)); assumption).
  split; [reflexivity|]. split.
  - rewrite firstn_skipn. apply ArraySort.sort_perm.
  - intros r x Hr Hx.
    rewrite <- (firstn_skipn (Z.to_nat topK) (sort_desc all)) in Hord, Hdom.
    apply ArraySort.ordered_app_inv in Hord as (_ & _ & Hcross).
    rewrite Forall_forall in Hcross. specialize (Hcross r Hr).
    rewrite Forall_forall in Hcross. specialize (Hcross x Hx).
    rewrite Forall_forall in Hdom.
    rewrite <- (after_lt all Hok); [exact Hcross | |];
      apply Hdom, in_or_app; [now left | now right].
Qed.

Lemma rankByCosine_keeps_the_best_witness :
  exists result dropped,
    rankByCosine [1; 0]%float demo_vectors 2 = Returned result
    /\ Permutation (result ++ dropped) (scored [1; 0]%float demo_vectors)
    /\ (forall r x, In r result -> In x dropped ->
          (similarity r <? similarity x)%float = false).
Proof.
  apply (@rankByCosine_keeps_the_best [1; 0]%float demo_vectors 2).
  - vm_compute. reflexivity.
  - reflexivity.
Defined.

(** *** The inlined similarity against [cosine] *)

Lemma similarity_sums (query v : list float) (l : list nat) (d n : float) :
  fold_left (fun '(dotProduct, itemNorm) j =>
               ((dotProduct + at_ query j * at_ v j)%float,
                (itemNorm + at_ v j * at_ v j)%float)) l (d, n)
  = (fold_left (fun acc j => (acc + at_ query j * at_ v j)%float) l d,
     fold_left (fun acc j => (acc + at_ v j * at_ v j)%float) l n).
Proof. revert d n. induction l as [|j l IH]; intros d n; simpl; [reflexivity | apply IH]. Qed.

Lemma cosine_norms (a b : list float) (l : list nat) (x y : float) :
  fold_left (fun '(normA, normB) i =>
               ((normA + at_ a i * at_ a i)%float,
                (normB + at_ b i * at_ b i)%float)) l (x, y)
  = (fold_left (fun acc i => (acc + at_ a i * at_ a i)%float) l x,
     fold_left (fun acc i => (acc + at_ b i * at_ b i)%float) l y).
Proof. revert x y. induction l as [|j l IH]; intros x y; simpl; [reflexivity | apply IH]. Qed.

(** [n > 0] is the negation of [n === 0]: so it is for every number that is
    neither NaN nor negative, as a square root that is not NaN. *)
Definition sign_decided (n : float) : bool :=
  Bool.eqb (0 <? n)%float (negb (n =? 0)%float).

(** X4. For a candidate vector of the query's length, and norms that are not
    NaN, the similarity that rankByCosine computes inline is the value of
    [cosine(query, vector)]. *)
Theorem inlined_similarity_is_cosine (query : list float) (it : VectorItem) :
  List.length (vector it) = List.length query ->
  sign_decided (queryNorm query) = true ->
  sign_decided (queryNorm (vector it)) = true ->
  similarity_of query (queryNorm query) it = cosine query (vector it).
Proof.
  intros Hlen Hq Hv. unfold similarity_of, cosine.
  rewrite <- Hlen, Nat.eqb_refl. cbn [negb].
  destruct (vector it) as [|x v] eqn:Ev.
  - destruct query; [|discriminate]. vm_compute. reflexivity.
  - destruct (List.length (x :: v) =? 0)%nat eqn:E0; [discriminate|].
    rewrite similarity_sums, cosine_norms. cbn [fst snd].
    unfold queryNorm, indices in *. rewrite <- Hlen in *.
    set (nq := sqrt (fold_left (fun acc i => (acc + at_ query i * at_ query i)%float)
                       (seq 0 (List.length (x :: v))) 0%float)) in *.
    set (ni := sqrt (fold_left (fun acc i => (acc + at_ (x :: v) i * at_ (x :: v) i)%float)
                       (seq 0 (List.length (x :: v))) 0%float)) in *.
    unfold sign_decided in Hq, Hv.
    apply Bool.eqb_prop in Hq, Hv. rewrite Hq, Hv.
    destruct (nq =? 0)%float, (ni =? 0)%float; reflexivity.
Qed.

Lemma inlined_similarity_is_cosine_witness :
  similarity_of [1; 0]%float (queryNorm [1; 0]%float) fair_item
  = cosine [1; 0]%float (vector fair_item).
Proof.
  apply (@inlined_similarity_is_cosine [1; 0]%float fair_item); reflexivity.
Defined.

(** NaN absorbs additions; [Prim2SF] gives the IEEE value of a float. *)
Lemma add_nan_l (x : float) : (nan + x)%float = nan.
Proof.
  apply FloatAxioms.Prim2SF_inj. rewrite FloatAxioms.add_spec.
  change (FloatOps.Prim2SF nan) with SpecFloat.S754_nan. reflexivity.
Qed.

Lemma add_nan_r (x : float) : (x + nan)%float = nan.
Proof.
  apply FloatAxioms.Prim2SF_inj. rewrite FloatAxioms.add_spec.
  change (FloatOps.Prim2SF nan) with SpecFloat.S754_nan.
  destruct (FloatOps.Prim2SF x); reflexivity.
Qed.

Lemma sum_from_nan (f : nat -> float) (l : list nat) :
  fold_left (fun acc j => (acc + f j)%float) l nan = nan.
Proof. induction l as [|j l IH]; simpl; [reflexivity | now rewrite add_nan_l]. Qed.

(** X5. A candidate whose vector is shorter than the query is scored 0,
    whatever its components and the query: the loop reads [undefined] past
    the end of the vector, the item norm becomes NaN and the test
    [itemNorm > 0] fails. *)
Theorem shorter_vector_scores_zero (query : list float) (qNorm : float)
  (it : VectorItem) :
  (List.length (vector it) < List.length query)%nat ->
  similarity_of query qNorm it = 0%float.
Proof.
  intros Hlen. unfold similarity_of. rewrite similarity_sums. cbn [fst snd].
  unfold indices.
  replace (List.length query)
    with (List.length (vector it) + S (List.length query - S (List.length (vector it))))%nat
    by lia.
  rewrite seq_app, fold_left_app. cbn [seq fold_left].
  replace (at_ (vector it) (0 + List.length (vector it))) with nan.
  2:{ unfold at_. rewrite nth_overflow; [reflexivity | lia]. }
  change (nan * nan)%float with nan. rewrite add_nan_r, sum_from_nan.
  reflexivity.
Qed.

Lemma shorter_vector_scores_zero_witness :
  similarity_of [1; 0]%float (queryNorm [1; 0]%float) (plain [1%float]) = 0%float.
Proof.
  apply (@shorter_vector_scores_zero [1; 0]%float (queryNorm [1; 0]%float) (plain [1%float])).
  vm_compute. lia.
Defined.

(** Whenever the call returns, the result is a selection of the scored
    candidates, [min(topK, n)] of them. *)
Lemma rankByCosine_returned (query : list float) (vectors : list VectorItem) (topK : Z)
  (result : list Ranked) :
  rankByCosine query vectors topK = Returned result ->
  List.length result = Nat.min (Z.to_nat topK) (List.length vectors)
  /\ exists dropped, Permutation (result ++ dropped) (scored query vectors).
Proof.
  destruct vectors as [|it vectors].
  - intros [= <-]. split; [simpl; now rewrite Nat.min_0_r | exists []; constructor].
  - destruct (Z.ltb_spec 0 topK) as [HK | HK].
    + rewrite rankByCosine_flat.
      destruct (@offer_all_selects topK (scored query (it :: vectors)) [] [] [] HK)
        as (h & dropped & Hh & Hlen & Hperm).
      * simpl. now rewrite Nat.min_0_r.
      * constructor.
      * rewrite Hh. simpl. intros [= <-]. split.
        -- unfold sort_desc. rewrite ArraySort.length_sort, Hlen. simpl.
           unfold scored. now rewrite length_map.
        -- exists dropped. eapply perm_trans; [|exact Hperm].
           apply Permutation_app_tail, ArraySort.sort_perm.
    + rewrite rankByCosine_nonpositive_topK by exact HK. discriminate.
Qed.

Lemma rankByCosine_returned_items (query : list float) (vectors : list VectorItem)
  (topK : Z) (result : list Ranked) (r : Ranked) :
  rankByCosine query vectors topK = Returned result ->
  In r result -> In (item r) vectors.
Proof.
  intros Hrun Hr. apply rankByCosine_returned in Hrun as [_ [dropped Hperm]].
  assert (Hin : In r (scored query vectors)).
  { eapply Permutation_in; [exact Hperm|]. apply in_or_app. now left. }
  unfold scored in Hin. apply in_map_iff in Hin as (it & <- & Hit). exact Hit.
Qed.

End Similarity.

(** ** lib/rag.ts: [buildContext] and [buildPrompt] *)

Module Rag.

Import JS.
Local Open Scope list_scope.
Local Open Scope string_scope.
Local Open Scope Z_scope.

Record ChunkSource : Type := mkChunk {
  filename : string;
  chunkIndex : Z;
  text : string
}.

(** An entry of [sources]: [{ filename, chunkIndex }]. *)
Record Source : Type := mkSource {
  source_filename : string;
  source_chunkIndex : Z
}.

Record BuiltContext : Type := mkBuilt {
  context : string;
  sources : list Source
}.

(** [`Source: ${chunk.filename}#${chunk.chunkIndex}\n${chunk.text}\n---\n`]. *)
Definition render (chunk : ChunkSource) : string :=
  "Source: " ++ filename chunk ++ "#" ++ string_of_Z (chunkIndex chunk) ++ nl
  ++ text chunk ++ nl ++ "---" ++ nl.

(** [`${filename}#${chunkIndex}`]. *)
Definition key (f : string) (i : Z) : string := f ++ "#" ++ string_of_Z i.

Definition source_of (chunk : ChunkSource) : Source :=
  mkSource (filename chunk) (chunkIndex chunk).

(** The variables of the [for] loop. *)
Record loop_state : Type := mkState {
  contextParts : list string;
  tracked : list Source;
  currentLength : Z
}.

(** [sources.some((s) => `${s.filename}#${s.chunkIndex}` === sourceKey)]. *)
Definition already_tracked (srcs : list Source) (sourceKey : string) : bool :=
  existsb (fun s => String.eqb (key (source_filename s) (source_chunkIndex s)) sourceKey) srcs.

Definition track (srcs : list Source) (chunk : ChunkSource) : list Source :=
  let sourceKey := key (filename chunk) (chunkIndex chunk) in
  if negb (already_tracked srcs sourceKey)
  then (srcs ++ [source_of chunk])%list
  else srcs.

(** [for (const chunk of chosen)], with its [break]. *)
Fixpoint for_chunks (chosen : list ChunkSource) (maxChars : Z) (st : loop_state)
  : loop_state :=
  match chosen with
  | [] => st
  | chunk :: rest =>
      let chunkText := render chunk in
      let chunkLength := len chunkText in
      if (currentLength st + chunkLength >? maxChars) && (currentLength st >? 0)
      then st
      else
        for_chunks rest maxChars
          (mkState (contextParts st ++ [chunkText])%list
                   (track (tracked st) chunk)
                   (currentLength st + chunkLength))
  end.

(** [parts.join('')]. *)
Definition join (parts : list string) : string := String.concat "" parts.

Definition buildContext (chosen : list ChunkSource) (maxChars : Z) : BuiltContext :=
  match chosen with
  | [] => mkBuilt "" []
  | _ =>
      let st := for_chunks chosen maxChars (mkState [] [] 0) in
      mkBuilt (join (contextParts st)) (tracked st)
  end.

(** [buildPrompt(question, context)]. *)
Definition buildPrompt (question context : string) : string :=
  "You are a helpful assistant. Use ONLY the context below to answer." ++ nl
  ++ "If the context does not contain the answer, say "
  ++ dquote ++ "I can't find that in the notes." ++ dquote ++ nl
  ++ "Cite sources as (filename#chunkIndex)." ++ nl
  ++ nl
  ++ "CONTEXT:" ++ nl
  ++ context ++ nl
  ++ nl
  ++ "QUESTION:" ++ nl
  ++ question ++ nl
  ++ nl
  ++ "ANSWER:" ++ nl.

(** *** The loop, characterised *)

Arguments render : simpl never.
Arguments len : simpl never.

Lemma join_cons (x : string) (l : list string) : join (x :: l) = x ++ join l.
Proof.
  unfold join. destruct l as [|y l]; simpl; [now rewrite append_empty_r | reflexivity].
Qed.

Lemma join_app (l1 l2 : list string) : join (l1 ++ l2)%list = join l1 ++ join l2.
Proof.
  induction l1 as [|x l1 IH]; [reflexivity|].
  change ((x :: l1) ++ l2)%list with (x :: (l1 ++ l2))%list.
  now rewrite !join_cons, IH, append_assoc.
Qed.

Lemma len_append (s t : string) : len (s ++ t) = len s + len t.
Proof. unfold len. rewrite length_append. lia. Qed.

(** The length of the rendering of a list of fragments. *)
Definition size (l : list ChunkSource) : Z := len (join (map render l)).

Arguments size : simpl never.

Lemma size_nil : size [] = 0.
Proof. reflexivity. Qed.

Lemma size_cons (c : ChunkSource) (l : list ChunkSource) :
  size (c :: l) = len (render c) + size l.
Proof. unfold size. simpl map. now rewrite join_cons, len_append. Qed.

Lemma render_pos (c : ChunkSource) : 0 < len (render c).
Proof.
  unfold render. rewrite len_append. change (len "Source: ") with 8.
  unfold len. lia.
Qed.

Lemma size_nonneg (l : list ChunkSource) : 0 <= size l.
Proof. unfold size, len. lia. Qed.

(** How many fragments the loop appends when it starts at length [cur]. *)
Fixpoint taken (chosen : list ChunkSource) (maxChars cur : Z) : nat :=
  match chosen with
  | [] => O
  | chunk :: rest =>
      if (cur + len (render chunk) >? maxChars) && (cur >? 0) then O
      else S (taken rest maxChars (cur + len (render chunk)))
  end.

Lemma for_chunks_spec (chosen : list ChunkSource) (maxChars : Z) (st : loop_state) :
  for_chunks chosen maxChars st =
  let included := firstn (taken chosen maxChars (currentLength st)) chosen in
  mkState (contextParts st ++ map render included)%list
          (fold_left track included (tracked st))
          (currentLength st + size included).
Proof.
  revert st. induction chosen as [|c rest IH]; intros [parts srcs cur]; simpl.
  - rewrite List.app_nil_r, size_nil. f_equal. lia.
  - destruct ((cur + len (render c) >? maxChars) && (cur >? 0)); simpl.
    + rewrite List.app_nil_r, size_nil. f_equal. lia.
    + rewrite IH. cbv zeta. cbn [currentLength contextParts tracked].
      rewrite size_cons, <- List.app_assoc.
      f_equal. lia.
Qed.

Lemma taken_le (chosen : list ChunkSource) (maxChars cur : Z) :
  (taken chosen maxChars cur <= List.length chosen)%nat.
Proof.
  revert cur. induction chosen as [|c rest IH]; intros cur; simpl; [lia|].
  destruct (_ && _); [lia|]. specialize (IH (cur + len (render c))). lia.
Qed.

(** Every fragment appended when the context is already non-empty leaves the
    total within the budget. *)
Lemma taken_within (chosen : list ChunkSource) (maxChars cur : Z) (j : nat) :
  0 <= cur ->
  (j < taken chosen maxChars cur)%nat ->
  0 < cur \/ (1 <= j)%nat ->
  cur + size (firstn (S j) chosen) <= maxChars.
Proof.
  revert cur j. induction chosen as [|c rest IH]; intros cur j Hcur Hj Hpos;
    simpl in Hj; [lia|].
  destruct ((cur + len (render c) >? maxChars) && (cur >? 0)) eqn:G; [lia|].
  pose proof (render_pos c) as Hc.
  change (firstn (S j) (c :: rest)) with (c :: firstn j rest).
  rewrite size_cons.
  destruct j as [|j].
  - destruct Hpos as [Hpos | Hpos]; [|lia].
    apply andb_false_iff in G as [G | G].
    + rewrite Z.gtb_ltb in G. apply Z.ltb_ge in G. cbn [firstn]. rewrite size_nil. lia.
    + rewrite Z.gtb_ltb in G. apply Z.ltb_ge in G. lia.
  - assert (H := IH (cur + len (render c)) j). 
    rewrite Z.add_assoc. apply H; lia.
Qed.

(** The loop stops on a fragment only when appending it would overflow. *)
Lemma taken_stop (chosen : list ChunkSource) (maxChars cur : Z) (c : ChunkSource) :
  nth_error chosen (taken chosen maxChars cur) = Some c ->
  cur + size (firstn (taken chosen maxChars cur) chosen) + len (render c) > maxChars
  /\ 0 < cur + size (firstn (taken chosen maxChars cur) chosen).
Proof.
  revert cur. induction chosen as [|c0 rest IH]; intros cur; simpl; [discriminate|].
  destruct ((cur + len (render c0) >? maxChars) && (cur >? 0)) eqn:G; simpl.
  - intros [= <-]. apply andb_prop in G as [G1 G2].
    apply Z.gtb_lt in G1, G2. rewrite size_nil. lia.
  - intros H. apply IH in H. rewrite size_cons. lia.
Qed.

Lemma taken_first (c : ChunkSource) (rest : list ChunkSource) (maxChars : Z) :
  (1 <= taken (c :: rest) maxChars 0)%nat.
Proof. simpl. rewrite andb_false_r. lia. Qed.

Lemma buildContext_spec (chosen : list ChunkSource) (maxChars : Z) :
  let included := firstn (taken chosen maxChars 0) chosen in
  buildContext chosen maxChars =
  mkBuilt (join (map render included)) (fold_left track included []).
Proof.
  destruct chosen as [|c rest]; [reflexivity|].
  unfold buildContext. now rewrite for_chunks_spec.
Qed.

(** At least one fragment gives a non-empty context. *)
Lemma buildContext_nonempty (chosen : list ChunkSource) (maxChars : Z) :
  chosen <> [] -> 0 < len (context (buildContext chosen maxChars)).
Proof.
  intros Hne. rewrite buildContext_spec. cbv zeta. cbn [context].
  destruct chosen as [|c rest]; [contradiction|].
  pose proof (taken_first c rest maxChars) as H1.
  destruct (taken (c :: rest) maxChars 0) as [|k]; [lia|].
  cbn [firstn]. fold (size (c :: firstn k rest)). rewrite size_cons.
  pose proof (render_pos c). pose proof (size_nonneg (firstn k rest)). lia.
Qed.

(** *** The tracked sources *)

Definition source_eqb (p q : Source) : bool :=
  String.eqb (source_filename p) (source_filename q)
  && (source_chunkIndex p =? source_chunkIndex q).

Lemma source_eqb_eq (p q : Source) : source_eqb p q = true <-> p = q.
Proof.
  destruct p as [f i], q as [g j]. unfold source_eqb. simpl.
  rewrite andb_true_iff, String.eqb_eq, Z.eqb_eq.
  split; [intros [-> ->]; reflexivity | intros [= -> ->]; now split].
Qed.

Lemma source_eqb_refl (p : Source) : source_eqb p p = true.
Proof. now apply source_eqb_eq. Qed.

Lemma source_eqb_sym (p q : Source) : source_eqb p q = source_eqb q p.
Proof.
  destruct (source_eqb p q) eqn:E.
  - apply source_eqb_eq in E as ->. now rewrite source_eqb_refl.
  - destruct (source_eqb q p) eqn:E'; [|reflexivity].
    apply source_eqb_eq in E' as ->. now rewrite source_eqb_refl in E.
Qed.

(** Two keys are equal only for the same file name and the same index. *)
Lemma key_inj (f1 f2 : string) (i1 i2 : Z) :
  key f1 i1 = key f2 i2 -> f1 = f2 /\ i1 = i2.
Proof.
  unfold key. intros H.
  apply append_hash_inj in H as [Hf Hi]; auto using no_hash_string_of_Z.
  split; [exact Hf | now apply string_of_Z_inj].
Qed.

Lemma key_eqb (p q : Source) :
  String.eqb (key (source_filename p) (source_chunkIndex p))
             (key (source_filename q) (source_chunkIndex q))
  = source_eqb p q.
Proof.
  destruct (source_eqb p q) eqn:E.
  - apply source_eqb_eq in E as ->. apply String.eqb_refl.
  - apply String.eqb_neq. intros H. apply key_inj in H as [Hf Hi].
    destruct p, q; simpl in *; subst. now rewrite source_eqb_refl in E.
Qed.

(** [p] is among [srcs]. *)
Definition seen (srcs : list Source) (p : Source) : bool :=
  existsb (fun s => source_eqb s p) srcs.

Lemma already_tracked_seen (srcs : list Source) (c : ChunkSource) :
  already_tracked srcs (key (filename c) (chunkIndex c)) = seen srcs (source_of c).
Proof.
  unfold already_tracked, seen. induction srcs as [|s srcs IH]; simpl; [reflexivity|].
  rewrite IH. f_equal. exact (key_eqb s (source_of c)).
Qed.

Lemma seen_In (srcs : list Source) (p : Source) : seen srcs p = true <-> In p srcs.
Proof.
  unfold seen. rewrite existsb_exists. split.
  - intros (s & Hs & E). now apply source_eqb_eq in E as <-.
  - intros H. exists p. split; [exact H | apply source_eqb_refl].
Qed.

(** The first occurrence of every entry, in order: the reference for
    "deduplicated in first-seen order". *)
Fixpoint first_seen (l : list Source) : list Source :=
  match l with
  | [] => []
  | p :: l' => p :: filter (fun q => negb (source_eqb q p)) (first_seen l')
  end.

Lemma first_seen_In (l : list Source) (p : Source) : In p (first_seen l) <-> In p l.
Proof.
  induction l as [|q l IH]; simpl; [reflexivity|].
  rewrite filter_In, IH, negb_true_iff.
  destruct (source_eqb p q) eqn:E.
  - apply source_eqb_eq in E as ->. split; auto.
  - split; [intros [H | [H _]]; auto | intros [H | H]; auto].
Qed.

Lemma first_seen_NoDup (l : list Source) : NoDup (first_seen l).
Proof.
  induction l as [|p l IH]; simpl; constructor.
  - rewrite filter_In, source_eqb_refl. now intros [_ H].
  - now apply NoDup_filter.
Qed.

Lemma filter_filter (A : Type) (f g : A -> bool) (l : list A) :
  filter f (filter g l) = filter (fun x => f x && g x) l.
Proof.
  induction l as [|x l IH]; simpl; [reflexivity|].
  destruct (g x); simpl; rewrite ?andb_true_r, ?andb_false_r.
  - destruct (f x); now rewrite IH.
  - exact IH.
Qed.

(** The loop's way of tracking, started from [acc], adds the first
    occurrences that are not in [acc] yet. *)
Lemma fold_track (l : list ChunkSource) (acc : list Source) :
  fold_left track l acc =
  (acc ++ filter (fun q => negb (seen acc q)) (first_seen (map source_of l)))%list.
Proof.
  revert acc. induction l as [|c l IH]; intros acc; simpl.
  - now rewrite List.app_nil_r.
  - rewrite IH. unfold track. rewrite already_tracked_seen.
    destruct (seen acc (source_of c)) eqn:E; simpl.
    + f_equal. rewrite filter_filter. apply filter_ext. intros q.
      destruct (seen acc q) eqn:Eq; simpl; [reflexivity|].
      destruct (source_eqb q (source_of c)) eqn:E'; [|reflexivity].
      apply source_eqb_eq in E' as ->. congruence.
    + rewrite <- List.app_assoc. simpl. do 2 f_equal.
      rewrite filter_filter. apply filter_ext. intros q.
      unfold seen. rewrite existsb_app. simpl. rewrite orb_false_r.
      now rewrite negb_orb, (source_eqb_sym (source_of c) q).
Qed.

Lemma fold_track_first_seen (l : list ChunkSource) :
  fold_left track l [] = first_seen (map source_of l).
Proof.
  rewrite fold_track. cbn [app].
  transitivity (filter (fun _ => true) (first_seen (map source_of l))).
  - apply filter_ext. reflexivity.
  - apply filter_true.
Qed.

(** *** The claims about [buildContext] *)

(** C5, as the claim states it, fails for the empty list under a negative
    budget: the context is empty, its length 0 exceeds [maxChars = -1], and
    there is no first fragment to account for it. *)
Lemma buildContext_empty_negative_budget :
  ~ (len (context (buildContext [] (-1))) <= -1
     \/ exists c rest, @nil ChunkSource = c :: rest
                       /\ context (buildContext [] (-1)) = render c
                       /\ len (render c) > -1).
Proof.
  intros [H | (c & rest & H & _)]; [|discriminate].
  vm_compute in H. now apply H.
Qed.

(** C5 (amended). For every fragment list and every maxChars ([maxChars >= 0]
    when the list is empty), buildContext appends a prefix of the fragments
    in the given order: the first one always; each later one only when the
    total stays within maxChars; it stops at the first fragment that would
    overflow, without looking further; so the context is within maxChars
    unless it is the first fragment's rendering alone and that exceeds it. *)
Theorem buildContext_greedy (chosen : list ChunkSource) (maxChars : Z) :
  (chosen = [] -> 0 <= maxChars) ->
  exists k : nat,
    (k <= List.length chosen)%nat
    /\ context (buildContext chosen maxChars) = join (map render (firstn k chosen))
    /\ (chosen <> [] -> (1 <= k)%nat)
    /\ (forall j, (1 <= j < k)%nat -> size (firstn (S j) chosen) <= maxChars)
    /\ (forall c, nth_error chosen k = Some c ->
          size (firstn k chosen) + len (render c) > maxChars)
    /\ (len (context (buildContext chosen maxChars)) <= maxChars
        \/ exists c rest, chosen = c :: rest
                          /\ context (buildContext chosen maxChars) = render c
                          /\ len (render c) > maxChars).
Proof.
  intros Hempty. exists (taken chosen maxChars 0).
  rewrite buildContext_spec. cbv zeta. cbn [context].
  assert (Hwithin : forall j, (1 <= j < taken chosen maxChars 0)%nat ->
                      size (firstn (S j) chosen) <= maxChars).
  { intros j Hj. apply (@taken_within chosen maxChars 0 j); lia. }
  split; [apply taken_le|].
  split; [reflexivity|].
  split; [intros Hne; destruct chosen; [contradiction | apply taken_first]|].
  split; [exact Hwithin|].
  split; [intros c Hc; apply taken_stop in Hc; lia|].
  fold (size (firstn (taken chosen maxChars 0) chosen)).
  destruct chosen as [|c rest].
  - left. simpl. rewrite size_nil. auto.
  - pose proof (taken_first c rest maxChars) as H1.
    destruct (taken (c :: rest) maxChars 0) as [|[|k]] eqn:Ek; [lia | |].
    + cbn [firstn]. destruct (Z.leb_spec (size [c]) maxChars) as [Hle | Hgt].
      * now left.
      * right. exists c, rest. unfold size in *. cbn [map] in *.
        rewrite join_cons in *. unfold join in *. cbn [String.concat] in *.
        rewrite append_empty_r in *. repeat split; [lia].
    + left. apply Hwithin. lia.
Qed.

(** Two fragments of 22 characters each once rendered. *)
Definition two_chunks : list ChunkSource :=
  [mkChunk "a.pdf" 0 "x"; mkChunk "b.pdf" 1 "y"].

Lemma buildContext_greedy_witness :
  exists k : nat,
    (k <= List.length two_chunks)%nat
    /\ context (buildContext two_chunks 30) = join (map render (firstn k two_chunks))
    /\ (two_chunks <> [] -> (1 <= k)%nat)
    /\ (forall j, (1 <= j < k)%nat -> size (firstn (S j) two_chunks) <= 30)
    /\ (forall c, nth_error two_chunks k = Some c ->
          size (firstn k two_chunks) + len (render c) > 30)
    /\ (len (context (buildContext two_chunks 30)) <= 30
        \/ exists c rest, two_chunks = c :: rest
                          /\ context (buildContext two_chunks 30) = render c
                          /\ len (render c) > 30).
Proof.
  apply (@buildContext_greedy two_chunks 30).
  discriminate.
Defined.

(** C10. For every input, the sources returned by buildContext are the
    (filename, chunkIndex) pairs of the fragments included in the context,
    each pair once, in the order the pairs first appear; a fragment cut off
    by the budget adds nothing. *)
Theorem buildContext_sources (chosen : list ChunkSource) (maxChars : Z) :
  exists k : nat,
    (k <= List.length chosen)%nat
    /\ context (buildContext chosen maxChars) = join (map render (firstn k chosen))
    /\ sources (buildContext chosen maxChars)
       = first_seen (map source_of (firstn k chosen))
    /\ NoDup (sources (buildContext chosen maxChars))
    /\ (forall p, In p (sources (buildContext chosen maxChars))
                  <-> In p (map source_of (firstn k chosen))).
Proof.
  exists (taken chosen maxChars 0).
  rewrite buildContext_spec. cbv zeta. cbn [context sources].
  rewrite fold_track_first_seen.
  repeat split; auto using taken_le, first_seen_NoDup; now apply first_seen_In.
Qed.

Example buildContext_two :
  buildContext [mkChunk "a.pdf" 0 "x"; mkChunk "a.pdf" 0 "x"; mkChunk "b.pdf" 12 "yz"] 100
  = mkBuilt ("Source: a.pdf#0" ++ nl ++ "x" ++ nl ++ "---" ++ nl
             ++ "Source: a.pdf#0" ++ nl ++ "x" ++ nl ++ "---" ++ nl
             ++ "Source: b.pdf#12" ++ nl ++ "yz" ++ nl ++ "---" ++ nl)
            [mkSource "a.pdf" 0; mkSource "b.pdf" 12].
Proof. reflexivity. Qed.

(** *** Further properties of [buildContext] *)

Lemma taken_all (chosen : list ChunkSource) (maxChars cur : Z) :
  cur + size chosen <= maxChars ->
  taken chosen maxChars cur = List.length chosen.
Proof.
  revert cur. induction chosen as [|c rest IH]; intros cur H; simpl; [reflexivity|].
  rewrite size_cons in H. pose proof (size_nonneg rest) as Hrest.
  replace (cur + len (render c) >? maxChars) with false
    by (symmetry; rewrite Z.gtb_ltb; apply Z.ltb_ge; lia).
  cbn [andb]. f_equal. apply IH. lia.
Qed.

Lemma taken_mono (chosen : list ChunkSource) (m1 m2 cur : Z) :
  m1 <= m2 -> (taken chosen m1 cur <= taken chosen m2 cur)%nat.
Proof.
  intros Hm. revert cur. induction chosen as [|c rest IH]; intros cur; simpl; [lia|].
  destruct (cur >? 0); rewrite ?andb_true_r, ?andb_false_r.
  - destruct (cur + len (render c) >? m1) eqn:E1; [lia|].
    replace (cur + len (render c) >? m2) with false.
    + specialize (IH (cur + len (render c))). lia.
    + symmetry. rewrite Z.gtb_ltb in *. apply Z.ltb_ge. apply Z.ltb_ge in E1. lia.
  - specialize (IH (cur + len (render c))). lia.
Qed.

Lemma firstn_le_split (A : Type) (k1 k2 : nat) (l : list A) :
  (k1 <= k2)%nat -> firstn k2 l = (firstn k1 l ++ firstn (k2 - k1) (skipn k1 l))%list.
Proof.
  revert k2 l. induction k1 as [|k1 IH]; intros k2 l H.
  - now rewrite Nat.sub_0_r.
  - destruct k2 as [|k2]; [lia|]. destruct l as [|x l].
    + cbn [firstn skipn app]. now rewrite firstn_nil.
    + cbn [firstn skipn Nat.sub app]. f_equal. apply IH. lia.
Qed.

(** X11. When the rendering of all the fragments fits the budget, the
    context is all of them, in order, and the sources are the distinct
    (filename, chunkIndex) pairs of all of them: nothing is left out. *)
Theorem buildContext_takes_all_that_fit (chosen : list ChunkSource) (maxChars : Z) :
  size chosen <= maxChars ->
  buildContext chosen maxChars
  = mkBuilt (join (map render chosen)) (first_seen (map source_of chosen)).
Proof.
  intros H. rewrite buildContext_spec. cbv zeta.
  rewrite taken_all by lia. rewrite firstn_all.
  now rewrite fold_track_first_seen.
Qed.

Lemma buildContext_takes_all_that_fit_witness :
  buildContext two_chunks 44
  = mkBuilt (join (map render two_chunks)) (first_seen (map source_of two_chunks)).
Proof.
  apply (@buildContext_takes_all_that_fit two_chunks 44). vm_compute. discriminate.
Defined.

(** X12. A larger budget never loses anything: the context built under
    [m2 >= m1] begins with the context built under [m1], and its sources
    begin with the sources built under [m1]. *)
Theorem buildContext_grows_with_budget (chosen : list ChunkSource) (m1 m2 : Z) :
  m1 <= m2 ->
  exists more more_sources,
    context (buildContext chosen m2) = context (buildContext chosen m1) ++ more
    /\ sources (buildContext chosen m2)
       = (sources (buildContext chosen m1) ++ more_sources)%list.
Proof.
  intros Hm. rewrite !buildContext_spec. cbv zeta. cbn [context sources].
  pose proof (@taken_mono chosen m1 m2 0 Hm) as Hk.
  rewrite (@firstn_le_split _ (taken chosen m1 0) (taken chosen m2 0) chosen Hk).
  set (kept := firstn (taken chosen m1 0) chosen).
  set (extra := firstn (taken chosen m2 0 - taken chosen m1 0)
                       (skipn (taken chosen m1 0) chosen)).
  exists (join (map render extra)).
  rewrite map_app, join_app, fold_left_app.
  rewrite (fold_track extra). eexists. split; reflexivity.
Qed.

Lemma buildContext_grows_with_budget_witness :
  exists more more_sources,
    context (buildContext two_chunks 44) = context (buildContext two_chunks 30) ++ more
    /\ sources (buildContext two_chunks 44)
       = (sources (buildContext two_chunks 30) ++ more_sources)%list.
Proof.
  apply (@buildContext_grows_with_budget two_chunks 30 44). lia.
Defined.

End Rag.

(** ** app/api/query/route.ts and app/api/query-stream/route.ts: the two
    [POST] handlers

    The request body is taken as parsed ([question] a string, [conversationId]
    a number).  The collaborators of a handler are the fields of a [World]:
    the store (Prisma), the embedder, the full-text prefilter and the
    generator.  Writing the messages back to the store is left out: its
    failure is caught and does not change the response. *)

Module Query.

Import JS.
Local Open Scope string_scope.
Local Open Scope list_scope.

(** The [Json] column [Embedding.vector]. *)
Inductive Json : Type :=
| JArray (v : list float)
| JOther.

Record DocumentRow : Type := mkDocument {
  filename : string;
  conversationId : Z
}.

Record ChunkRow : Type := mkChunkRow {
  documentId : Z;
  chunkIndex : Z;
  text : string;
  document : DocumentRow
}.

(** An [Embedding] row with its [chunk] and the chunk's [document] included. *)
Record EmbeddingRow : Type := mkEmbedding {
  chunkId : Z;
  vector : Json;
  chunk : ChunkRow
}.

Record Config : Type := mkConfig {
  TOP_K : Z;
  MAX_CONTEXT_CHARS : Z;
  MAX_EMBEDDINGS_SEARCH : nat
}.

(** The values used when the environment sets none. *)
Definition defaults : Config := mkConfig 5 3000 1000.

Record Request : Type := mkRequest {
  question : string;
  request_conversationId : Z
}.

Record World : Type := mkWorld {
  (** ids of the conversations in the store *)
  conversations : list Z;
  (** the [Embedding] table, in the order [findMany] yields its rows *)
  embeddings : list EmbeddingRow;
  (** [embedWithOllama([question])] *)
  embedWithOllama : string -> promise (list (list float));
  (** the [$queryRaw] over [chunk_fts]: the matching row ids, best first *)
  ftsQuery : string -> Z -> promise (list Z);
  (** [generateWithOllama(prompt)], raced against the 90 s timeout *)
  generateWithOllama : string -> promise string
}.

Record SourceRef : Type := mkSourceRef {
  ref_documentId : Z;
  ref_chunkId : Z;
  ref_filename : string;
  ref_chunkIndex : Z
}.

Inductive Response : Type :=
(** [{ error }] with a status *)
| ErrorJson (status : Z) (error : string)
(** [{ answer, sources, used: { k, model } }], status 200 *)
| AnswerJson (answer : string) (sources : list SourceRef) (k : nat)
(** the event stream, status 200: the sources, then the deltas that
    [generateStreamWithOllama(prompt)] yields *)
| EventStream (prompt : string) (sources : list SourceRef).

Definition no_embedded_content : string :=
  "No embedded content in this conversation yet. Upload some documents first.".

Definition no_context : string :=
  "No context could be built from retrieved chunks".

(** [question.replace(/'/g, "''")]. *)
Fixpoint escape_quotes (s : string) : string :=
  match s with
  | EmptyString => EmptyString
  | String c s' =>
      if Ascii.eqb c "'" then String "'" (String "'" (escape_quotes s'))
      else String c (escape_quotes s')
  end.

(** The [try]/[catch] around the prefilter: a failure leaves
    [candidateChunkIds] empty. *)
Definition prefilter (w : World) (req : Request) : list Z :=
  match ftsQuery w (escape_quotes (question req)) (request_conversationId req) with
  | Resolved ids => ids
  | Rejected _ => []
  end.

Definition in_scope (conversation : Z) (emb : EmbeddingRow) : bool :=
  (conversationId (document (chunk emb)) =? conversation)%Z.

(** [prisma.embedding.findMany({ take, where: { chunk: { id in ids (when
    there are ids), document: { conversationId } } } })]. *)
Definition findMany (cfg : Config) (w : World) (conversation : Z)
  (candidateChunkIds : list Z) : list EmbeddingRow :=
  firstn (MAX_EMBEDDINGS_SEARCH cfg)
    (filter (fun emb =>
               (if (0 <? List.length candidateChunkIds)%nat
                then existsb (Z.eqb (chunkId emb)) candidateChunkIds
                else true)
               && in_scope conversation emb)
            (embeddings w)).

(** [Array.isArray(vec) && vec.length > 0]. *)
Definition usable (emb : EmbeddingRow) : bool :=
  match vector emb with
  | JArray v => (0 <? List.length v)%nat
  | JOther => false
  end.

Definition to_item (emb : EmbeddingRow) : Similarity.VectorItem :=
  Similarity.mkItem
    (chunkId emb)
    (match vector emb with JArray v => v | JOther => [] end)
    (documentId (chunk emb))
    (chunkIndex (chunk emb))
    (filename (document (chunk emb)))
    (text (chunk emb)).

(** [embeddings.filter(...).map(...)]. *)
Definition vectorRows (fetched : list EmbeddingRow) : list Similarity.VectorItem :=
  map to_item (filter usable fetched).

Definition to_chunk (c : Similarity.Ranked) : Rag.ChunkSource :=
  Rag.mkChunk (Similarity.filename (Similarity.item c))
              (Similarity.chunkIndex (Similarity.item c))
              (Similarity.text (Similarity.item c)).

(** [sources.map((s) => ...)]: the ids of the first chosen chunk with the
    source's file name and index, 0 when there is none. *)
Definition sourcesWithDocId (chosen : list Similarity.Ranked) (sources : list Rag.Source)
  : list SourceRef :=
  map (fun s =>
         let matchedChunk :=
           find (fun c =>
                   String.eqb (Similarity.filename (Similarity.item c)) (Rag.source_filename s)
                   && (Similarity.chunkIndex (Similarity.item c) =? Rag.source_chunkIndex s)%Z)
                chosen in
         mkSourceRef
           (match matchedChunk with Some c => Similarity.docId (Similarity.item c) | None => 0%Z end)
           (match matchedChunk with Some c => Similarity.id (Similarity.item c) | None => 0%Z end)
           (Rag.source_filename s)
           (Rag.source_chunkIndex s))
      sources.

(** What both handlers do, in the same words, from the validation of the
    request to [buildContext]: an early response, or the chosen chunks with
    the context built from them. *)
Record Retrieved : Type := mkRetrieved {
  chosen : list Similarity.Ranked;
  built : Rag.BuiltContext
}.

Definition retrieve (cfg : Config) (w : World) (req : Request)
  : outcome (Response + Retrieved) :=
  if negb (truthy (question req)) || (len (trim (question req)) =? 0)%Z then
    Returned (inl (ErrorJson 400 "Valid question string is required"))
  else if (request_conversationId req =? 0)%Z then
    Returned (inl (ErrorJson 400 "No conversationId. Create a chat first."))
  else if negb (existsb (Z.eqb (request_conversationId req)) (conversations w)) then
    Returned (inl (ErrorJson 404
      ("Conversation with id " ++ string_of_Z (request_conversationId req) ++ " not found")))
  else
    questionEmbeddings <- await (embedWithOllama w (question req)) ;;
    match questionEmbeddings with
    | [] => Returned (inl (ErrorJson 500 "Failed to create question embedding"))
    | [] :: _ => Returned (inl (ErrorJson 500 "Failed to create question embedding"))
    | queryVector :: _ =>
        let candidateChunkIds := prefilter w req in
        let fetched := findMany cfg w (request_conversationId req) candidateChunkIds in
        if (List.length fetched =? 0)%nat then
          Returned (inl (ErrorJson 422 no_embedded_content))
        else
          chosen <- Similarity.rankByCosine queryVector (vectorRows fetched) (TOP_K cfg) ;;
          Returned (inr (mkRetrieved chosen
                           (Rag.buildContext (map to_chunk chosen) (MAX_CONTEXT_CHARS cfg))))
    end.

(** The outer [catch]: status 500 with the message of the error. *)
Definition or_else (message fallback : string) : string :=
  if truthy message then message else fallback.

Definition catch_all (fallback : string) (m : outcome Response) : outcome Response :=
  match m with
  | Threw e => Returned (ErrorJson 500 (or_else (error_message e) fallback))
  | other => other
  end.

(** query/route.ts line 170 and query-stream/route.ts line 163. *)
Definition prompt_single (question context : string) : string :=
  Rag.buildPrompt question context.

Definition prompt_stream (question context : string) : string :=
  Rag.buildPrompt context question.

(** The [catch] around the generation of the answer. *)
Definition generation_failed (e : js_error) : Response :=
  let message := error_message e in
  if includes message "Cannot connect to Ollama server" then ErrorJson 503 message
  else if includes message "not found" || includes message "Pull LLM model"
       then ErrorJson 404 message
       else ErrorJson 500 (or_else message "Failed to generate answer").

(** [POST] of app/api/query/route.ts. *)
Definition POST_query (cfg : Config) (w : World) (req : Request) : outcome Response :=
  catch_all "An unexpected error occurred during query processing"
    (r <- retrieve cfg w req ;;
     match r with
     | inl early => Returned early
     | inr got =>
         let context := Rag.context (built got) in
         if (len context =? 0)%Z then Returned (ErrorJson 422 no_context)
         else
           let prompt := prompt_single (question req) context in
           match generateWithOllama w prompt with
           | Resolved answer =>
               Returned (AnswerJson (trim answer)
                           (sourcesWithDocId (chosen got) (Rag.sources (built got)))
                           (List.length (chosen got)))
           | Rejected e => Returned (generation_failed e)
           end
     end).

(** [POST] of app/api/query-stream/route.ts. *)
Definition POST_query_stream (cfg : Config) (w : World) (req : Request)
  : outcome Response :=
  catch_all "An unexpected error occurred"
    (r <- retrieve cfg w req ;;
     match r with
     | inl early => Returned early
     | inr got =>
         let context := Rag.context (built got) in
         let prompt := prompt_stream (question req) context in
         Returned (EventStream prompt
                     (sourcesWithDocId (chosen got) (Rag.sources (built got))))
     end).

(** *** Lemmas *)

(** The request passes the checks made before the question is embedded. *)
Definition well_formed (w : World) (req : Request) : Prop :=
  trim (question req) <> ""
  /\ request_conversationId req <> 0%Z
  /\ In (request_conversationId req) (conversations w).

(** The embeddings the handler fetches for the request. *)
Definition fetched (cfg : Config) (w : World) (req : Request) : list EmbeddingRow :=
  findMany cfg w (request_conversationId req) (prefilter w req).

(** The embeddings of the conversation's documents. *)
Definition scope (w : World) (req : Request) : list EmbeddingRow :=
  filter (in_scope (request_conversationId req)) (embeddings w).

Lemma prefilter_empty (w : World) (req : Request) :
  prefilter w req = [] <->
  (forall ids,
     ftsQuery w (escape_quotes (question req)) (request_conversationId req) = Resolved ids ->
     ids = []).
Proof.
  unfold prefilter.
  destruct (ftsQuery w _ _) as [ids | e]; split; intros H; try reflexivity; try discriminate.
  - now intros ? [= <-].
  - now apply H.
Qed.

Lemma retrieve_fetched (cfg : Config) (w : World) (req : Request)
  (qv : list float) (qes : list (list float)) :
  well_formed w req ->
  embedWithOllama w (question req) = Resolved (qv :: qes) -> qv <> [] ->
  retrieve cfg w req =
  if (List.length (fetched cfg w req) =? 0)%nat
  then Returned (inl (ErrorJson 422 no_embedded_content))
  else
    chosen <- Similarity.rankByCosine qv (vectorRows (fetched cfg w req)) (TOP_K cfg) ;;
    Returned (inr (mkRetrieved chosen
                     (Rag.buildContext (map to_chunk chosen) (MAX_CONTEXT_CHARS cfg)))).
Proof.
  intros (Hq & Hc & Hconv) Hembed Hqv. unfold retrieve, fetched.
  assert (Htruthy : truthy (question req) = true).
  { destruct (question req); [now contradiction Hq | reflexivity]. }
  assert (Hlen : (len (trim (question req)) =? 0)%Z = false).
  { destruct (trim (question req)); [contradiction | reflexivity]. }
  rewrite Htruthy, Hlen. cbn [negb orb].
  replace (request_conversationId req =? 0)%Z with false
    by (symmetry; now apply Z.eqb_neq).
  replace (existsb (Z.eqb (request_conversationId req)) (conversations w)) with true.
  2:{ symmetry. apply existsb_exists. eexists. split; [exact Hconv | apply Z.eqb_refl]. }
  cbn [negb]. rewrite Hembed. cbn [await bind].
  destruct qv; [contradiction | reflexivity].
Qed.

(** Every request gets a response. *)
Lemma retrieve_completes (cfg : Config) (w : World) (req : Request) :
  retrieve cfg w req <> OutOfFuel.
Proof.
  unfold retrieve.
  destruct (_ || _); [discriminate|].
  destruct (_ =? _)%Z; [discriminate|].
  destruct (negb _); [discriminate|].
  destruct (embedWithOllama w (question req)) as [[|[|x qv] qes] | e]; simpl;
    try discriminate.
  destruct (_ =? _)%nat; [discriminate|].
  pose proof (@Similarity.rankByCosine_completes (x :: qv)
                (vectorRows (findMany cfg w (request_conversationId req) (prefilter w req)))
                (TOP_K cfg)) as H.
  destruct (Similarity.rankByCosine _ _ _); simpl;
    [discriminate | discriminate | contradiction].
Qed.

Lemma POST_query_responds (cfg : Config) (w : World) (req : Request) :
  exists response, POST_query cfg w req = Returned response.
Proof.
  unfold POST_query. pose proof (retrieve_completes cfg w req) as H.
  destruct (retrieve cfg w req) as [[early | got] | e |]; simpl;
    [eauto | | eauto | contradiction].
  destruct (_ =? _)%Z; simpl; [eauto|].
  destruct (generateWithOllama w _); simpl; eauto.
Qed.

Lemma POST_query_stream_responds (cfg : Config) (w : World) (req : Request) :
  exists response, POST_query_stream cfg w req = Returned response.
Proof.
  unfold POST_query_stream. pose proof (retrieve_completes cfg w req) as H.
  destruct (retrieve cfg w req) as [[early | got] | e |]; simpl;
    [eauto | eauto | eauto | contradiction].
Qed.

(** With no candidate ids the fetch is over the whole scope, up to the limit. *)
Lemma fetched_fallback (cfg : Config) (w : World) (req : Request) :
  prefilter w req = [] ->
  fetched cfg w req = firstn (MAX_EMBEDDINGS_SEARCH cfg) (scope w req).
Proof.
  intros H. unfold fetched, findMany, scope. rewrite H. reflexivity.
Qed.

Lemma vectorRows_nonempty (rows : list EmbeddingRow) :
  (exists emb, In emb rows /\ usable emb = true) -> vectorRows rows <> [].
Proof.
  intros (emb & Hin & Hu) H. unfold vectorRows in H.
  apply map_eq_nil in H.
  assert (Hf : In emb (filter usable rows)) by (apply filter_In; now split).
  rewrite H in Hf. exact Hf.
Qed.

Lemma vectorRows_usable (rows : list EmbeddingRow) :
  Forall (fun it => Similarity.vector it <> []) (vectorRows rows).
Proof.
  unfold vectorRows. apply Forall_forall. intros it Hit.
  apply in_map_iff in Hit as (emb & <- & Hemb).
  apply filter_In in Hemb as [_ Hu]. unfold usable in Hu. unfold to_item. simpl.
  destruct (vector emb) as [v|]; [|discriminate].
  destruct v; [discriminate | discriminate].
Qed.

Lemma len_zero (s : string) : (len s =? 0)%Z = true <-> s = "".
Proof.
  destruct s; simpl; split; intros H; try reflexivity; try discriminate.
Qed.

(** *** The claims about the handlers *)

Definition bad_row : EmbeddingRow :=
  mkEmbedding 1 (JArray []) (mkChunkRow 1 0 "empty" (mkDocument "a.pdf" 1)).

Definition good_row : EmbeddingRow :=
  mkEmbedding 2 (JArray [1; 0]%float) (mkChunkRow 1 1 "useful" (mkDocument "a.pdf" 1)).

Definition ask : Request := mkRequest "what?" 1.

Definition fts_fails (q : string) (conversation : Z) : promise (list Z) :=
  Rejected (OtherError "fts5: syntax error").

Definition embed_unit (q : string) : promise (list (list float)) :=
  Resolved [[1; 0]%float].

Definition answers (prompt : string) : promise string := Resolved "an answer".

(** A thousand unusable embeddings ahead of a usable one, and a failing
    prefilter. *)
Definition crowded_world : World :=
  mkWorld [1%Z] (repeat bad_row 1000 ++ [good_row]) embed_unit fts_fails answers.

(** One usable embedding, and a failing prefilter. *)
Definition small_world : World :=
  mkWorld [1%Z] [good_row] embed_unit fts_fails answers.

(** One unusable embedding. *)
Definition unusable_world : World :=
  mkWorld [1%Z] [bad_row] embed_unit fts_fails answers.

(** C3, as the claim states it, fails under the defaults when the scope holds
    more than [MAX_EMBEDDINGS_SEARCH] embeddings: the prefilter fails, a
    usable embedding is in scope, yet it is not among the candidates and the
    query ends in an error. *)
Lemma fallback_is_cut_at_the_search_limit :
  prefilter crowded_world ask = []
  /\ existsb usable (scope crowded_world ask) = true
  /\ fetched defaults crowded_world ask <> scope crowded_world ask
  /\ POST_query defaults crowded_world ask = Returned (ErrorJson 422 no_context).
Proof.
  repeat split; try (vm_compute; reflexivity).
  intros H. apply (f_equal (@List.length EmbeddingRow)) in H.
  vm_compute in H. discriminate.
Qed.

(** C3 (amended). When the prefilter fails or returns no ids, the handlers go
    on with the embeddings of the conversation's documents as candidates, the
    first [MAX_EMBEDDINGS_SEARCH] of them; and whenever one of those is usable
    (and [TOP_K > 0]) the retrieval succeeds with a non-empty context: the
    streaming handler answers with the event stream and the single-completion
    handler with the answer, once the generator returns one. *)
Theorem prefilter_fallback (cfg : Config) (w : World) (req : Request)
  (qv : list float) (qes : list (list float)) :
  well_formed w req ->
  embedWithOllama w (question req) = Resolved (qv :: qes) -> qv <> [] ->
  prefilter w req = [] ->
  fetched cfg w req = firstn (MAX_EMBEDDINGS_SEARCH cfg) (scope w req)
  /\ ((0 < TOP_K cfg)%Z ->
      (exists emb, In emb (fetched cfg w req) /\ usable emb = true) ->
      exists got,
        retrieve cfg w req = Returned (inr got)
        /\ chosen got <> []
        /\ Rag.context (built got) <> ""
        /\ POST_query_stream cfg w req =
           Returned (EventStream
                       (prompt_stream (question req) (Rag.context (built got)))
                       (sourcesWithDocId (chosen got) (Rag.sources (built got))))
        /\ (forall answer,
              generateWithOllama w (prompt_single (question req) (Rag.context (built got)))
              = Resolved answer ->
              POST_query cfg w req =
              Returned (AnswerJson (trim answer)
                          (sourcesWithDocId (chosen got) (Rag.sources (built got)))
                          (List.length (chosen got))))).
Proof.
  intros Hwf Hembed Hqv Hpre. split; [now apply fetched_fallback|].
  intros HK Husable.
  pose proof (retrieve_fetched cfg Hwf Hembed Hqv) as Hret.
  assert (Hrows : vectorRows (fetched cfg w req) <> []) by now apply vectorRows_nonempty.
  destruct Husable as (emb & Hin & _).
  replace (List.length (fetched cfg w req) =? 0)%nat with false in Hret
    by (destruct (fetched cfg w req); [contradiction | reflexivity]).
  destruct (Similarity.rankByCosine_returns qv HK Hrows) as (result & Hrank & Hne).
  rewrite Hrank in Hret. cbn [bind] in Hret.
  eexists. split; [exact Hret|]. cbn [chosen built].
  assert (Hctx : (0 < len (Rag.context
                    (Rag.buildContext (map to_chunk result) (MAX_CONTEXT_CHARS cfg))))%Z).
  { apply Rag.buildContext_nonempty. intros H. apply map_eq_nil in H. contradiction. }
  split; [exact Hne|]. split.
  { intros H. rewrite H in Hctx. now vm_compute in Hctx. }
  split.
  - unfold POST_query_stream. rewrite Hret. reflexivity.
  - intros answer Hanswer. unfold POST_query. rewrite Hret. cbn [bind chosen built].
    replace (len (Rag.context (Rag.buildContext (map to_chunk result) (MAX_CONTEXT_CHARS cfg))) =? 0)%Z
      with false by (symmetry; apply Z.eqb_neq; lia).
    rewrite Hanswer. reflexivity.
Qed.

Lemma ask_well_formed (w : World) : conversations w = [1%Z] -> well_formed w ask.
Proof.
  intros H. unfold well_formed. rewrite H. repeat split.
  - vm_compute. discriminate.
  - vm_compute. discriminate.
  - now left.
Qed.

Lemma prefilter_fallback_witness :
  fetched defaults small_world ask
    = firstn (MAX_EMBEDDINGS_SEARCH defaults) (scope small_world ask)
  /\ exists got,
       retrieve defaults small_world ask = Returned (inr got)
       /\ chosen got <> []
       /\ Rag.context (built got) <> ""
       /\ POST_query_stream defaults small_world ask =
          Returned (EventStream
                      (prompt_stream (question ask) (Rag.context (built got)))
                      (sourcesWithDocId (chosen got) (Rag.sources (built got))))
       /\ POST_query defaults small_world ask =
          Returned (AnswerJson "an answer"
                      (sourcesWithDocId (chosen got) (Rag.sources (built got)))
                      (List.length (chosen got))).
Proof.
  destruct (@prefilter_fallback defaults small_world ask [1; 0]%float [])
    as [Hfetched Hgoes].
  - apply ask_well_formed. reflexivity.
  - reflexivity.
  - discriminate.
  - reflexivity.
  - split; [exact Hfetched|].
    destruct Hgoes as (got & Hret & Hchosen & Hctx & Hstream & Hsingle).
    + reflexivity.
    + exists good_row. split; [now left | reflexivity].
    + exists got. repeat split; try assumption.
      apply (Hsingle "an answer"). reflexivity.
Defined.

(** C4, as the claim states it, fails when embeddings are fetched and none is
    usable: the single-completion handler ends in the "no context" error, not
    in the "no embedded content" one, and the streaming handler goes on to
    generation with an empty context. *)
Lemma unusable_embeddings_miss_the_no_content_error :
  fetched defaults unusable_world ask <> []
  /\ vectorRows (fetched defaults unusable_world ask) = []
  /\ POST_query defaults unusable_world ask = Returned (ErrorJson 422 no_context)
  /\ no_context <> no_embedded_content
  /\ POST_query_stream defaults unusable_world ask
     = Returned (EventStream (prompt_stream "what?" "") []).
Proof.
  repeat split; try (vm_compute; reflexivity); vm_compute; discriminate.
Qed.

(** C4 (amended). Only embeddings whose vector is a non-empty array are
    ranked.  The "no embedded content" error ends the query when no embedding
    at all is fetched, before that filtering; when embeddings are fetched and
    none of them is usable, the single-completion handler ends in the terminal
    "no context could be built" error. *)
Theorem unusable_vectors_filtered_before_ranking (cfg : Config) (w : World)
  (req : Request) (qv : list float) (qes : list (list float)) :
  well_formed w req ->
  embedWithOllama w (question req) = Resolved (qv :: qes) -> qv <> [] ->
  retrieve cfg w req =
    (if (List.length (fetched cfg w req) =? 0)%nat
     then Returned (inl (ErrorJson 422 no_embedded_content))
     else
       chosen <- Similarity.rankByCosine qv (vectorRows (fetched cfg w req)) (TOP_K cfg) ;;
       Returned (inr (mkRetrieved chosen
                        (Rag.buildContext (map to_chunk chosen) (MAX_CONTEXT_CHARS cfg)))))
  /\ Forall (fun it => Similarity.vector it <> []) (vectorRows (fetched cfg w req))
  /\ (fetched cfg w req = [] ->
      POST_query cfg w req = Returned (ErrorJson 422 no_embedded_content)
      /\ POST_query_stream cfg w req = Returned (ErrorJson 422 no_embedded_content))
  /\ (fetched cfg w req <> [] -> vectorRows (fetched cfg w req) = [] ->
      POST_query cfg w req = Returned (ErrorJson 422 no_context)).
Proof.
  intros Hwf Hembed Hqv.
  pose proof (retrieve_fetched cfg Hwf Hembed Hqv) as Hret.
  split; [exact Hret|]. split; [apply vectorRows_usable|]. split.
  - intros Hnone. rewrite Hnone in Hret. cbn [List.length Nat.eqb] in Hret.
    unfold POST_query, POST_query_stream. rewrite Hret. now split.
  - intros Hsome Hnone. rewrite Hnone in Hret.
    replace (List.length (fetched cfg w req) =? 0)%nat with false in Hret
      by (destruct (fetched cfg w req); [contradiction | reflexivity]).
    unfold POST_query. rewrite Hret. reflexivity.
Qed.

Lemma unusable_vectors_filtered_before_ranking_witness :
  Forall (fun it => Similarity.vector it <> [])
         (vectorRows (fetched defaults unusable_world ask))
  /\ POST_query defaults unusable_world ask = Returned (ErrorJson 422 no_context).
Proof.
  destruct (@unusable_vectors_filtered_before_ranking
              defaults unusable_world ask [1; 0]%float [])
    as (_ & Hrows & _ & Hnone).
  - apply ask_well_formed. reflexivity.
  - reflexivity.
  - discriminate.
  - split; [exact Hrows|]. apply Hnone.
    + vm_compute. discriminate.
    + reflexivity.
Defined.

(** The context built from [good_row], and its source. *)
Definition small_context : string :=
  "Source: a.pdf#1" ++ nl ++ "useful" ++ nl ++ "---" ++ nl.

Definition small_sources : list SourceRef := [mkSourceRef 1 2 "a.pdf" 1].

(** A generator that returns the prompt it is given. *)
Definition echo_world : World :=
  mkWorld [1%Z] [good_row] embed_unit fts_fails (fun prompt => Resolved prompt).

(** C8 (the code departs from it). The claim: both handlers build the prompt
    as the same function of (question, context), question in the QUESTION
    slot and context in the CONTEXT slot. The single-completion handler calls
    [buildPrompt(question, context)]; the streaming one calls
    [buildPrompt(context, question)]: for the question "what?" over
    [small_context] its prompt carries the question under CONTEXT and the
    context under QUESTION, and differs from the other handler's. *)
Theorem stream_prompt_swaps_question_and_context :
  POST_query defaults echo_world ask
    = Returned (AnswerJson (trim (Rag.buildPrompt "what?" small_context)) small_sources 1)
  /\ POST_query_stream defaults echo_world ask
    = Returned (EventStream (Rag.buildPrompt small_context "what?") small_sources)
  /\ includes (prompt_stream "what?" small_context)
       ("CONTEXT:" ++ nl ++ "what?" ++ nl ++ nl ++ "QUESTION:" ++ nl ++ small_context)
     = true
  /\ prompt_stream "what?" small_context <> prompt_single "what?" small_context.
Proof.
  repeat split; try (vm_compute; reflexivity).
  vm_compute. discriminate.
Qed.

(** *** Further properties of the handlers *)

(** An early response is an error response. *)
Definition is_error (r : Response) : Prop :=
  match r with ErrorJson _ _ => True | _ => False end.

Lemma retrieve_early_is_error (cfg : Config) (w : World) (req : Request)
  (early : Response) :
  retrieve cfg w req = Returned (inl early) -> is_error early.
Proof.
  unfold retrieve.
  destruct (_ || _); [now intros [= <-]|].
  destruct (_ =? _)%Z; [now intros [= <-]|].
  destruct (negb _); [now intros [= <-]|].
  destruct (embedWithOllama w (question req)) as [[|[|x qv] qes] | e]; simpl;
    try discriminate; try (now intros [= <-]).
  destruct (_ =? _)%nat; [now intros [= <-]|].
  destruct (Similarity.rankByCosine _ _ _); simpl; discriminate.
Qed.

(** The source entry of an embedding's chunk. *)
Definition ref_of (emb : EmbeddingRow) : SourceRef :=
  mkSourceRef (documentId (chunk emb)) (chunkId emb)
              (filename (document (chunk emb))) (chunkIndex (chunk emb)).

(** An embedding the request may draw on: a row of the table, of a document
    of the request's conversation, with a usable vector, and among the
    prefilter's candidates when there are any. *)
Definition eligible (w : World) (req : Request) (emb : EmbeddingRow) : Prop :=
  In emb (embeddings w)
  /\ conversationId (document (chunk emb)) = request_conversationId req
  /\ usable emb = true
  /\ (prefilter w req <> [] -> In (chunkId emb) (prefilter w req)).

Lemma fetched_eligible (cfg : Config) (w : World) (req : Request) (emb : EmbeddingRow) :
  In emb (filter usable (fetched cfg w req)) -> eligible w req emb.
Proof.
  intros H. apply filter_In in H as [Hfetched Hu].
  unfold fetched, findMany in Hfetched.
  apply Similarity.in_firstn in Hfetched. apply filter_In in Hfetched as [Hin Hc].
  apply andb_prop in Hc as [Hids Hscope].
  unfold in_scope in Hscope. apply Z.eqb_eq in Hscope.
  repeat split; try assumption.
  intros Hne. destruct (prefilter w req) as [|i ids]; [contradiction|].
  cbn [List.length Nat.ltb Nat.leb] in Hids.
  apply existsb_exists in Hids as (j & Hj & E). apply Z.eqb_eq in E. now rewrite E.
Qed.

(** What [retrieve] hands on when it does not respond early. *)
Lemma retrieve_chosen (cfg : Config) (w : World) (req : Request) (got : Retrieved) :
  retrieve cfg w req = Returned (inr got) ->
  built got = Rag.buildContext (map to_chunk (chosen got)) (MAX_CONTEXT_CHARS cfg)
  /\ List.length (chosen got)
     = Nat.min (Z.to_nat (TOP_K cfg)) (List.length (filter usable (fetched cfg w req)))
  /\ Forall (fun r => exists emb, In emb (filter usable (fetched cfg w req))
                                  /\ Similarity.item r = to_item emb) (chosen got).
Proof.
  unfold retrieve.
  destruct (_ || _); [discriminate|].
  destruct (_ =? _)%Z; [discriminate|].
  destruct (negb _); [discriminate|].
  destruct (embedWithOllama w (question req)) as [[|[|x qv] qes] | e]; simpl;
    try discriminate.
  destruct (_ =? _)%nat; [discriminate|].
  fold (fetched cfg w req).
  destruct (Similarity.rankByCosine (x :: qv) (vectorRows (fetched cfg w req)) (TOP_K cfg))
    as [result | e |] eqn:Hrank; simpl; try discriminate.
  intros [= <-]. cbn [built chosen]. split; [reflexivity|]. split.
  - apply Similarity.rankByCosine_returned in Hrank as [Hlen _].
    rewrite Hlen. unfold vectorRows. now rewrite length_map.
  - apply Forall_forall. intros r Hr.
    apply (@Similarity.rankByCosine_returned_items _ _ _ _ r Hrank) in Hr.
    unfold vectorRows in Hr. apply in_map_iff in Hr as (emb & Hitem & Hemb).
    exists emb. now split.
Qed.

(** Every source that [buildContext] reports has a chosen chunk, so the
    lookup of [sourcesWithDocId] succeeds and the ids are never the 0 of the
    fallback. *)
Lemma sourcesWithDocId_found (picked : list Similarity.Ranked) (maxChars : Z)
  (ref : SourceRef) :
  In ref (sourcesWithDocId picked
            (Rag.sources (Rag.buildContext (map to_chunk picked) maxChars))) ->
  exists r, In r picked
            /\ ref = mkSourceRef (Similarity.docId (Similarity.item r))
                                 (Similarity.id (Similarity.item r))
                                 (Similarity.filename (Similarity.item r))
                                 (Similarity.chunkIndex (Similarity.item r)).
Proof.
  unfold sourcesWithDocId. intros H.
  apply in_map_iff in H as (s & <- & Hs).
  rewrite Rag.buildContext_spec in Hs. cbv zeta in Hs. cbn [Rag.sources] in Hs.
  rewrite Rag.fold_track_first_seen in Hs.
  apply (proj1 (Rag.first_seen_In _ _)) in Hs.
  apply in_map_iff in Hs as (c & <- & Hc).
  apply Similarity.in_firstn in Hc. apply in_map_iff in Hc as (r0 & <- & Hr0).
  cbn [Rag.source_of to_chunk Rag.source_filename Rag.source_chunkIndex
       Rag.filename Rag.chunkIndex].
  destruct (find _ picked) as [r|] eqn:Hfind.
  - apply find_some in Hfind as [Hr E].
    apply andb_prop in E as [Ef Ei].
    apply String.eqb_eq in Ef. apply Z.eqb_eq in Ei.
    exists r. split; [exact Hr|]. now rewrite <- Ef, <- Ei.
  - exfalso. apply (find_none _ _ Hfind) in Hr0.
    now rewrite String.eqb_refl, Z.eqb_refl in Hr0.
Qed.

Lemma retrieved_sources_eligible (cfg : Config) (w : World) (req : Request)
  (got : Retrieved) :
  retrieve cfg w req = Returned (inr got) ->
  Forall (fun ref => exists emb, eligible w req emb /\ ref = ref_of emb)
         (sourcesWithDocId (chosen got) (Rag.sources (built got))).
Proof.
  intros Hgot. apply retrieve_chosen in Hgot as (Hbuilt & _ & Hchosen).
  rewrite Hbuilt. apply Forall_forall. intros ref Href.
  apply sourcesWithDocId_found in Href as (r & Hr & ->).
  rewrite Forall_forall in Hchosen.
  destruct (Hchosen r Hr) as (emb & Hemb & ->).
  exists emb. split; [now apply fetched_eligible with cfg | reflexivity].
Qed.

(** X9. The sources of a response, from either handler, are taken from the
    request's conversation only: each is the (documentId, chunkId, filename,
    chunkIndex) of an embedding row whose document belongs to the
    conversation, whose vector is usable and, when the prefilter found
    candidates, whose chunk is one of them; the ids are never the fallback 0
    of a failed lookup. *)
Theorem sources_come_from_the_conversation (cfg : Config) (w : World) (req : Request)
  (srcs : list SourceRef) :
  (exists answer k, POST_query cfg w req = Returned (AnswerJson answer srcs k))
  \/ (exists prompt, POST_query_stream cfg w req = Returned (EventStream prompt srcs)) ->
  Forall (fun ref => exists emb, eligible w req emb /\ ref = ref_of emb) srcs.
Proof.
  intros [(answer & k & H) | (prompt & H)].
  - unfold POST_query in H.
    destruct (retrieve cfg w req) as [[early | got] | e |] eqn:Hgot; simpl in H.
    + apply retrieve_early_is_error in Hgot. injection H as ->. contradiction.
    + destruct (_ =? _)%Z; [discriminate|].
      destruct (generateWithOllama w _) as [a | e].
      * injection H as _ <- _. now apply retrieved_sources_eligible with cfg.
      * exfalso. revert H. unfold generation_failed.
        destruct (includes _ _); [discriminate|].
        destruct (_ || _); discriminate.
    + discriminate.
    + discriminate.
  - unfold POST_query_stream in H.
    destruct (retrieve cfg w req) as [[early | got] | e |] eqn:Hgot; simpl in H.
    + apply retrieve_early_is_error in Hgot. injection H as ->. contradiction.
    + injection H as _ <-. now apply retrieved_sources_eligible with cfg.
    + discriminate.
    + discriminate.
Qed.

Lemma sources_come_from_the_conversation_witness :
  Forall (fun ref => exists emb, eligible small_world ask emb /\ ref = ref_of emb)
         small_sources.
Proof.
  apply (@sources_come_from_the_conversation defaults small_world ask small_sources).
  left. exists "an answer", 1%nat. vm_compute. reflexivity.
Defined.

Lemma length_first_seen (l : list Rag.Source) :
  (List.length (Rag.first_seen l) <= List.length l)%nat.
Proof.
  induction l as [|p l IH]; simpl; [lia|].
  pose proof (filter_length_le (fun q => negb (Rag.source_eqb q p)) (Rag.first_seen l)).
  lia.
Qed.

Lemma length_sources (l : list Rag.ChunkSource) (maxChars : Z) :
  (List.length (Rag.sources (Rag.buildContext l maxChars)) <= List.length l)%nat.
Proof.
  rewrite Rag.buildContext_spec. cbv zeta. cbn [Rag.sources].
  rewrite Rag.fold_track_first_seen.
  etransitivity; [apply length_first_seen|].
  rewrite length_map, length_firstn. lia.
Qed.

Lemma NoDup_sources (l : list Rag.ChunkSource) (maxChars : Z) :
  NoDup (Rag.sources (Rag.buildContext l maxChars)).
Proof.
  rewrite Rag.buildContext_spec. cbv zeta. cbn [Rag.sources].
  rewrite Rag.fold_track_first_seen. apply Rag.first_seen_NoDup.
Qed.

(** Distinct sources give entries that differ in file name or chunk index. *)
Lemma NoDup_sourcesWithDocId (picked : list Similarity.Ranked) (srcs : list Rag.Source) :
  NoDup srcs ->
  NoDup (map (fun ref => (ref_filename ref, ref_chunkIndex ref))
             (sourcesWithDocId picked srcs)).
Proof.
  intros H. unfold sourcesWithDocId. rewrite map_map. cbn [ref_filename ref_chunkIndex].
  induction H as [|s l Hs _ IH]; simpl; constructor; [|exact IH].
  intros Hin. apply in_map_iff in Hin as (s' & E & Hs').
  injection E as Ef Ei. destruct s as [f i], s' as [f' i']. simpl in *. subst.
  contradiction.
Qed.

(** X10. In an answer of the single-completion handler, [used.k] is
    [min(TOP_K, n)] for the [n] usable embeddings fetched and is at least 1;
    there are at most [k] sources, and no two of them have the same file name
    and chunk index. *)
Theorem answer_accounting (cfg : Config) (w : World) (req : Request)
  (answer : string) (srcs : list SourceRef) (k : nat) :
  POST_query cfg w req = Returned (AnswerJson answer srcs k) ->
  k = Nat.min (Z.to_nat (TOP_K cfg)) (List.length (filter usable (fetched cfg w req)))
  /\ (1 <= k)%nat
  /\ (List.length srcs <= k)%nat
  /\ NoDup (map (fun ref => (ref_filename ref, ref_chunkIndex ref)) srcs).
Proof.
  intros H. unfold POST_query in H.
  destruct (retrieve cfg w req) as [[early | got] | e |] eqn:Hgot; simpl in H;
    try discriminate.
  - apply retrieve_early_is_error in Hgot. injection H as ->. contradiction.
  - destruct (Z.eqb_spec (len (Rag.context (built got))) 0) as [E | Hctx];
      [discriminate|].
    destruct (generateWithOllama w _) as [a | e].
    + injection H as _ <- <-.
      apply retrieve_chosen in Hgot as (Hbuilt & Hlen & _).
      rewrite Hbuilt in *. split; [exact Hlen|]. split; [|split].
      * destruct (chosen got); [now contradiction Hctx | simpl; lia].
      * unfold sourcesWithDocId. rewrite length_map.
        etransitivity; [apply length_sources|]. now rewrite length_map.
      * apply NoDup_sourcesWithDocId, NoDup_sources.
    + exfalso. revert H. unfold generation_failed.
      destruct (includes _ _); [discriminate|].
      destruct (_ || _); discriminate.
Qed.

Lemma answer_accounting_witness :
  1%nat = Nat.min (Z.to_nat (TOP_K defaults))
            (List.length (filter usable (fetched defaults small_world ask)))
  /\ (1 <= 1)%nat
  /\ (List.length small_sources <= 1)%nat
  /\ NoDup (map (fun ref => (ref_filename ref, ref_chunkIndex ref)) small_sources).
Proof.
  apply (@answer_accounting defaults small_world ask "an answer" small_sources 1%nat).
  vm_compute. reflexivity.
Defined.

Lemma retrieve_early_not_no_context (cfg : Config) (w : World) (req : Request) :
  retrieve cfg w req <> Returned (inl (ErrorJson 422 no_context)).
Proof.
  unfold retrieve.
  destruct (_ || _); [discriminate|].
  destruct (_ =? _)%Z; [discriminate|].
  destruct (negb _); [discriminate|].
  destruct (embedWithOllama w (question req)) as [[|[|x qv] qes] | e]; simpl;
    try discriminate.
  destruct (_ =? _)%nat; [discriminate|].
  destruct (Similarity.rankByCosine _ _ _); simpl; discriminate.
Qed.

(** X21. The streaming handler has no check for an empty context.  Whenever
    the single-completion handler answers 422 [No context could be built from
    retrieved chunks], the streaming handler, on the same request and store,
    opens the stream: it sends a prompt with no context at all to the model,
    and an empty list of sources. *)
Theorem stream_answers_without_context (cfg : Config) (w : World) (req : Request) :
  POST_query cfg w req = Returned (ErrorJson 422 no_context) ->
  POST_query_stream cfg w req
  = Returned (EventStream (prompt_stream (question req) "") []).
Proof.
  intros H. pose proof (retrieve_early_not_no_context cfg w req) as Hearly.
  unfold POST_query in H. unfold POST_query_stream.
  destruct (retrieve cfg w req) as [[early | got] | e |] eqn:Hgot; simpl in H |- *.
  - injection H as ->. now contradiction Hearly.
  - destruct (len (Rag.context (built got)) =? 0)%Z eqn:Hctx.
    + apply retrieve_chosen in Hgot as (Hbuilt & _ & _).
      rewrite Hbuilt in *.
      destruct (chosen got) as [|r rest] eqn:Hchosen; [reflexivity|].
      exfalso. apply Z.eqb_eq in Hctx.
      pose proof (@Rag.buildContext_nonempty (map to_chunk (r :: rest))
                    (MAX_CONTEXT_CHARS cfg)) as Hne.
      cbn [map] in Hne, Hctx. rewrite Hctx in Hne.
      assert (0 < 0)%Z by (apply Hne; discriminate). lia.
    + destruct (generateWithOllama w _) as [a | e]; [discriminate|].
      exfalso. revert H. unfold generation_failed.
      destruct (includes _ _); [discriminate|].
      destruct (_ || _); discriminate.
  - discriminate.
  - discriminate.
Qed.

Lemma stream_answers_without_context_witness :
  POST_query_stream defaults unusable_world ask
  = Returned (EventStream (prompt_stream (question ask) "") []).
Proof.
  apply (@stream_answers_without_context defaults unusable_world ask).
  vm_compute. reflexivity.
Defined.

End Query.

(** ** [@/lib/storage]: [sanitizeFilename]

    A file name is a string of code units below 256.  [Date.now()] is an
    argument of the function. *)

Module Storage.

Import JS.
Local Open Scope string_scope.

Definition code (c : ascii) : nat := nat_of_ascii c.

Definition between (lo hi : nat) (c : ascii) : bool :=
  (lo <=? code c)%nat && (code c <=? hi)%nat.

Fixpoint map_chars (f : ascii -> ascii) (s : string) : string :=
  match s with
  | EmptyString => EmptyString
  | String c s' => String (f c) (map_chars f s')
  end.

(** [toLowerCase] on one code unit: A-Z and the capital letters of Latin-1,
    U+00C0 to U+00DE without the multiplication sign. *)
Definition toLowerCase_char (c : ascii) : ascii :=
  if between 65 90 c || (between 192 222 c && negb (code c =? 215)%nat)
  then ascii_of_nat (code c + 32)
  else c.

Definition toLowerCase : string -> string := map_chars toLowerCase_char.

Definition hyphen : ascii := "-"%char.

(** [[a-z0-9]]. *)
Definition is_alnum (c : ascii) : bool := between 97 122 c || between 48 57 c.

(** The whole of [s] matches [/\.pdf/i]. *)
Definition is_pdf_ext (s : string) : bool :=
  match s with
  | String c0 (String c1 (String c2 (String c3 EmptyString))) =>
      Ascii.eqb c0 "."
      && (Ascii.eqb c1 "p" || Ascii.eqb c1 "P")
      && (Ascii.eqb c2 "d" || Ascii.eqb c2 "D")
      && (Ascii.eqb c3 "f" || Ascii.eqb c3 "F")
  | _ => false
  end.

(** [.replace(/\.pdf$/i, '')]. *)
Fixpoint strip_pdf (s : string) : string :=
  match s with
  | EmptyString => EmptyString
  | String c s' => if is_pdf_ext s then EmptyString else String c (strip_pdf s')
  end.

(** [.replace(/[^a-z0-9]/g, '-')]. *)
Definition replace_unsafe : string -> string :=
  map_chars (fun c => if is_alnum c then c else hyphen).

(** [.replace(/-+/g, '-')]. *)
Fixpoint collapse (s : string) : string :=
  match s with
  | EmptyString => EmptyString
  | String c s' =>
      if Ascii.eqb c hyphen then
        match s' with
        | String d _ => if Ascii.eqb d hyphen then collapse s' else String c (collapse s')
        | EmptyString => String c EmptyString
        end
      else String c (collapse s')
  end.

(** [.replace(/^-|-$/g, '')]: one hyphen at the start and one at the end. *)
Definition strip_lead (s : string) : string :=
  match s with
  | String c s' => if Ascii.eqb c hyphen then s' else s
  | EmptyString => EmptyString
  end.

Fixpoint strip_trail (s : string) : string :=
  match s with
  | EmptyString => EmptyString
  | String c s' =>
      match s' with
      | EmptyString => if Ascii.eqb c hyphen then EmptyString else s
      | String _ _ => String c (strip_trail s')
      end
  end.

Definition sanitizeFilename (originalName : string) (now : Z) : string :=
  let nameWithoutExt := strip_pdf originalName in
  let safe :=
    strip_trail (strip_lead (collapse (replace_unsafe (toLowerCase nameWithoutExt)))) in
  let safe := if negb (truthy safe) then "document-" ++ string_of_Z now else safe in
  safe ++ ".pdf".

(** The name [savePdf] and [savePdfToDisk] join to the upload directory:
    [`${timestamp}-${safeFilename}`]. *)
Definition uniqueFilename (filename : string) (now timestamp : Z) : string :=
  string_of_Z timestamp ++ "-" ++ sanitizeFilename filename now.

(** *** The shape of a sanitized name *)

Fixpoint all_chars (p : ascii -> bool) (s : string) : bool :=
  match s with
  | EmptyString => true
  | String c s' => p c && all_chars p s'
  end.

(** [[a-z0-9-]]. *)
Definition plain (c : ascii) : bool := is_alnum c || Ascii.eqb c hyphen.

Definition is_digit (c : ascii) : bool := between 48 57 c.

(** No two hyphens in a row. *)
Fixpoint no_double (s : string) : bool :=
  match s with
  | EmptyString => true
  | String c s' =>
      match s' with
      | String d _ => negb (Ascii.eqb c hyphen && Ascii.eqb d hyphen) && no_double s'
      | EmptyString => true
      end
  end.

Definition head_ok (s : string) : bool :=
  match s with
  | String c _ => negb (Ascii.eqb c hyphen)
  | EmptyString => true
  end.

Fixpoint last_ok (s : string) : bool :=
  match s with
  | EmptyString => true
  | String c s' =>
      match s' with
      | EmptyString => negb (Ascii.eqb c hyphen)
      | String _ _ => last_ok s'
      end
  end.

(** A stem as [sanitizeFilename] leaves it. *)
Definition canonical (s : string) : bool :=
  truthy s && all_chars plain s && no_double s && head_ok s && last_ok s.

Lemma all_chars_append (p : ascii -> bool) (s t : string) :
  all_chars p (s ++ t) = all_chars p s && all_chars p t.
Proof.
  induction s as [|c s IH]; simpl; [reflexivity | now rewrite IH, andb_assoc].
Qed.

Lemma all_chars_weaken (p q : ascii -> bool) (s : string) :
  (forall c, p c = true -> q c = true) ->
  all_chars p s = true -> all_chars q s = true.
Proof.
  intros Hpq. induction s as [|c s IH]; simpl; [reflexivity|].
  intros H. apply andb_prop in H as [Hc Hs]. now rewrite (Hpq c Hc), IH.
Qed.

Lemma all_chars_replace_unsafe (s : string) : all_chars plain (replace_unsafe s) = true.
Proof.
  unfold replace_unsafe.
  induction s as [|c s IH]; cbn [map_chars all_chars]; [reflexivity|].
  rewrite IH, andb_true_r.
  unfold plain. destruct (is_alnum c) eqn:E; [now rewrite E|].
  now rewrite Ascii.eqb_refl, orb_true_r.
Qed.

Lemma all_chars_collapse (p : ascii -> bool) (s : string) :
  all_chars p s = true -> all_chars p (collapse s) = true.
Proof.
  induction s as [|c s IH]; simpl; [reflexivity|].
  intros H. apply andb_prop in H as [Hc Hs]. specialize (IH Hs).
  destruct (Ascii.eqb c hyphen).
  - destruct s as [|d s']; [simpl; now rewrite Hc|].
    destruct (Ascii.eqb d hyphen); [exact IH|].
    cbn [all_chars]. now rewrite Hc, IH.
  - cbn [all_chars]. now rewrite Hc, IH.
Qed.

Lemma all_chars_strip_lead (p : ascii -> bool) (s : string) :
  all_chars p s = true -> all_chars p (strip_lead s) = true.
Proof.
  destruct s as [|c s]; simpl; [reflexivity|].
  intros H. apply andb_prop in H as [Hc Hs].
  destruct (Ascii.eqb c hyphen); [exact Hs | simpl; now rewrite Hc, Hs].
Qed.

Lemma all_chars_strip_trail (p : ascii -> bool) (s : string) :
  all_chars p s = true -> all_chars p (strip_trail s) = true.
Proof.
  induction s as [|c s IH]; [reflexivity|].
  intros H. cbn [all_chars] in H. apply andb_prop in H as [Hc Hs].
  cbn [strip_trail]. destruct s as [|d s'].
  - destruct (Ascii.eqb c hyphen); [reflexivity | simpl; now rewrite Hc].
  - cbn [all_chars]. rewrite Hc. now apply IH.
Qed.

Lemma no_double_cons (c d : ascii) (s : string) :
  no_double (String c (String d s))
  = negb (Ascii.eqb c hyphen && Ascii.eqb d hyphen) && no_double (String d s).
Proof. reflexivity. Qed.

Lemma no_double_collapse (s : string) : no_double (collapse s) = true.
Proof.
  induction s as [|c s IH]; [reflexivity|]. cbn [collapse].
  destruct (Ascii.eqb c hyphen) eqn:Ec.
  - destruct s as [|d s']; [reflexivity|].
    destruct (Ascii.eqb d hyphen) eqn:Ed; [exact IH|].
    assert (Hd : collapse (String d s') = String d (collapse s'))
      by (cbn [collapse]; now rewrite Ed).
    rewrite Hd in *. now rewrite no_double_cons, Ed, andb_false_r.
  - destruct (collapse s) as [|d t] eqn:E; [reflexivity|].
    now rewrite no_double_cons, Ec.
Qed.

Lemma no_double_tail (c : ascii) (s : string) :
  no_double (String c s) = true -> no_double s = true.
Proof.
  destruct s as [|d s']; [reflexivity|]. cbn [no_double].
  intros H. now apply andb_prop in H as [_ H].
Qed.

Lemma no_double_strip_lead (s : string) :
  no_double s = true ->
  no_double (strip_lead s) = true /\ head_ok (strip_lead s) = true.
Proof.
  destruct s as [|c s]; [now split|]. intros H. cbn [strip_lead].
  destruct (Ascii.eqb c hyphen) eqn:Ec.
  - split; [now apply no_double_tail with c|].
    destruct s as [|d s']; [reflexivity|]. cbn [no_double] in H.
    rewrite Ec in H. simpl in *. now destruct (Ascii.eqb d hyphen).
  - split; [exact H | simpl; now rewrite Ec].
Qed.

Lemma strip_trail_cons (c d : ascii) (s : string) :
  strip_trail (String c (String d s)) = String c (strip_trail (String d s)).
Proof. reflexivity. Qed.

Lemma no_double_strip_trail (s : string) :
  no_double s = true ->
  no_double (strip_trail s) = true /\ last_ok (strip_trail s) = true.
Proof.
  induction s as [|c s IH]; [now split|]. intros H.
  destruct s as [|d s'].
  - simpl. destruct (Ascii.eqb c hyphen) eqn:Ec; [now split|].
    split; [reflexivity | simpl; now rewrite Ec].
  - rewrite strip_trail_cons.
    pose proof H as Hpair. cbn [no_double] in Hpair.
    apply andb_prop in Hpair as [Hcd Htail].
    destruct (IH Htail) as [IH1 IH2].
    destruct (strip_trail (String d s')) as [|e t] eqn:E.
    + split; [reflexivity|]. simpl.
      destruct s' as [|e' s'']; [|discriminate E].
      simpl in E. destruct (Ascii.eqb d hyphen) eqn:Ed; [|discriminate].
      rewrite ?Ed, andb_true_r in Hcd. exact Hcd.
    + split; [|exact IH2]. rewrite no_double_cons, IH1, andb_true_r.
      assert (e = d) as ->.
      { destruct s' as [|e' s'']; simpl in E.
        - destruct (Ascii.eqb d hyphen); [discriminate | now injection E].
        - now injection E. }
      exact Hcd.
Qed.

Lemma head_ok_strip_trail (s : string) :
  head_ok s = true -> head_ok (strip_trail s) = true.
Proof.
  destruct s as [|c [|d s']]; [reflexivity | |].
  - simpl. destruct (Ascii.eqb c hyphen) eqn:E; simpl; [reflexivity | now rewrite E].
  - rewrite strip_trail_cons. exact (fun H => H).
Qed.

(** The decimal rendering of a number that is not negative: digits, and at
    least one. *)
Lemma digits_uint (d : Decimal.uint) : all_chars is_digit (NilEmpty.string_of_uint d) = true.
Proof. induction d; simpl; auto. Qed.

Lemma digits_nonempty (d : Decimal.uint) :
  all_chars is_digit (NilZero.string_of_uint d) = true
  /\ truthy (NilZero.string_of_uint d) = true.
Proof.
  destruct d; (split; [try reflexivity; apply (digits_uint (_ d)) | reflexivity]).
Qed.

Lemma digits_string_of_Z (n : Z) :
  (0 <= n)%Z ->
  all_chars is_digit (string_of_Z n) = true /\ truthy (string_of_Z n) = true.
Proof.
  intros Hn. unfold string_of_Z.
  destruct n as [|p|p]; [split; reflexivity | apply digits_nonempty | lia].
Qed.

Lemma digit_plain (c : ascii) : is_digit c = true -> plain c = true.
Proof.
  intros H. unfold plain, is_alnum. unfold is_digit in H. now rewrite H, orb_true_r.
Qed.

Lemma plain_string_of_Z (n : Z) : all_chars plain (string_of_Z n) = true.
Proof.
  unfold string_of_Z, NilZero.string_of_int.
  destruct (Z.to_int n) as [d | d]; cbn [all_chars];
    rewrite (@all_chars_weaken is_digit plain _ digit_plain (proj1 (digits_nonempty d)));
    reflexivity.
Qed.

Lemma digit_not_hyphen (c : ascii) : is_digit c = true -> Ascii.eqb c hyphen = false.
Proof.
  intros H. destruct (Ascii.eqb c hyphen) eqn:E; [|reflexivity].
  apply Ascii.eqb_eq in E. subst. discriminate.
Qed.

Lemma digits_no_double (s : string) : all_chars is_digit s = true -> no_double s = true.
Proof.
  induction s as [|c s IH]; [reflexivity|]. intros H. cbn [all_chars] in H.
  apply andb_prop in H as [Hc Hs]. cbn [no_double].
  destruct s as [|d s']; [reflexivity|].
  rewrite (digit_not_hyphen _ Hc). simpl. now apply IH.
Qed.

Lemma digits_last_ok (s : string) : all_chars is_digit s = true -> last_ok s = true.
Proof.
  induction s as [|c s IH]; [reflexivity|]. intros H. cbn [all_chars] in H.
  apply andb_prop in H as [Hc Hs]. cbn [last_ok].
  destruct s as [|d s']; [now rewrite (digit_not_hyphen _ Hc) | now apply IH].
Qed.

Lemma no_double_append (s t : string) (c : ascii) :
  no_double s = true -> no_double (String c t) = true -> Ascii.eqb c hyphen = false ->
  no_double (s ++ String c t) = true.
Proof.
  intros Hs Ht Hc. induction s as [|a s IH]; [exact Ht|].
  change (String a s ++ String c t) with (String a (s ++ String c t)).
  pose proof (no_double_tail _ _ Hs) as Hs'. specialize (IH Hs').
  destruct s as [|b s'].
  - change ("" ++ String c t) with (String c t) in *.
    now rewrite no_double_cons, Hc, andb_false_r, IH.
  - change (String b s' ++ String c t) with (String b (s' ++ String c t)) in *.
    rewrite no_double_cons in Hs |- *. apply andb_prop in Hs as [Hab _].
    now rewrite Hab, IH.
Qed.

Lemma last_ok_append (s t : string) :
  truthy t = true -> last_ok (s ++ t) = last_ok t.
Proof.
  intros Ht. induction s as [|a s IH]; [reflexivity|].
  change (String a s ++ t) with (String a (s ++ t)). cbn [last_ok].
  destruct (s ++ t) eqn:E; [|exact IH].
  destruct s; simpl in E; [subst; discriminate | discriminate].
Qed.

Lemma canonical_fallback (now : Z) :
  (0 <= now)%Z -> canonical ("document-" ++ string_of_Z now) = true.
Proof.
  intros Hn. destruct (digits_string_of_Z Hn) as [Hd Ht].
  destruct (string_of_Z now) as [|c t] eqn:E; [discriminate|].
  pose proof Hd as Hd'. cbn [all_chars] in Hd'. apply andb_prop in Hd' as [Hc _].
  unfold canonical. rewrite !andb_true_iff. repeat split.
  - rewrite all_chars_append. rewrite <- E, plain_string_of_Z. reflexivity.
  - apply no_double_append; [reflexivity | now apply digits_no_double |
                             now apply digit_not_hyphen].
  - rewrite last_ok_append by reflexivity. now apply digits_last_ok.
Qed.

Lemma canonical_pipeline (s : string) :
  let safe := strip_trail (strip_lead (collapse (replace_unsafe (toLowerCase s)))) in
  truthy safe = true -> canonical safe = true.
Proof.
  cbv zeta. set (r := collapse (replace_unsafe (toLowerCase s))).
  intros Ht. unfold canonical. rewrite Ht.
  assert (Hchars : all_chars plain r = true)
    by apply all_chars_collapse, all_chars_replace_unsafe.
  assert (Hnd : no_double r = true) by apply no_double_collapse.
  destruct (no_double_strip_lead _ Hnd) as [Hnd1 Hhead].
  destruct (no_double_strip_trail _ Hnd1) as [Hnd2 Hlast].
  rewrite Hnd2, Hlast, (head_ok_strip_trail _ Hhead).
  now rewrite all_chars_strip_trail by now apply all_chars_strip_lead.
Qed.

(** *** A canonical stem passes through unchanged *)

Lemma is_pdf_ext_length (s : string) : is_pdf_ext s = true -> String.length s = 4%nat.
Proof.
  destruct s as [|c0 [|c1 [|c2 [|c3 [|c4 s]]]]]; simpl; try discriminate. reflexivity.
Qed.

Lemma strip_pdf_append (stem : string) : strip_pdf (stem ++ ".pdf") = stem.
Proof.
  induction stem as [|c s IH]; [reflexivity|].
  change (String c s ++ ".pdf") with (String c (s ++ ".pdf")).
  cbn [strip_pdf]. rewrite IH.
  destruct (is_pdf_ext (String c (s ++ ".pdf"))) eqn:E; [|reflexivity].
  apply is_pdf_ext_length in E. simpl in E. rewrite length_append in E. simpl in E. lia.
Qed.

Lemma plain_toLowerCase_char (c : ascii) : plain c = true -> toLowerCase_char c = c.
Proof.
  destruct c as [[] [] [] [] [] [] [] []]; vm_compute; intros H;
    try reflexivity; discriminate H.
Qed.

Lemma plain_replace (c : ascii) : plain c = true -> (if is_alnum c then c else hyphen) = c.
Proof.
  unfold plain. destruct (is_alnum c); [reflexivity|]. simpl.
  intros H. apply Ascii.eqb_eq in H. now subst.
Qed.

Lemma map_chars_id (f : ascii -> ascii) (s : string) :
  (forall c, plain c = true -> f c = c) ->
  all_chars plain s = true -> map_chars f s = s.
Proof.
  intros Hf. induction s as [|c s IH]; [reflexivity|]. simpl.
  intros H. apply andb_prop in H as [Hc Hs]. now rewrite (Hf c Hc), IH.
Qed.

Lemma collapse_id (s : string) : no_double s = true -> collapse s = s.
Proof.
  induction s as [|c s IH]; [reflexivity|]. intros H.
  pose proof (no_double_tail _ _ H) as Hs. cbn [collapse]. rewrite (IH Hs).
  destruct (Ascii.eqb c hyphen) eqn:Ec; [|reflexivity].
  destruct s as [|d s']; [reflexivity|].
  cbn [no_double] in H. rewrite Ec in H. simpl in H.
  destruct (Ascii.eqb d hyphen); [discriminate | reflexivity].
Qed.

Lemma strip_lead_id (s : string) : head_ok s = true -> strip_lead s = s.
Proof.
  destruct s as [|c s]; [reflexivity|]. simpl.
  now destruct (Ascii.eqb c hyphen).
Qed.

Lemma strip_trail_id (s : string) : last_ok s = true -> strip_trail s = s.
Proof.
  induction s as [|c s IH]; [reflexivity|]. cbn [last_ok strip_trail].
  destruct s as [|d s'].
  - now destruct (Ascii.eqb c hyphen).
  - intros H. now rewrite IH.
Qed.

Lemma sanitizeFilename_canonical (stem : string) (now : Z) :
  canonical stem = true -> sanitizeFilename (stem ++ ".pdf") now = stem ++ ".pdf".
Proof.
  unfold canonical. rewrite !andb_true_iff.
  intros ((((Ht & Hchars) & Hnd) & Hhead) & Hlast).
  unfold sanitizeFilename. rewrite strip_pdf_append.
  unfold toLowerCase, replace_unsafe.
  rewrite (map_chars_id _ stem plain_toLowerCase_char Hchars).
  rewrite (map_chars_id _ stem plain_replace Hchars).
  rewrite (collapse_id _ Hnd), (strip_lead_id _ Hhead), (strip_trail_id _ Hlast).
  now rewrite Ht.
Qed.

(** The stem of the sanitized name. *)
Lemma sanitizeFilename_stem (originalName : string) (now : Z) :
  exists stem,
    sanitizeFilename originalName now = stem ++ ".pdf"
    /\ truthy stem = true
    /\ all_chars plain stem = true
    /\ ((0 <= now)%Z -> canonical stem = true).
Proof.
  unfold sanitizeFilename.
  set (safe := strip_trail (strip_lead (collapse (replace_unsafe
                 (toLowerCase (strip_pdf originalName)))))).
  destruct (truthy safe) eqn:Ht; cbn [negb].
  - exists safe. split; [reflexivity|]. split; [exact Ht|].
    pose proof (canonical_pipeline (strip_pdf originalName) Ht) as Hc.
    split; [|intros _; exact Hc].
    unfold canonical in Hc. rewrite !andb_true_iff in Hc. tauto.
  - exists ("document-" ++ string_of_Z now). split; [reflexivity|].
    split; [reflexivity|]. split; [|apply canonical_fallback].
    rewrite all_chars_append, plain_string_of_Z. reflexivity.
Qed.

(** X13. Whatever the original name and the clock, the sanitized name is a
    non-empty stem of characters [[a-z0-9-]] followed by [.pdf]: it holds no
    path separator, no white space and no dot but the one of the extension.
    The same holds of the name that is joined to the upload directory, the
    time stamp and a hyphen included in the stem. *)
Theorem sanitizeFilename_is_flat (originalName : string) (now timestamp : Z) :
  (exists stem,
     sanitizeFilename originalName now = stem ++ ".pdf"
     /\ stem <> "" /\ all_chars plain stem = true)
  /\ (exists stem,
        uniqueFilename originalName now timestamp = stem ++ ".pdf"
        /\ stem <> "" /\ all_chars plain stem = true).
Proof.
  destruct (sanitizeFilename_stem originalName now) as (stem & E & Ht & Hchars & _).
  assert (Hne : stem <> "") by (destruct stem; [discriminate | discriminate]).
  split.
  - exists stem. now repeat split.
  - exists (string_of_Z timestamp ++ "-" ++ stem). unfold uniqueFilename. rewrite E.
    split; [now rewrite !append_assoc|]. split.
    + destruct (string_of_Z timestamp); discriminate.
    + rewrite !all_chars_append, plain_string_of_Z, Hchars. reflexivity.
Qed.

(** X14. With a clock that is not before 1970, sanitizing is idempotent: a
    sanitized name is sanitized to itself; its stem has no two hyphens in a
    row and none at either end. *)
Theorem sanitizeFilename_idempotent (originalName : string) (now now' : Z) :
  (0 <= now)%Z ->
  sanitizeFilename (sanitizeFilename originalName now) now'
  = sanitizeFilename originalName now.
Proof.
  intros Hn.
  destruct (sanitizeFilename_stem originalName now) as (stem & E & _ & _ & Hc).
  rewrite E. apply sanitizeFilename_canonical. now apply Hc.
Qed.

Lemma sanitizeFilename_idempotent_witness :
  sanitizeFilename (sanitizeFilename "My  Report (final).PDF" 1700000000000) 1700000000001
  = sanitizeFilename "My  Report (final).PDF" 1700000000000.
Proof.
  apply (@sanitizeFilename_idempotent "My  Report (final).PDF" 1700000000000 1700000000001).
  lia.
Defined.

Example sanitizeFilename_report :
  sanitizeFilename "My  Report (final).PDF" 0 = "my-report-final.pdf".
Proof. reflexivity. Qed.

Example sanitizeFilename_traversal :
  sanitizeFilename "../../etc/passwd" 0 = "etc-passwd.pdf".
Proof. reflexivity. Qed.

Example sanitizeFilename_fallback :
  sanitizeFilename "???.pdf" 1700000000000 = "document-1700000000000.pdf".
Proof. reflexivity. Qed.

End Storage.

(** ** [@/lib/ollama]: the prompt that is sent, the reading of the streamed
    reply, and the batches of [embedWithOllama] *)

Module Ollama.

Import JS.
Local Open Scope list_scope.
Local Open Scope string_scope.

(** *** The prompt that is sent *)

Definition maxPromptLength : Z := 8000.

Definition truncation_notice : string := nl ++ nl ++ "[Context truncated...]".

(** [truncatedPrompt] of [generateWithOllama] and [generateStreamWithOllama]. *)
Definition truncatedPrompt (prompt : string) : string :=
  if (len prompt >? maxPromptLength)%Z
  then substring prompt 0 maxPromptLength ++ truncation_notice
  else prompt.

(** The text of [buildPrompt] before the context. *)
Definition prompt_header : string :=
  "You are a helpful assistant. Use ONLY the context below to answer." ++ nl
  ++ "If the context does not contain the answer, say "
  ++ dquote ++ "I can't find that in the notes." ++ dquote ++ nl
  ++ "Cite sources as (filename#chunkIndex)." ++ nl
  ++ nl
  ++ "CONTEXT:" ++ nl.

(** *** The streamed reply *)

(** [buffer.split('\n')]: never empty. *)
Fixpoint split_nl (s : string) : list string :=
  match s with
  | EmptyString => [EmptyString]
  | String c s' =>
      if Ascii.eqb c "010" then EmptyString :: split_nl s'
      else match split_nl s' with
           | first :: rest => String c first :: rest
           | [] => [String c EmptyString]
           end
  end.

(** What the loop reads of a parsed line: [data.response] (the empty string
    when it is missing) and whether [data.done] holds. *)
Record Delta : Type := mkDelta {
  response : string;
  done : bool
}.

Section Stream.

(** [JSON.parse(line)]; [None] when it throws, or when reading a property of
    its result does. *)
Variable parse : string -> option Delta.

(** [for (const line of lines)]: the deltas yielded, and whether the
    generator returned. *)
Fixpoint for_lines (lines : list string) : list string * bool :=
  match lines with
  | [] => ([], false)
  | line :: rest =>
      if String.eqb (trim line) "" then for_lines rest
      else
        match parse line with
        | None => for_lines rest
        | Some data =>
            let yielded := if truthy (response data) then [response data] else [] in
            if done data then (yielded, true)
            else let (more, returned) := for_lines rest in ((yielded ++ more)%list, returned)
        end
  end.

(** [while (true)] over the values that [reader.read()] delivers, decoded,
    until it reports the end: the deltas yielded. *)
Fixpoint read_loop (reads : list string) (buffer : string) : list string :=
  match reads with
  | [] => []
  | value :: rest =>
      let lines := split_nl (buffer ++ value) in
      let buffer' := last lines "" in
      let (yielded, returned) := for_lines (removelast lines) in
      if returned then yielded else (yielded ++ read_loop rest buffer')%list
  end.

End Stream.

(** *** [embedWithOllama] *)

Definition BATCH_SIZE : nat := 64.

(** An error as the [catch] inspects it. *)
Record Thrown : Type := mkThrown {
  code : option string;
  message : string;
  cause_code : option string
}.

(** One request to [/api/embed], up to the parsed body. *)
Inductive Exchange : Type :=
(** [fetch], [response.text()] or [response.json()] failed *)
| Failed (e : Thrown)
(** [!response.ok] *)
| NotOk (status : Z) (errorText : string)
(** [data.embeddings] when it is an array *)
| Ok (embeddings : option (list (list float))).

Section Embed.

Variable OLLAMA_BASE : string.
Variable OLLAMA_EMBED_MODEL : string.
Variable post : list string -> Exchange.

Definition cannot_connect : string :=
  "Cannot connect to Ollama server at " ++ OLLAMA_BASE
  ++ ". Please start the server with: ollama serve".

Definition model_not_found : string :=
  "Model " ++ dquote ++ OLLAMA_EMBED_MODEL ++ dquote ++ " not found. "
  ++ "Please run: ollama pull " ++ OLLAMA_EMBED_MODEL.

Definition api_error (status : Z) (errorText : string) : string :=
  "Ollama API error (" ++ string_of_Z status ++ "): " ++ errorText.

Definition invalid_response : string :=
  "Invalid response from Ollama: missing embeddings array".

Definition is_refused (c : option string) : bool :=
  match c with
  | Some s => String.eqb s "ECONNREFUSED"
  | None => false
  end.

(** The [catch] of the loop body. *)
Definition rethrow (e : Thrown) : js_error :=
  if is_refused (code e) || includes (message e) "ECONNREFUSED" then OtherError cannot_connect
  else if is_refused (cause_code e) then OtherError cannot_connect
  else OtherError (message e).

Definition new_Error (msg : string) : Thrown := mkThrown None msg None.

(** The body of the loop for one batch. *)
Definition embed_batch (batch : list string) : outcome (list (list float)) :=
  match post batch with
  | Failed e => Threw (rethrow e)
  | NotOk status errorText =>
      if (status =? 404)%Z || includes errorText "model" || includes errorText "not found"
      then Threw (rethrow (new_Error model_not_found))
      else Threw (rethrow (new_Error (api_error status errorText)))
  | Ok None => Threw (rethrow (new_Error invalid_response))
  | Ok (Some embeddings) => Returned embeddings
  end.

(** [for (let i = 0; i < texts.length; i += BATCH_SIZE)]: one unit of fuel
    per batch. *)
Fixpoint for_batches (fuel : nat) (texts : list string) (i : nat)
  (allEmbeddings : list (list float)) : outcome (list (list float)) :=
  if (i <? List.length texts)%nat then
    match fuel with
    | O => OutOfFuel
    | S fuel' =>
        let batch :=
          Similarity.slice texts i (Nat.min (i + BATCH_SIZE) (List.length texts)) in
        embeddings <- embed_batch batch ;;
        for_batches fuel' texts (i + BATCH_SIZE) (allEmbeddings ++ embeddings)%list
    end
  else Returned allEmbeddings.

Definition embedWithOllama (texts : list string) : outcome (list (list float)) :=
  if (List.length texts =? 0)%nat then Returned []
  else for_batches (List.length texts) texts 0 [].

End Embed.

(** *** Properties *)

Lemma String_substring_prefix (n : nat) (a b : string) :
  (n <= String.length a)%nat ->
  String.substring 0 n (a ++ b) = String.substring 0 n a.
Proof.
  revert n. induction a as [|c a IH]; intros n Hn.
  - simpl in Hn. replace n with 0%nat by lia. simpl. now destruct b.
  - destruct n as [|n]; [reflexivity|]. simpl. f_equal. apply IH. simpl in Hn. lia.
Qed.

Lemma substring_prefix (a b : string) (n : Z) :
  (0 <= n <= len a)%Z -> substring (a ++ b) 0 n = substring a 0 n.
Proof.
  intros Hn. unfold substring, clamp. rewrite Rag.len_append.
  assert (Hb : (0 <= len b)%Z) by (unfold len; lia).
  replace (Z.min (Z.max 0 0) (len a + len b)) with 0%Z by lia.
  replace (Z.min (Z.max n 0) (len a + len b)) with n by lia.
  replace (Z.min (Z.max 0 0) (len a)) with 0%Z by lia.
  replace (Z.min (Z.max n 0) (len a)) with n by lia.
  replace (Z.min 0 n) with 0%Z by lia.
  change (Z.to_nat 0) with 0%nat.
  apply String_substring_prefix. unfold len in Hn. lia.
Qed.

Lemma buildPrompt_parts (question context : string) :
  Rag.buildPrompt question context
  = (prompt_header ++ context)
    ++ nl ++ nl ++ "QUESTION:" ++ nl ++ question ++ nl ++ nl ++ "ANSWER:" ++ nl.
Proof.
  unfold Rag.buildPrompt, prompt_header. now rewrite !append_assoc.
Qed.

Lemma String_substring_take (n : nat) (s : string) :
  (n <= String.length s)%nat ->
  String.length (String.substring 0 n s) = n
  /\ exists cut, s = String.substring 0 n s ++ cut.
Proof.
  revert n. induction s as [|c s IH]; intros [|n] H; simpl in *.
  - split; [reflexivity | now exists ""].
  - lia.
  - split; [reflexivity | now exists (String c s)].
  - destruct (IH n) as [Hl [cut Hc]]; [lia|].
    split; [now rewrite Hl|]. exists cut. now rewrite <- Hc.
Qed.

Lemma substring_take (s : string) (n : Z) :
  (0 <= n <= len s)%Z ->
  len (substring s 0 n) = n /\ exists cut, s = substring s 0 n ++ cut.
Proof.
  intros Hn. unfold substring, clamp.
  replace (Z.min (Z.max 0 0) (len s)) with 0%Z by lia.
  replace (Z.min (Z.max n 0) (len s)) with n by lia.
  replace (Z.min 0 n) with 0%Z by lia.
  replace (Z.max 0 n - 0)%Z with n by lia.
  change (Z.to_nat 0) with 0%nat.
  destruct (@String_substring_take (Z.to_nat n) s) as [Hl Hcut];
    [unfold len in Hn; lia|].
  split; [unfold len; rewrite Hl; lia | exact Hcut].
Qed.

(** X15. The prompt that is sent to the model is the prompt itself when it
    has at most 8000 characters, and otherwise its first 8000 characters
    followed by the notice: never more than 8024 characters. *)
Theorem truncatedPrompt_bounded (prompt : string) :
  (len (truncatedPrompt prompt) <= 8024)%Z
  /\ ((len prompt <= 8000)%Z -> truncatedPrompt prompt = prompt)
  /\ ((8000 < len prompt)%Z ->
      exists cut, prompt = substring prompt 0 8000 ++ cut
                  /\ len (substring prompt 0 8000) = 8000%Z
                  /\ truncatedPrompt prompt
                     = substring prompt 0 8000 ++ truncation_notice).
Proof.
  unfold truncatedPrompt, maxPromptLength.
  destruct (Z.gtb_spec (len prompt) 8000) as [Hlong | Hshort].
  - destruct (@substring_take prompt 8000) as [Hlen [cut Hcut]]; [lia|].
    split; [|split].
    + rewrite Rag.len_append, Hlen. change (len truncation_notice) with 24%Z. lia.
    + lia.
    + intros _. exists cut. now repeat split.
  - split; [lia|]. split; [reflexivity | lia].
Qed.

(** X16. A context of 7802 characters or more fills the 8000 characters by
    itself: the prompt sent for [buildPrompt(question, context)] is then the
    same for every question, so the question and the [ANSWER:] cue do not
    reach the model. *)
Theorem long_context_cuts_the_question (context question question' : string) :
  (7802 <= len context)%Z ->
  truncatedPrompt (Rag.buildPrompt question context)
  = truncatedPrompt (Rag.buildPrompt question' context)
  /\ truncatedPrompt (Rag.buildPrompt question context)
     = substring (prompt_header ++ context) 0 8000 ++ truncation_notice.
Proof.
  intros Hc.
  assert (Hh : len prompt_header = 198%Z) by reflexivity.
  assert (Hcut : forall q,
             truncatedPrompt (Rag.buildPrompt q context)
             = substring (prompt_header ++ context) 0 8000 ++ truncation_notice).
  { intros q. unfold truncatedPrompt, maxPromptLength. rewrite buildPrompt_parts.
    set (tail := nl ++ nl ++ "QUESTION:" ++ nl ++ q ++ nl ++ nl ++ "ANSWER:" ++ nl).
    assert (Ht : (0 < len tail)%Z) by (unfold tail, len; simpl; lia).
    rewrite !Rag.len_append, Hh.
    replace (198 + len context + len tail >? 8000)%Z with true
      by (symmetry; apply Z.gtb_lt; lia).
    rewrite substring_prefix; [reflexivity|].
    rewrite Rag.len_append, Hh. lia. }
  split; [now rewrite !Hcut | apply Hcut].
Qed.

Lemma long_context_cuts_the_question_witness :
  truncatedPrompt (Rag.buildPrompt "what?" (String.concat "" (repeat "0123456789" 781)))
  = truncatedPrompt (Rag.buildPrompt "why?" (String.concat "" (repeat "0123456789" 781)))
  /\ truncatedPrompt (Rag.buildPrompt "what?" (String.concat "" (repeat "0123456789" 781)))
     = substring (prompt_header ++ String.concat "" (repeat "0123456789" 781)) 0 8000
       ++ truncation_notice.
Proof.
  apply (@long_context_cuts_the_question
           (String.concat "" (repeat "0123456789" 781)) "what?" "why?").
  vm_compute. discriminate.
Defined.

(** **** The streamed reply *)

Lemma split_nl_nonempty (s : string) : split_nl s <> [].
Proof.
  induction s as [|c s IH]; simpl; [discriminate|].
  destruct (Ascii.eqb c "010"); [discriminate|].
  destruct (split_nl s); discriminate.
Qed.

Lemma removelast_cons (A : Type) (x : A) (l : list A) :
  l <> [] -> removelast (x :: l) = x :: removelast l.
Proof. destruct l; [contradiction | reflexivity]. Qed.

Lemma last_cons (A : Type) (x d : A) (l : list A) : l <> [] -> last (x :: l) d = last l d.
Proof. destruct l; [contradiction | reflexivity]. Qed.

(** Splitting a text that grows: the lines already complete stay, and the
    unfinished last line is continued. *)
Lemma split_nl_app (s t : string) :
  split_nl (s ++ t)
  = (removelast (split_nl s) ++ split_nl (last (split_nl s) "" ++ t))%list.
Proof.
  induction s as [|c s IH]; [reflexivity|].
  change (String c s ++ t) with (String c (s ++ t)). cbn [split_nl].
  pose proof (split_nl_nonempty s) as Hne.
  destruct (Ascii.eqb c "010") eqn:Ec.
  - rewrite removelast_cons, last_cons by exact Hne. now rewrite IH.
  - rewrite IH. destruct (split_nl s) as [|first rest] eqn:Es; [contradiction|].
    destruct rest as [|second rest].
    + cbn [removelast last app].
      change (String c first ++ t) with (String c (first ++ t)).
      cbn [split_nl]. now rewrite Ec.
    + rewrite removelast_cons by discriminate.
      rewrite (@removelast_cons _ (String c first)) by discriminate.
      rewrite !last_cons by discriminate. reflexivity.
Qed.

(** The unfinished last line holds no line break. *)
Lemma split_nl_last (s : string) :
  split_nl (last (split_nl s) "") = [last (split_nl s) ""].
Proof.
  induction s as [|c s IH]; [reflexivity|]. cbn [split_nl].
  pose proof (split_nl_nonempty s) as Hne.
  destruct (Ascii.eqb c "010") eqn:Ec.
  - now rewrite last_cons by exact Hne.
  - destruct (split_nl s) as [|first rest] eqn:Es; [contradiction|].
    destruct rest as [|second rest].
    + cbn [last] in *. cbn [split_nl]. now rewrite Ec, IH.
    + rewrite last_cons by discriminate. rewrite last_cons in IH by discriminate.
      exact IH.
Qed.

Lemma removelast_app_nonempty (A : Type) (l1 l2 : list A) :
  l2 <> [] -> removelast (l1 ++ l2)%list = (l1 ++ removelast l2)%list.
Proof. intros H. now apply removelast_app. Qed.

Lemma last_app_nonempty (A : Type) (l1 l2 : list A) (d : A) :
  l2 <> [] -> last (l1 ++ l2)%list d = last l2 d.
Proof.
  intros H. induction l1 as [|x l1 IH]; [reflexivity|].
  change ((x :: l1) ++ l2)%list with (x :: (l1 ++ l2))%list.
  rewrite last_cons; [exact IH | now destruct l1, l2].
Qed.

Section StreamFacts.

Variable parse : string -> option Delta.

Lemma for_lines_app (l1 l2 : list string) :
  for_lines parse (l1 ++ l2)%list
  = let (yielded, returned) := for_lines parse l1 in
    if returned then (yielded, true)
    else let (more, returned') := for_lines parse l2 in ((yielded ++ more)%list, returned').
Proof.
  induction l1 as [|line l1 IH]; simpl.
  - now destruct (for_lines parse l2).
  - destruct (String.eqb (trim line) ""); [exact IH|].
    destruct (parse line) as [data|]; [|exact IH].
    destruct (done data); [reflexivity|].
    rewrite IH. destruct (for_lines parse l1) as [ys [|]]; [reflexivity|].
    destruct (for_lines parse l2) as [more r]. now rewrite List.app_assoc.
Qed.

(** The loop over the reads, from a buffer that is the unfinished last line
    of what was read before. *)
Lemma read_loop_lines (reads : list string) (buffer : string) :
  split_nl buffer = [buffer] ->
  read_loop parse reads buffer
  = fst (for_lines parse (removelast (split_nl (buffer ++ String.concat "" reads)))).
Proof.
  revert buffer. induction reads as [|value rest IH]; intros buffer Hb.
  - simpl. rewrite append_empty_r, Hb. reflexivity.
  - cbn [read_loop].
    set (parts := split_nl (buffer ++ value)).
    assert (Hrhs : split_nl (buffer ++ String.concat "" (value :: rest))
                   = (removelast parts
                      ++ split_nl (last parts "" ++ String.concat "" rest))%list).
    { change (String.concat "" (value :: rest)) with (Rag.join (value :: rest)).
      rewrite Rag.join_cons, <- append_assoc. apply split_nl_app. }
    rewrite Hrhs, removelast_app_nonempty by apply split_nl_nonempty.
    rewrite for_lines_app.
    destruct (for_lines parse (removelast parts)) as [yielded [|]]; [reflexivity|].
    rewrite IH by apply split_nl_last.
    now destruct (for_lines parse _).
Qed.

End StreamFacts.

(** A line without a line break, followed by one: the line, and an empty
    unfinished line. *)
Lemma split_nl_line (l : string) :
  split_nl l = [l] -> split_nl (l ++ nl) = [l; ""].
Proof.
  induction l as [|c l IH]; [reflexivity|].
  change (String c l ++ nl) with (String c (l ++ nl)). cbn [split_nl].
  destruct (Ascii.eqb c "010"); [discriminate|].
  destruct (split_nl l) as [|first rest] eqn:E.
  - now destruct (split_nl_nonempty l).
  - intros H. injection H as H1 H2. subst. now rewrite IH.
Qed.

(** A text that ends with a line break leaves an empty unfinished line. *)
Lemma split_nl_terminated (s : string) : last (split_nl (s ++ nl)) "" = "".
Proof.
  rewrite split_nl_app, split_nl_line by apply split_nl_last.
  now rewrite last_app_nonempty by discriminate.
Qed.

(** X17. The deltas that [generateStreamWithOllama] yields depend on the
    reply only through its text, not on how the text arrives in reads:
    they are those of the complete lines of the whole text, in order, up
    to the first line that reports [done].  What follows the last line
    break is never parsed: a last line that the server does not end with a
    line break is lost. *)
Theorem stream_yields_by_line (parse : string -> option Delta) (reads : list string) :
  read_loop parse reads ""
  = fst (for_lines parse (removelast (split_nl (String.concat "" reads))))
  /\ (forall reads',
        String.concat "" reads' = String.concat "" reads ->
        read_loop parse reads' "" = read_loop parse reads "")
  /\ (forall unfinished,
        split_nl unfinished = [unfinished] ->
        read_loop parse (reads ++ [nl; unfinished])%list ""
        = read_loop parse (reads ++ [nl])%list "").
Proof.
  assert (Hlines : forall rs,
            read_loop parse rs ""
            = fst (for_lines parse (removelast (split_nl (String.concat "" rs)))))
    by (intros rs; now rewrite read_loop_lines).
  split; [apply Hlines|]. split.
  - intros reads' Hsame. now rewrite !Hlines, Hsame.
  - intros unfinished Hu. rewrite !Hlines. do 2 f_equal.
    change (String.concat "") with Rag.join.
    rewrite !Rag.join_app, !Rag.join_cons. change (Rag.join []) with "".
    rewrite !append_empty_r, <- append_assoc.
    rewrite (split_nl_app (Rag.join reads ++ nl) unfinished).
    rewrite split_nl_terminated. cbn [append]. rewrite Hu.
    rewrite removelast_app_nonempty by discriminate.
    cbn [removelast]. now rewrite List.app_nil_r.
Qed.

(** **** The batches *)

Lemma skipn_batch (A : Type) (l : list A) (i : nat) :
  (i < List.length l)%nat ->
  skipn i l
  = (Similarity.slice l i (Nat.min (i + BATCH_SIZE) (List.length l))
     ++ skipn (i + BATCH_SIZE) l)%list.
Proof.
  intros Hi. unfold Similarity.slice.
  rewrite <- (firstn_skipn (Nat.min (i + BATCH_SIZE) (List.length l) - i) (skipn i l)) at 1.
  f_equal. rewrite skipn_skipn.
  destruct (Nat.le_gt_cases (i + BATCH_SIZE) (List.length l)) as [Hle | Hgt].
  - f_equal. lia.
  - rewrite !skipn_all2; [reflexivity | lia | lia].
Qed.

Section EmbedFacts.

Variable OLLAMA_BASE : string.
Variable OLLAMA_EMBED_MODEL : string.
Variable post : list string -> Exchange.

(** The server answers every request with one vector for each text, the
    vector [model_of] gives it. *)
Variable model_of : string -> list float.
Hypothesis post_answers : forall batch, post batch = Ok (Some (map model_of batch)).

Lemma for_batches_answers (fuel i : nat) (texts : list string) (acc : list (list float)) :
  (List.length texts - i <= fuel)%nat ->
  for_batches OLLAMA_BASE OLLAMA_EMBED_MODEL post fuel texts i acc
  = Returned (acc ++ map model_of (skipn i texts))%list.
Proof.
  revert i acc. induction fuel as [|fuel IH]; intros i acc Hfuel.
  - simpl. destruct (i <? List.length texts)%nat eqn:E.
    + apply Nat.ltb_lt in E. lia.
    + apply Nat.ltb_ge in E. rewrite skipn_all2 by exact E. simpl.
      now rewrite List.app_nil_r.
  - cbn [for_batches]. destruct (i <? List.length texts)%nat eqn:E.
    + apply Nat.ltb_lt in E. unfold embed_batch. rewrite post_answers. cbn [bind].
      rewrite IH by (unfold BATCH_SIZE; lia).
      rewrite (skipn_batch texts E). now rewrite map_app, List.app_assoc.
    + apply Nat.ltb_ge in E. rewrite skipn_all2 by exact E. simpl.
      now rewrite List.app_nil_r.
Qed.

End EmbedFacts.

(** X18. When the server answers each request with one vector per text,
    [embedWithOllama] returns one vector per text in the order of the texts,
    however many batches of 64 the texts make: the batching cannot be seen
    from outside. *)
Theorem embedWithOllama_keeps_order (base model : string)
  (post : list string -> Exchange) (model_of : string -> list float)
  (texts : list string) :
  (forall batch, post batch = Ok (Some (map model_of batch))) ->
  embedWithOllama base model post texts = Returned (map model_of texts).
Proof.
  intros Hpost. unfold embedWithOllama.
  destruct texts as [|t texts]; [reflexivity|].
  cbn [List.length Nat.eqb].
  rewrite (@for_batches_answers base model post model_of Hpost) by (simpl; lia).
  reflexivity.
Qed.

Lemma embedWithOllama_keeps_order_witness :
  embedWithOllama "http://localhost:11434" "all-minilm"
    (fun batch => Ok (Some (map (fun t => if String.eqb t "a" then [1%float] else [0%float]) batch)))
    (repeat "a" 70 ++ ["bc"])%list
  = Returned (map (fun t => if String.eqb t "a" then [1%float] else [0%float])
                  (repeat "a" 70 ++ ["bc"])%list).
Proof.
  apply (@embedWithOllama_keeps_order "http://localhost:11434" "all-minilm"
           (fun batch => Ok (Some (map (fun t => if String.eqb t "a" then [1%float] else [0%float]) batch)))
           (fun t => if String.eqb t "a" then [1%float] else [0%float])).
  reflexivity.
Defined.

End Ollama.

(** ** [@/lib/ingest]: [embedDocument]

    The store is the part of the database the function touches: the
    documents, the chunks, the embeddings and the next chunk id of the
    [AUTOINCREMENT] column.  The file system, the PDF reader and the
    embedding provider are the fields of an [Env]. *)

Module Ingest.

Import JS.
Local Open Scope list_scope.
Local Open Scope string_scope.
Local Open Scope Z_scope.

Record DocumentRecord : Type := mkDocument {
  doc_id : Z;
  originalPath : string
}.

Record ChunkRecord : Type := mkChunkRecord {
  id : Z;
  documentId : Z;
  chunkIndex : Z;
  text : string;
  tokenCount : Z
}.

Record EmbeddingRecord : Type := mkEmbeddingRecord {
  chunkId : Z;
  vector : list float;
  model : string
}.

Record Store : Type := mkStore {
  documents : list DocumentRecord;
  chunks : list ChunkRecord;
  embeddings : list EmbeddingRecord;
  nextChunkId : Z
}.

Record Env : Type := mkEnv {
  resolveFilePath : string -> string;
  (** [access(filePath, constants.R_OK)] succeeds *)
  readable : string -> bool;
  (** [(await extractTextFromPdf(filePath)).text] *)
  extractTextFromPdf : string -> promise string;
  (** [embedTexts(chunkTexts)]: the vectors, or the error it throws *)
  embedTexts : list string -> Ollama.Thrown + list (list float);
  (** [getEmbedModelName()] *)
  modelName : string
}.

Record EmbedResult : Type := mkResult {
  chunksCreated : nat;
  embeddingsCreated : nat;
  result_model : string
}.

Definition already_embedded : string :=
  "Document already embedded. To refresh later, implement a re-embed mode.".

Definition no_text : string :=
  "No extractable text found. This PDF may be scanned images. "
  ++ "Please use OCR or a text-based PDF.".

Definition no_chunks : string := "No chunks could be created from the extracted text".

Definition count_mismatch : string := "Embedding count mismatch - please try again".

(** [prisma.chunk.createMany]: the rows get consecutive ids. *)
Fixpoint number_from (next documentId : Z) (cs : list Chunk.TextChunk)
  : list ChunkRecord :=
  match cs with
  | [] => []
  | c :: rest =>
      mkChunkRecord next documentId (Chunk.index c) (Chunk.text c) (Chunk.tokenCount c)
      :: number_from (next + 1) documentId rest
  end.

Definition createMany_chunks (st : Store) (documentId : Z) (cs : list Chunk.TextChunk)
  : Store :=
  mkStore (documents st)
          (chunks st ++ number_from (nextChunkId st) documentId cs)%list
          (embeddings st)
          (nextChunkId st + Z.of_nat (List.length cs)).

(** [orderBy: { chunkIndex: 'asc' }]. *)
Fixpoint insert_by_index (c : ChunkRecord) (l : list ChunkRecord) : list ChunkRecord :=
  match l with
  | [] => [c]
  | y :: l' => if chunkIndex c <? chunkIndex y then c :: l else y :: insert_by_index c l'
  end.

Definition order_by_index (l : list ChunkRecord) : list ChunkRecord :=
  fold_right insert_by_index [] l.

(** [prisma.chunk.findMany({ where: { documentId }, orderBy: ... })]. *)
Definition findMany_chunks (st : Store) (d : Z) : list ChunkRecord :=
  order_by_index (filter (fun c => documentId c =? d) (chunks st)).

Definition createMany_embeddings (st : Store) (rows : list EmbeddingRecord) : Store :=
  mkStore (documents st) (chunks st) (embeddings st ++ rows)%list (nextChunkId st).

(** The [catch] around [embedTexts]. *)
Definition embedding_failed (env : Env) (error : Ollama.Thrown) : js_error :=
  let errorMessage :=
    if truthy (Ollama.message error) then Ollama.message error
    else "Failed to generate embeddings" in
  if includes errorMessage "Cannot connect to Ollama server"
     || Ollama.is_refused (Ollama.code error)
     || Ollama.is_refused (Ollama.cause_code error)
  then OtherError "Cannot connect to Ollama server. Start: `ollama serve`"
  else if includes errorMessage "not found" || includes errorMessage "Model"
  then OtherError ("Embedding model " ++ dquote ++ modelName env ++ dquote
                   ++ " not found or not configured properly.")
  else OtherError errorMessage.

(** [embedDocument(documentId)]: the result or the error, and the store it
    leaves. *)
Definition embedDocument (env : Env) (d : Z) (st : Store)
  : outcome EmbedResult * Store :=
  match find (fun c => documentId c =? d) (chunks st) with
  | Some _ => (Threw (OtherError already_embedded), st)
  | None =>
      match find (fun doc => doc_id doc =? d) (documents st) with
      | None =>
          (Threw (OtherError ("Document with id " ++ string_of_Z d ++ " not found")), st)
      | Some document =>
          let filePath := resolveFilePath env (originalPath document) in
          if negb (truthy (originalPath document)) then
            (Threw (OtherError "Document file path is missing"), st)
          else if negb (readable env filePath) then
            (Threw (OtherError "PDF file not found or cannot be read"), st)
          else
            match extractTextFromPdf env filePath with
            | Rejected _ => (Threw (OtherError "Failed to parse PDF file"), st)
            | Resolved pdfText =>
                if negb (truthy pdfText) || (len (trim pdfText) =? 0) then
                  (Threw (OtherError no_text), st)
                else
                  match Chunk.chunkText (S (String.length (trim pdfText))) pdfText 1500 200 with
                  | Threw e => (Threw e, st)
                  | OutOfFuel => (OutOfFuel, st)
                  | Returned cs =>
                      if (List.length cs =? 0)%nat then (Threw (OtherError no_chunks), st)
                      else
                        let st1 := createMany_chunks st d cs in
                        let insertedChunks := findMany_chunks st1 d in
                        let chunkTexts := map text insertedChunks in
                        match embedTexts env chunkTexts with
                        | inl error => (Threw (embedding_failed env error), st1)
                        | inr embeddingVectors =>
                            if negb (List.length embeddingVectors
                                     =? List.length insertedChunks)%nat
                            then (Threw (OtherError count_mismatch), st1)
                            else
                              let rows :=
                                map (fun cv => mkEmbeddingRecord (id (fst cv)) (snd cv)
                                                 (modelName env))
                                    (combine insertedChunks embeddingVectors) in
                              (Returned (mkResult (List.length cs) (List.length rows)
                                           (modelName env)),
                               createMany_embeddings st1 rows)
                        end
                  end
            end
      end
  end.

(** *** Properties *)

Lemma number_from_documentId (next d : Z) (cs : list Chunk.TextChunk) :
  Forall (fun c => documentId c = d) (number_from next d cs).
Proof.
  revert next. induction cs as [|c cs IH]; intros next; simpl; constructor; auto.
Qed.

Lemma number_from_index (next d : Z) (cs : list Chunk.TextChunk) :
  map chunkIndex (number_from next d cs) = map Chunk.index cs.
Proof.
  revert next. induction cs as [|c cs IH]; intros next; simpl; [reflexivity|].
  now rewrite IH.
Qed.

Lemma number_from_text (next d : Z) (cs : list Chunk.TextChunk) :
  map text (number_from next d cs) = map Chunk.text cs.
Proof.
  revert next. induction cs as [|c cs IH]; intros next; simpl; [reflexivity|].
  now rewrite IH.
Qed.

Lemma length_number_from (next d : Z) (cs : list Chunk.TextChunk) :
  List.length (number_from next d cs) = List.length cs.
Proof.
  revert next. induction cs as [|c cs IH]; intros next; simpl; [reflexivity|].
  now rewrite IH.
Qed.

Lemma find_none_filter (A : Type) (p : A -> bool) (l : list A) :
  find p l = None -> filter p l = [].
Proof.
  induction l as [|x l IH]; simpl; [reflexivity|].
  destruct (p x); [discriminate | exact IH].
Qed.

Lemma filter_all (A : Type) (p : A -> bool) (l : list A) :
  Forall (fun x => p x = true) l -> filter p l = l.
Proof.
  induction 1 as [|x l Hx _ IH]; simpl; [reflexivity|]. now rewrite Hx, IH.
Qed.

(** The chunks of a document that had none are the rows just inserted. *)
Lemma filter_inserted (st : Store) (d : Z) (cs : list Chunk.TextChunk) :
  find (fun c => documentId c =? d) (chunks st) = None ->
  filter (fun c => documentId c =? d) (chunks (createMany_chunks st d cs))
  = number_from (nextChunkId st) d cs.
Proof.
  intros Hnone. cbn [createMany_chunks chunks].
  rewrite filter_app, (find_none_filter _ _ Hnone). cbn [app].
  apply filter_all.
  eapply Forall_impl; [|apply number_from_documentId].
  intros c Hc. now apply Z.eqb_eq.
Qed.

(** Strictly ascending. *)
Fixpoint ascending (l : list Z) : Prop :=
  match l with
  | [] => True
  | x :: l' =>
      match l' with
      | [] => True
      | y :: _ => x < y /\ ascending l'
      end
  end.

Lemma ascending_seq (a n : nat) : ascending (map Z.of_nat (seq a n)).
Proof.
  revert a. induction n as [|n IH]; intros a; [exact I|].
  specialize (IH (S a)). destruct n as [|n]; [exact I|].
  cbn [seq map ascending] in *. split; [lia | exact IH].
Qed.

Lemma order_by_index_ascending (l : list ChunkRecord) :
  ascending (map chunkIndex l) -> order_by_index l = l.
Proof.
  induction l as [|x l IH]; [reflexivity|]. intros H.
  cbn [order_by_index fold_right]. fold (order_by_index l).
  destruct l as [|y l']; [reflexivity|].
  cbn [map ascending] in H. destruct H as [Hxy Hrest].
  rewrite IH by exact Hrest. cbn [insert_by_index].
  now replace (chunkIndex x <? chunkIndex y) with true by (symmetry; now apply Z.ltb_lt).
Qed.

Lemma combine_map_r (A B : Type) (f : A -> B) (l : list A) :
  combine l (map f l) = map (fun x => (x, f x)) l.
Proof. induction l as [|x l IH]; simpl; [reflexivity | now rewrite IH]. Qed.

(** Whatever changes the store inserts at least one chunk of the document. *)
Lemma embedDocument_store (env : Env) (d : Z) (st st' : Store)
  (r : outcome EmbedResult) :
  embedDocument env d st = (r, st') ->
  st' = st
  \/ exists cs extra,
       cs <> []
       /\ chunks st' = (chunks st ++ number_from (nextChunkId st) d cs)%list
       /\ embeddings st' = (embeddings st ++ extra)%list
       /\ ((exists e, r = Threw e) -> extra = []).
Proof.
  unfold embedDocument.
  destruct (find _ (chunks st)); [intros [= _ <-]; now left|].
  destruct (find _ (documents st)) as [document|]; [|intros [= _ <-]; now left].
  destruct (negb (truthy _)); [intros [= _ <-]; now left|].
  destruct (negb (readable _ _)); [intros [= _ <-]; now left|].
  destruct (extractTextFromPdf _ _) as [pdfText | e]; [|intros [= _ <-]; now left].
  destruct (_ || _); [intros [= _ <-]; now left|].
  destruct (Chunk.chunkText _ _ _ _) as [cs | e |];
    [| intros [= _ <-]; now left | intros [= _ <-]; now left].
  destruct (List.length cs =? 0)%nat eqn:Ecs; [intros [= _ <-]; now left|].
  assert (Hne : cs <> []) by (intros ->; discriminate).
  destruct (embedTexts _ _) as [error | vectors].
  - intros [= <- <-]. right. exists cs, []. rewrite List.app_nil_r. now repeat split.
  - destruct (negb _).
    + intros [= <- <-]. right. exists cs, []. rewrite List.app_nil_r. now repeat split.
    + intros [= <- <-]. right. exists cs. eexists. repeat split; try assumption.
      intros [e He]. discriminate.
Qed.

(** X19. [embedDocument] works once for a document.  Whenever a call has
    changed the store, whether it succeeded or failed, every later call for
    the same document is refused as already embedded and changes nothing;
    and a call that failed after its chunks were stored, the embedding
    provider being down or returning the wrong number of vectors, has stored
    no embedding: the retry that the error asks for cannot succeed. *)
Theorem embedDocument_runs_once (env env' : Env) (d : Z) (st st' : Store)
  (r : outcome EmbedResult) :
  embedDocument env d st = (r, st') ->
  chunks st' <> chunks st ->
  embedDocument env' d st' = (Threw (OtherError already_embedded), st')
  /\ ((exists e, r = Threw e) -> embeddings st' = embeddings st).
Proof.
  intros Hrun Hchanged.
  apply embedDocument_store in Hrun as [-> | (cs & extra & Hne & Hchunks & Hemb & Hfail)];
    [contradiction|].
  split.
  - unfold embedDocument. rewrite Hchunks.
    destruct cs as [|c cs]; [contradiction|]. cbn [number_from].
    destruct (find _ (chunks st ++ _)%list) as [found|] eqn:Hfind; [reflexivity|].
    exfalso.
    assert (Hin : In (mkChunkRecord (nextChunkId st) d (Chunk.index c) (Chunk.text c)
                                    (Chunk.tokenCount c))
                     (chunks st
                      ++ mkChunkRecord (nextChunkId st) d (Chunk.index c) (Chunk.text c)
                                       (Chunk.tokenCount c)
                         :: number_from (nextChunkId st + 1) d cs)%list)
      by (apply in_or_app; right; now left).
    apply (find_none _ _ Hfind) in Hin. cbn [documentId] in Hin.
    now rewrite Z.eqb_refl in Hin.
  - intros He. rewrite Hemb, (Hfail He). apply List.app_nil_r.
Qed.

(** A store with one document and a provider that is down. *)
Definition one_document : Store := mkStore [mkDocument 7 "uploads/a.pdf"] [] [] 1.

Definition provider_down : Env :=
  mkEnv (fun p => p) (fun _ => true) (fun _ => Resolved "some text")
        (fun _ => inl (Ollama.mkThrown None "fetch failed" (Some "ECONNREFUSED")))
        "all-minilm".

Definition provider_up : Env :=
  mkEnv (fun p => p) (fun _ => true) (fun _ => Resolved "some text")
        (fun texts => inr (map (fun _ => [1%float]) texts))
        "all-minilm".

Definition chunks_without_embeddings : Store :=
  mkStore [mkDocument 7 "uploads/a.pdf"]
          [mkChunkRecord 1 7 0 "some text" 9] [] 2.

Lemma embedDocument_runs_once_witness :
  embedDocument provider_up 7 chunks_without_embeddings
  = (Threw (OtherError already_embedded), chunks_without_embeddings)
  /\ ((exists e, Threw (OtherError "Cannot connect to Ollama server. Start: `ollama serve`")
                 = @Threw EmbedResult e) ->
      embeddings chunks_without_embeddings = embeddings one_document).
Proof.
  apply (@embedDocument_runs_once provider_down provider_up 7 one_document
           chunks_without_embeddings
           (Threw (OtherError "Cannot connect to Ollama server. Start: `ollama serve`"))).
  - vm_compute. reflexivity.
  - discriminate.
Defined.

(** X20. For a document that has no chunks yet, whose file can be read and
    holds text that is not blank, and a provider that returns a vector for
    each text, [embedDocument] succeeds: it stores the chunks that
    [chunkText(pdfText, 1500, 200)] cuts, at least one, under consecutive
    ids, and for each of them one embedding, the vector of that chunk's own
    text; both counts it reports are the number of chunks.  The error
    [No chunks could be created] cannot occur. *)
Theorem embedDocument_pairs_chunks_with_vectors (env : Env) (d : Z) (st : Store)
  (document : DocumentRecord) (pdfText : string) (model_of : string -> list float) :
  find (fun c => documentId c =? d) (chunks st) = None ->
  find (fun doc => doc_id doc =? d) (documents st) = Some document ->
  originalPath document <> "" ->
  readable env (resolveFilePath env (originalPath document)) = true ->
  extractTextFromPdf env (resolveFilePath env (originalPath document)) = Resolved pdfText ->
  trim pdfText <> "" ->
  (forall texts, embedTexts env texts = inr (map model_of texts)) ->
  exists c cs,
    Chunk.chunkText (S (String.length (trim pdfText))) pdfText 1500 200
    = Returned (c :: cs)
    /\ let rows := number_from (nextChunkId st) d (c :: cs) in
       embedDocument env d st
       = (Returned (mkResult (List.length rows) (List.length rows) (modelName env)),
          mkStore (documents st)
                  (chunks st ++ rows)%list
                  (embeddings st
                   ++ map (fun row => mkEmbeddingRecord (id row) (model_of (text row))
                                        (modelName env)) rows)%list
                  (nextChunkId st + Z.of_nat (List.length rows))).
Proof.
  intros Hfresh Hdoc Hpath Hread Htext Hblank Hembed.
  assert (Htrim : truthy (trim pdfText) = true)
    by (destruct (trim pdfText); [contradiction | reflexivity]).
  destruct (@Chunk.chunkText_regular pdfText 1500 200) as (cs0 & Hrun & [Hidx _] & _);
    [lia | exact Htrim |].
  destruct (@Chunk.chunkText_regular_first pdfText 1500 200) as (c & cs & Hfirst & _);
    [lia | exact Htrim |].
  rewrite Hfirst in Hrun. injection Hrun as <-.
  exists c, cs. split; [exact Hfirst|]. cbv zeta.
  unfold embedDocument. rewrite Hfresh, Hdoc.
  replace (truthy (originalPath document)) with true
    by (destruct (originalPath document); [contradiction | reflexivity]).
  cbn [negb]. rewrite Hread. cbn [negb]. rewrite Htext.
  replace (truthy pdfText) with true
    by (destruct pdfText; [now contradiction Hblank | reflexivity]).
  replace (len (trim pdfText) =? 0) with false
    by (destruct (trim pdfText); [discriminate | reflexivity]).
  cbn [negb orb]. rewrite Hfirst.
  change (List.length (c :: cs) =? 0)%nat with false. cbv iota.
  unfold findMany_chunks. rewrite (@filter_inserted st d (c :: cs) Hfresh).
  set (rows := number_from (nextChunkId st) d (c :: cs)).
  assert (Hsorted : order_by_index rows = rows).
  { apply order_by_index_ascending. unfold rows.
    rewrite number_from_index, Hidx. apply ascending_seq. }
  rewrite Hsorted, Hembed, !length_map, Nat.eqb_refl. cbn [negb].
  rewrite map_map, combine_map_r, map_map. cbn [fst snd].
  unfold createMany_embeddings, createMany_chunks. cbn [documents chunks embeddings nextChunkId].
  fold rows.
  assert (Hlen : List.length rows = List.length (c :: cs)) by apply length_number_from.
  rewrite ?length_map, ?Hlen. reflexivity.
Qed.

Lemma embedDocument_pairs_chunks_with_vectors_witness :
  exists c cs,
    Chunk.chunkText (S (String.length (trim "some text"))) "some text" 1500 200
    = Returned (c :: cs)
    /\ let rows := number_from (nextChunkId one_document) 7 (c :: cs) in
       embedDocument provider_up 7 one_document
       = (Returned (mkResult (List.length rows) (List.length rows)
                             (modelName provider_up)),
          mkStore (documents one_document)
                  (chunks one_document ++ rows)%list
                  (embeddings one_document
                   ++ map (fun row => mkEmbeddingRecord (id row)
                                        ((fun _ => [1%float]) (text row))
                                        (modelName provider_up)) rows)%list
                  (nextChunkId one_document + Z.of_nat (List.length rows))).
Proof.
  apply (@embedDocument_pairs_chunks_with_vectors provider_up 7 one_document
           (mkDocument 7 "uploads/a.pdf") "some text" (fun _ => [1%float]));
    try reflexivity; discriminate.
Defined.

End Ingest.
